(** * sp500-components-history: the reconciliation engine of [bin/update.py]

    A shallow embedding of the membership-record model, the effective-date
    merge, the removal resolver, the snapshot differ, the history rebuilder
    and the point-in-time query of [bin/update.py], with the properties of
    the specification stated and settled against it.

    Modelling conventions.
    - [dt.date] is modelled by its proleptic Gregorian ordinal
      ([date.toordinal()]): a [Z].  Comparison of dates is comparison of
      ordinals, and the difference of two dates is a [dt.timedelta] of that
      many days, itself modelled by the number of days.
    - [str] is [string]; comparison is lexicographic on code points.
    - exceptions are values of [exn], threaded through the [result] monad.
    - [dict] is [gmap], [set] is [gset]. *)

From Stdlib Require Import ZArith String Ascii List Bool Lia OrderedTypeEx.
From stdpp Require Import gmap strings list fin_maps pretty sorting.

Local Open Scope Z_scope.

(** ** Dates *)

Definition date : Type := Z.
Definition timedelta : Type := Z.

Definition is_leap (y : Z) : bool :=
  ((y mod 4 =? 0) && negb (y mod 100 =? 0)) || (y mod 400 =? 0).

Definition days_before_year (y : Z) : Z :=
  let p := y - 1 in p * 365 + p / 4 - p / 100 + p / 400.

Definition days_in_month (y m : Z) : Z :=
  if m =? 2 then (if is_leap y then 29 else 28)
  else if (m =? 4) || (m =? 6) || (m =? 9) || (m =? 11) then 30
  else 31.

Fixpoint days_before_month_aux (y : Z) (n : nat) : Z :=
  match n with
  | O => 0
  | S k => days_before_month_aux y k + days_in_month y (Z.of_nat (S k))
  end.

Definition days_before_month (y m : Z) : Z :=
  days_before_month_aux y (Z.to_nat (m - 1)).

(** [dt.date(y, m, d)], as its ordinal. *)
Definition ymd (y m d : Z) : date :=
  days_before_year y + days_before_month y m + d.

Definition _DATE_MIN : date := ymd 1 1 1.
Definition _DATE_MAX : date := ymd 3000 1 1.

(** The ordinals that are dates: [date.min] to [date.max]. *)
Definition is_date (d : Z) : Prop := ymd 1 1 1 ≤ d ≤ ymd 9999 12 31.

(** ** [Revision] *)

(** The provenance of a snapshot.  The timestamp enters the reconciliation
    only through [ny_date()], its civil date in New York, which is the field
    kept here. *)
Module Revision.
Record t : Type := mk { ny_date : date; id : string }.
End Revision.

(** ** Exceptions *)

(** [UpdateError] is the program's own error, with its message and the
    revision it was raised for; the others are the interpreter's:
    [AttributeError] and [IndexError] are raised where the source reads an
    attribute that a value does not have or indexes a list out of range,
    [OverflowError] by [dt.date] for a number beyond the range of a C
    [int], which the date converters, catching [ValueError] only, let
    out. *)
Inductive exn : Type :=
| UpdateError (msg : string) (revision : option Revision.t)
| AttributeError
| IndexError
| OverflowError.

Inductive result (A : Type) : Type :=
| Ok (a : A)
| Raise (e : exn).
Arguments Ok {A} a.
Arguments Raise {A} e.

#[global] Instance result_ret : MRet result := fun _ a => Ok a.
#[global] Instance result_bind : MBind result := fun _ _ f m =>
  match m with
  | Ok a => f a
  | Raise e => Raise e
  end.

Definition is_Ok {A} (r : result A) : Prop := ∃ a, r = Ok a.

(** ** [EffectiveDate]: a date with the approximate marker [circa] *)

Module EffectiveDate.

Record t : Type := mk { day : date; circa : bool }.

Definition from_date (d : date) (circa : bool) : t := mk d circa.

Definition to_date (self : t) : date := day self.

(** [super().__eq__(other) and self.circa == other.circa], both sides
    being effective dates. *)
Definition __eq__ (self other : t) : bool :=
  (day self =? day other) && eqb (circa self) (circa other).

Definition __ne__ (self other : t) : bool := negb (__eq__ self other).

#[global] Instance t_eq_dec : EqDecision t.
Proof. solve_decision. Defined.

End EffectiveDate.

(** An exact (sourced) and an approximate (estimated) date. *)
Definition exact_date (d : date) : EffectiveDate.t := EffectiveDate.mk d false.
Definition approx_date (d : date) : EffectiveDate.t := EffectiveDate.mk d true.

(** A value that is either a plain [dt.date] (the two sentinels) or an
    [EffectiveDate]; the elements of the tuples compared by
    [Stock.__lt__]. *)
Inductive pydate : Type :=
| PlainDate (d : date)
| EffDate (e : EffectiveDate.t).

Definition pydate_day (x : pydate) : date :=
  match x with
  | PlainDate d => d
  | EffDate e => EffectiveDate.day e
  end.

(** [x == y].  When one side is an [EffectiveDate], [EffectiveDate.__eq__]
    runs (directly, or reflected, the subclass having priority): it first
    compares the dates and, only when they agree, reads [other.circa],
    which a plain date does not have. *)
Definition pydate_eq (x y : pydate) : result bool :=
  match x, y with
  | PlainDate a, PlainDate b => Ok (a =? b)
  | EffDate a, EffDate b => Ok (EffectiveDate.__eq__ a b)
  | EffDate a, PlainDate b =>
      if EffectiveDate.day a =? b then Raise AttributeError else Ok false
  | PlainDate a, EffDate b =>
      if EffectiveDate.day b =? a then Raise AttributeError else Ok false
  end.

(** [x == y] on two optional effective dates, as the elements of the
    tuples compared by [Stock.__eq__].  [None == None] holds by identity;
    against [None], [EffectiveDate.__eq__] gets [NotImplemented] from
    [date.__eq__], which is truthy, and goes on to read [None.circa]. *)
Definition optdate_eq (x y : option EffectiveDate.t) : result bool :=
  match x, y with
  | None, None => Ok true
  | Some a, Some b => Ok (EffectiveDate.__eq__ a b)
  | _, _ => Raise AttributeError
  end.

(** ** Truthiness and [or] *)

Definition truthy (s : string) : bool := negb (String.eqb s EmptyString).

Definition str_or (a b : string) : string := if truthy a then a else b.

Definition opt_or {A} (a b : option A) : option A :=
  match a with
  | Some _ => a
  | None => b
  end.

(** ** [Stock]: one stint of membership *)

Module Stock.

Record t : Type := mk {
  date_added : option EffectiveDate.t;
  date_removed : option EffectiveDate.t;
  created_at : option date;
  symbol : string;
  name : string;
  sector : string;
  cik : string
}.

#[global] Instance t_eq_dec : EqDecision t.
Proof. solve_decision. Defined.

(** [Stock()] *)
Definition empty : t := mk None None None EmptyString EmptyString EmptyString EmptyString.

(** [replace(s, date_added=v)] and its siblings. *)
Definition with_date_added (v : option EffectiveDate.t) (s : t) : t :=
  mk v (date_removed s) (created_at s) (symbol s) (name s) (sector s) (cik s).
Definition with_date_removed (v : option EffectiveDate.t) (s : t) : t :=
  mk (date_added s) v (created_at s) (symbol s) (name s) (sector s) (cik s).
Definition with_created_at (v : option date) (s : t) : t :=
  mk (date_added s) (date_removed s) v (symbol s) (name s) (sector s) (cik s).
Definition with_symbol (v : string) (s : t) : t :=
  mk (date_added s) (date_removed s) (created_at s) v (name s) (sector s) (cik s).
Definition with_name (v : string) (s : t) : t :=
  mk (date_added s) (date_removed s) (created_at s) (symbol s) v (sector s) (cik s).
Definition with_sector (v : string) (s : t) : t :=
  mk (date_added s) (date_removed s) (created_at s) (symbol s) (name s) v (cik s).
Definition with_cik (v : string) (s : t) : t :=
  mk (date_added s) (date_removed s) (created_at s) (symbol s) (name s) (sector s) v.

(** [__eq__]: equality of the tuples
    [(symbol, cik, date_removed, date_added, sector, name)], element by
    element, stopping at the first pair that differs. *)
Definition __eq__ (self other : t) : result bool :=
  if negb (String.eqb (symbol self) (symbol other)) then Ok false
  else if negb (String.eqb (cik self) (cik other)) then Ok false
  else
    e ← optdate_eq (date_removed self) (date_removed other);
    if negb e then Ok false
    else
      e ← optdate_eq (date_added self) (date_added other);
      if negb e then Ok false
      else if negb (String.eqb (sector self) (sector other)) then Ok false
      else Ok (String.eqb (name self) (name other)).

Definition __ne__ (self other : t) : result bool :=
  b ← __eq__ self other; Ok (negb b).

(** [self.date_removed if self.date_removed else _DATE_MAX] *)
Definition key_removed (s : t) : pydate :=
  match date_removed s with
  | Some e => EffDate e
  | None => PlainDate _DATE_MAX
  end.

(** [self.date_added if self.date_added else _DATE_MIN] *)
Definition key_added (s : t) : pydate :=
  match date_added s with
  | Some e => EffDate e
  | None => PlainDate _DATE_MIN
  end.

(** [__lt__]: [<] of the tuples
    [(symbol, cik, key_removed, key_added, sector, name)]: the first pair
    of elements that is not [==] decides, by its own [<]; for dates [==]
    looks at the marker too, while [<] compares the dates alone. *)
Definition __lt__ (self other : t) : result bool :=
  if negb (String.eqb (symbol self) (symbol other))
  then Ok (String.ltb (symbol self) (symbol other))
  else if negb (String.eqb (cik self) (cik other))
  then Ok (String.ltb (cik self) (cik other))
  else
    e ← pydate_eq (key_removed self) (key_removed other);
    if negb e
    then Ok (pydate_day (key_removed self) <? pydate_day (key_removed other))
    else
      e ← pydate_eq (key_added self) (key_added other);
      if negb e
      then Ok (pydate_day (key_added self) <? pydate_day (key_added other))
      else if negb (String.eqb (sector self) (sector other))
      then Ok (String.ltb (sector self) (sector other))
      else Ok (String.ltb (name self) (name other)).

(** [complete()] *)
Definition complete (s : t) : bool :=
  truthy (symbol s) && truthy (name s) && truthy (sector s) && truthy (cik s)
  && bool_decide (is_Some (date_added s)).

End Stock.

(** ** The effective-date merge and the record merge *)

Definition _merge_effective_date (old_date latest_date : EffectiveDate.t)
  : EffectiveDate.t :=
  if negb (EffectiveDate.circa latest_date) then latest_date
  else if negb (EffectiveDate.circa old_date) then old_date
  else if EffectiveDate.day latest_date - EffectiveDate.day old_date <? 30
  then latest_date
  else old_date.

Definition _merge_stocks (old latest : Stock.t) : Stock.t :=
  let out :=
    Stock.mk
      (opt_or (Stock.date_added latest) (Stock.date_added old))
      (opt_or (Stock.date_removed latest) (Stock.date_removed old))
      (opt_or (Stock.created_at latest) (Stock.created_at old))
      (str_or (Stock.symbol latest) (Stock.symbol old))
      (str_or (Stock.name latest) (Stock.name old))
      (str_or (Stock.sector latest) (Stock.sector old))
      (str_or (Stock.cik latest) (Stock.cik old)) in
  let out :=
    match Stock.date_added old, Stock.date_added latest with
    | Some o, Some l => Stock.with_date_added (Some (_merge_effective_date o l)) out
    | _, _ => out
    end in
  let out :=
    match Stock.date_removed old, Stock.date_removed latest with
    | Some o, Some l => Stock.with_date_removed (Some (_merge_effective_date o l)) out
    | _, _ => out
    end in
  match Stock.created_at old, Stock.created_at latest with
  | Some o, Some _ => Stock.with_created_at (Some o) out
  | _, _ => out
  end.

(** ** The point-in-time query *)

Definition list_components (components_history : list Stock.t)
    (date : option date) : list Stock.t :=
  match date with
  | None =>
      List.filter (fun c => negb (bool_decide (is_Some (Stock.date_removed c))))
        components_history
  | Some date =>
      List.filter
        (fun c =>
           (from_option EffectiveDate.to_date _DATE_MIN (Stock.date_added c) <=? date)
           && (date <? from_option EffectiveDate.to_date _DATE_MAX (Stock.date_removed c))
           && (from_option id _DATE_MIN (Stock.created_at c) <=? date))
        components_history
  end.

(** ** [list.sort] and [sorted] *)

(** The sort of the standard library is stable and compares with [<] only,
    the element being placed on the left of the comparison.  It is modelled
    by the stable insertion sort with the same two properties: every
    element, from left to right, goes in front of the first element of the
    sorted prefix that it is less than.  An exception of [<] leaves the
    sort.  The two sorts agree where [<] is a strict weak order.
    [Stock.__lt__] is not one among records whose dates fall on one day
    with different markers: there the library may compare other pairs than
    this sort does, and order such records otherwise.  What is proved of a
    sorted list of records below is what every comparison sort gives: a
    permutation of its argument, in the order of symbol, cik and day of
    removal. *)
Section Sort.
Context {A : Type} (lt : A → A → result bool).

Fixpoint sort_insert (x : A) (l : list A) : result (list A) :=
  match l with
  | [] => Ok [x]
  | y :: l' =>
      b ← lt x y;
      if b : bool then Ok (x :: y :: l')
      else (r ← sort_insert x l'; Ok (y :: r))
  end.

Fixpoint sort_into (acc l : list A) : result (list A) :=
  match l with
  | [] => Ok acc
  | x :: l' => acc' ← sort_insert x acc; sort_into acc' l'
  end.

Definition sorted (l : list A) : result (list A) := sort_into [] l.
End Sort.

(** [','.join(l)] and friends *)
Fixpoint str_join (sep : string) (l : list string) : string :=
  match l with
  | [] => EmptyString
  | [x] => x
  | x :: l' => x +:+ sep +:+ str_join sep l'
  end.

(** ** [_RemovalHistory] and the Removal Resolver *)

Module _RemovalHistory.
Record t : Type := mk { date_removed : option EffectiveDate.t; symbol : string }.

Definition complete (h : t) : bool :=
  truthy (symbol h) && bool_decide (is_Some (date_removed h)).
End _RemovalHistory.

(** [diff < diff_min], where [diff_min] starts as [float('inf')] ([None]). *)
Definition lt_inf (diff : Z) (diff_min : option Z) : bool :=
  match diff_min with
  | None => true
  | Some m => diff <? m
  end.

(** [abs((d - date_ref).total_seconds())] *)
Definition abs_seconds (d date_ref : EffectiveDate.t) : Z :=
  Z.abs ((EffectiveDate.day d - EffectiveDate.day date_ref) * 86400).

(** The body of the loop of [_find_closest_removal_date], on the pair
    [(closest_date, diff_min)]. *)
Definition closest_step (date_ref : EffectiveDate.t)
    (st : option EffectiveDate.t * option Z) (history : _RemovalHistory.t)
  : option EffectiveDate.t * option Z :=
  match _RemovalHistory.date_removed history with
  | None => st
  | Some d =>
      let diff := abs_seconds d date_ref in
      if lt_inf diff (snd st) then (Some d, Some diff) else st
  end.

Definition _find_closest_removal_date (removals : list _RemovalHistory.t)
    (date_ref : EffectiveDate.t) : option EffectiveDate.t :=
  fst (fold_left (closest_step date_ref) removals (None, None)).

(** [_get_date_removed]; every path of the source returns a date. *)
Definition _get_date_removed (stock : Stock.t)
    (removals : gmap string (list _RemovalHistory.t))
    (date_stand_in : EffectiveDate.t) : EffectiveDate.t :=
  let history := removals !! Stock.symbol stock in
  let closest_date_removed :=
    match history with
    | Some (h :: hs) => _find_closest_removal_date (h :: hs) date_stand_in
    | _ => None
    end in
  match closest_date_removed, Stock.date_added stock with
  | Some c, Some a =>
      if EffectiveDate.day a <=? EffectiveDate.day c then c
      else if EffectiveDate.day date_stand_in <? EffectiveDate.day a
      then EffectiveDate.from_date (EffectiveDate.to_date a) true
      else date_stand_in
  | None, Some a =>
      if EffectiveDate.day date_stand_in <? EffectiveDate.day a
      then EffectiveDate.from_date (EffectiveDate.to_date a) true
      else date_stand_in
  | _, None => date_stand_in
  end.

(** ** The Override Applier *)

Definition _create_backfill_lookup (stocks : list Stock.t)
  : gmap string (list Stock.t) :=
  fold_left
    (fun lookup s =>
       let entries := default [] (lookup !! Stock.symbol s) in
       <[Stock.symbol s := entries ++ [s]]> lookup)
    stocks ∅.

(** ** [Changeset] *)

Module Changeset.
Record t : Type := mk {
  revision : Revision.t;
  added : list Stock.t;
  removed : list Stock.t;
  updated : list Stock.t;
  unchanged : list Stock.t;
  inactive : list Stock.t;
  inactive_updated : list Stock.t
}.
End Changeset.

(** [_find_duplicates], on the pair [(seen, dupes)]. *)
Definition _find_duplicates (items : list string) : gset string :=
  snd (fold_left
         (fun (st : gset string * gset string) item =>
            if bool_decide (item ∈ fst st) then (fst st, {[item]} ∪ snd st)
            else ({[item]} ∪ fst st, snd st))
         items (∅, ∅)).

(** The state of the first loop of [_diff_lists]. *)
Record history_split : Type := mk_split {
  split_old : list Stock.t;
  split_inactive : list Stock.t;
  split_inactive_updated : list Stock.t;
  split_seen : gset string
}.

(** The four lists filled by the merge-join of [_diff_lists]. *)
Record join_lists : Type := mk_join {
  join_added : list Stock.t;
  join_removed : list Stock.t;
  join_updated : list Stock.t;
  join_unchanged : list Stock.t
}.

Definition push_added (s : Stock.t) (j : join_lists) : join_lists :=
  mk_join (s :: join_added j) (join_removed j) (join_updated j) (join_unchanged j).
Definition push_removed (s : Stock.t) (j : join_lists) : join_lists :=
  mk_join (join_added j) (s :: join_removed j) (join_updated j) (join_unchanged j).
Definition push_updated (s : Stock.t) (j : join_lists) : join_lists :=
  mk_join (join_added j) (join_removed j) (s :: join_updated j) (join_unchanged j).
Definition push_unchanged (s : Stock.t) (j : join_lists) : join_lists :=
  mk_join (join_added j) (join_removed j) (join_updated j) (s :: join_unchanged j).

Section Reconciliation.

(** The curated override table, read once from [backfill.csv], which is
    data and not part of the program: a parameter. *)
Variable _BACKFILLS : gmap string (list Stock.t).

Definition backfill_matches (stock b : Stock.t) : bool :=
  match Stock.date_added b, Stock.date_removed b, Stock.date_added stock with
  | Some ba, Some br, Some sa =>
      (EffectiveDate.day ba <=? EffectiveDate.day sa)
      && (EffectiveDate.day sa <? EffectiveDate.day br)
  | _, _, _ => false
  end.

Definition _backfill (stock : Stock.t) (omit_removal : bool) : Stock.t :=
  match List.find (backfill_matches stock)
          (default [] (_BACKFILLS !! Stock.symbol stock)) with
  | Some b =>
      let merged := _merge_stocks stock b in
      if omit_removal then Stock.with_date_removed None merged else merged
  | None => stock
  end.

(** *** The Snapshot Differ *)

(** One turn of the loop over [reversed(components_history)]. *)
Definition split_step (removals : gmap string (list _RemovalHistory.t))
    (st : history_split) (existing : Stock.t) : history_split :=
  let st' :=
    match Stock.date_removed existing with
    | None =>
        mk_split (split_old st ++ [existing]) (split_inactive st)
          (split_inactive_updated st) (split_seen st)
    | Some date_removed =>
        let updated_date_removed :=
          _get_date_removed existing removals date_removed in
        if negb (bool_decide (Stock.symbol existing ∈ split_seen st))
           && EffectiveDate.__ne__ date_removed updated_date_removed
        then
          mk_split (split_old st) (split_inactive st)
            (split_inactive_updated st
               ++ [Stock.with_date_removed (Some updated_date_removed) existing])
            (split_seen st)
        else
          mk_split (split_old st) (split_inactive st ++ [existing])
            (split_inactive_updated st) (split_seen st)
    end in
  mk_split (split_old st') (split_inactive st') (split_inactive_updated st')
    ({[Stock.symbol existing]} ∪ split_seen st').

(** The first loop and the three [reverse()] that follow it. *)
Definition split_history (removals : gmap string (list _RemovalHistory.t))
    (components_history : list Stock.t) : history_split :=
  let st := fold_left (split_step removals) (rev components_history)
              (mk_split [] [] [] ∅) in
  mk_split (rev (split_old st)) (rev (split_inactive st))
    (rev (split_inactive_updated st)) (split_seen st).

Definition make_removed (removals : gmap string (list _RemovalHistory.t))
    (date_stand_in : EffectiveDate.t) (stock_old : Stock.t) : Stock.t :=
  let stock_removed :=
    Stock.with_date_removed
      (Some (_get_date_removed stock_old removals date_stand_in)) stock_old in
  _backfill stock_removed false.

Definition make_added (date : date) (date_stand_in : EffectiveDate.t)
    (stock_latest : Stock.t) : Stock.t :=
  let stock_added :=
    Stock.with_created_at (Some date)
      (Stock.with_date_added
         (opt_or (Stock.date_added stock_latest) (Some date_stand_in))
         stock_latest) in
  _backfill stock_added true.

(** The three [while] loops of the merge-join: the first runs while both
    lists have elements, the other two drain what is left. *)
Fixpoint join (removals : gmap string (list _RemovalHistory.t))
    (date : date) (date_stand_in : EffectiveDate.t)
    (old : list Stock.t) : list Stock.t → result join_lists :=
  fix join_latest (latest : list Stock.t) : result join_lists :=
    match old, latest with
    | [], [] => Ok (mk_join [] [] [] [])
    | stock_old :: old', [] =>
        j ← join removals date date_stand_in old' [];
        Ok (push_removed (make_removed removals date_stand_in stock_old) j)
    | [], stock_latest :: latest' =>
        j ← join_latest latest';
        Ok (push_added (make_added date date_stand_in stock_latest) j)
    | stock_old :: old', stock_latest :: latest' =>
        if String.ltb (Stock.symbol stock_old) (Stock.symbol stock_latest) then
          j ← join removals date date_stand_in old' latest;
          Ok (push_removed (make_removed removals date_stand_in stock_old) j)
        else if String.ltb (Stock.symbol stock_latest) (Stock.symbol stock_old) then
          j ← join_latest latest';
          Ok (push_added (make_added date date_stand_in stock_latest) j)
        else
          let stock_merged := _merge_stocks stock_old stock_latest in
          changed ← Stock.__ne__ stock_merged stock_old;
          j ← join removals date date_stand_in old' latest';
          Ok (if changed : bool then push_updated stock_merged j
              else push_unchanged stock_old j)
    end.

(** The message of a duplicate joins the symbols in the order in which
    the set is iterated, which Python does not fix; the order of
    [elements] stands for it. *)
Definition _diff_lists (components_history latest : list Stock.t)
    (revision : Revision.t) (removals : gmap string (list _RemovalHistory.t))
  : result Changeset.t :=
  let sp := split_history removals components_history in
  let old := split_old sp in
  let old_dupes := _find_duplicates (Stock.symbol <$> old) in
  let latest_dupes := _find_duplicates (Stock.symbol <$> latest) in
  if negb (bool_decide (old_dupes = ∅)) then
    Raise (UpdateError ("Duplicate symbol(s) in old stocks list: "
                          +:+ str_join "," (elements old_dupes))
             (Some revision))
  else if negb (bool_decide (latest_dupes = ∅)) then
    Raise (UpdateError ("Duplicate symbol(s) in latest stocks list: "
                          +:+ str_join "," (elements latest_dupes))
             (Some revision))
  else
    let date := Revision.ny_date revision in
    let date_stand_in := EffectiveDate.from_date date true in
    j ← join removals date date_stand_in old latest;
    Ok (Changeset.mk revision (join_added j) (join_removed j) (join_updated j)
          (join_unchanged j) (split_inactive sp) (split_inactive_updated sp)).

End Reconciliation.

(** ** The History Rebuilder *)

(** [added_map]: the last record of [added] for each symbol. *)
Definition make_added_map (added : list Stock.t) : gmap string Stock.t :=
  fold_left (fun m s => <[Stock.symbol s := s]> m) added ∅.

(** The test of the coalescing loop, [added] being [added_map.get(...)]
    and already known not to be [None]. *)
Definition coalesces (added_exclusion : gset string) (existing added : Stock.t)
  : bool :=
  negb (bool_decide (Stock.symbol added ∈ added_exclusion))
  && match Stock.date_removed existing, Stock.date_added added with
     | Some r, Some a => EffectiveDate.day a - EffectiveDate.day r <? 30
     | _, _ => false
     end.

(** One turn of the coalescing loop, on the pair
    [(added_exclusion, merged_components_prev)]. *)
Definition coalesce_step (added_map : gmap string Stock.t)
    (st : gset string * list Stock.t) (existing : Stock.t)
  : gset string * list Stock.t :=
  match added_map !! Stock.symbol existing with
  | Some added =>
      if coalesces (fst st) existing added then
        let merged :=
          Stock.with_date_removed None (_merge_stocks existing added) in
        ({[Stock.symbol added]} ∪ fst st, snd st ++ [merged])
      else (fst st, snd st ++ [existing])
  | None => (fst st, snd st ++ [existing])
  end.

(** The filter that builds [removed_new]. *)
Definition keeps_removed (revision : Revision.t) (s : Stock.t) : bool :=
  match Stock.date_removed s, Stock.date_added s with
  | Some r, Some a => 14 <? EffectiveDate.day r - EffectiveDate.day a
  | _, _ => false
  end
  && match Stock.created_at s with
     | Some c => 2 <? Revision.ny_date revision - c
     | None => false
     end.

Definition _create_components_history (changeset : Changeset.t)
  : result (list Stock.t) :=
  let added_map := make_added_map (Changeset.added changeset) in
  previous ← sorted Stock.__lt__
    (Changeset.inactive changeset ++ Changeset.inactive_updated changeset);
  let st := fold_left (coalesce_step added_map) (rev previous) (∅, []) in
  let added_exclusion := fst st in
  let merged_components_prev := snd st in
  let added_new :=
    List.filter
      (fun s => negb (bool_decide (Stock.symbol s ∈ added_exclusion)))
      (Changeset.added changeset) in
  let removed_new :=
    List.filter (keeps_removed (Changeset.revision changeset))
      (Changeset.removed changeset) in
  sorted Stock.__lt__
    (added_new ++ removed_new ++ Changeset.updated changeset
     ++ Changeset.unchanged changeset ++ merged_components_prev).

(** ** The change summary and the driver *)

(** [sorted] on strings, whose [<] is total and never raises. *)
Fixpoint insert_str (x : string) (l : list string) : list string :=
  match l with
  | [] => [x]
  | y :: l' => if String.ltb x y then x :: y :: l' else y :: insert_str x l'
  end.

Definition sorted_str (l : list string) : list string :=
  fold_left (fun acc x => insert_str x acc) l [].

(** The civil date of an ordinal, as [(year, month, day)]. *)
Definition ord2ymd (n : date) : Z * Z * Z :=
  let n := n - 1 in
  let n400 := n / 146097 in
  let n := n mod 146097 in
  let n100 := n / 36524 in
  let n := n mod 36524 in
  let n4 := n / 1461 in
  let n := n mod 1461 in
  let n1 := n / 365 in
  let n := n mod 365 in
  let year := n400 * 400 + 1 + n100 * 100 + n4 * 4 + n1 in
  if (n1 =? 4) || (n100 =? 4) then (year - 1, 12, 31)
  else
    let month := (n + 50) / 32 in
    let month := if n <? days_before_month year month then month - 1 else month in
    (year, month, n - days_before_month year month + 1).

(** A number in decimal, padded with zeros on the left to [width] digits. *)
Definition zero_padded (width : nat) (n : Z) : string :=
  let digits := pretty (Z.to_N n) in
  String.concat EmptyString
    (replicate (width - String.length digits) "0") +:+ digits.

(** [date.strftime('%Y-%m-%d')], for a year of four digits; whether an
    earlier year is padded to four digits, as here, is left to the C
    library. *)
Definition strftime (d : date) : string :=
  let '(y, m, dd) := ord2ymd d in
  zero_padded 4 y +:+ "-" +:+ zero_padded 2 m +:+ "-" +:+ zero_padded 2 dd.

Definition Revision__repr__ (r : Revision.t) : string :=
  strftime (Revision.ny_date r) +:+ " (" +:+ Revision.id r +:+ ")".

Definition nonempty {A} (l : list A) : bool :=
  match l with
  | [] => false
  | _ :: _ => true
  end.

Definition summary (self : Changeset.t) : string :=
  let added := Stock.symbol <$> Changeset.added self in
  let removed := Stock.symbol <$> Changeset.removed self in
  let updated :=
    Stock.symbol <$> (Changeset.updated self ++ Changeset.inactive_updated self) in
  if nonempty added || nonempty removed || nonempty updated then
    let added_msg := if nonempty added then " +" +:+ str_join "," added else EmptyString in
    let removed_msg :=
      if nonempty removed then " -" +:+ str_join "," removed else EmptyString in
    let updated_msg :=
      if nonempty updated then " *" +:+ str_join "," (sorted_str updated) else EmptyString in
    Revision__repr__ (Changeset.revision self)
      +:+ added_msg +:+ removed_msg +:+ updated_msg
  else EmptyString.

(** What the driver keeps between two snapshots: the ledger in memory,
    the lines of the audit log and the ledger last written to its file. *)
Record driver_state : Type := mk_driver {
  components_history : list Stock.t;
  changelog : list string;
  components_history_file : list Stock.t
}.

(** The driver's handling of one changeset (the lines after the
    [try] of [_update_components_history_file]). *)
Definition apply_changeset (st : driver_state) (changeset : Changeset.t)
  : result driver_state :=
  let message := summary changeset in
  if truthy message then
    components_history' ← _create_components_history changeset;
    Ok (mk_driver components_history' (changelog st ++ [message])
          components_history')
  else Ok st.


(** ** Parsing a component table *)

Inductive _StockField : Type :=
| SYMBOL | CIK | NAME | SECTOR | DATE_ADDED | DATE_REMOVED | CREATED_AT.

#[global] Instance _StockField_eq_dec : EqDecision _StockField.
Proof. solve_decision. Defined.

(** The value of a member of the [StrEnum]. *)
Definition _StockField_value (f : _StockField) : string :=
  match f with
  | SYMBOL => "symbol"
  | CIK => "cik"
  | NAME => "name"
  | SECTOR => "sector"
  | DATE_ADDED => "date_added"
  | DATE_REMOVED => "date_removed"
  | CREATED_AT => "created_at"
  end.

Definition _reverse_dict {T : Type} (mapping : list (T * list string))
  : gmap string T :=
  fold_left
    (fun out '(key, matches) =>
       fold_left (fun out text => <[text := key]> out) matches out)
    mapping ∅.

Definition _MATCH_STOCK_FIELD : gmap string _StockField :=
  _reverse_dict [
    (SYMBOL, ["symbol"; "ticker"; "ticker_symbol"]);
    (NAME, ["security"; "company"; "name"; "company_name"]);
    (SECTOR, ["gics_sector"; "sector"; "industry"]);
    (CIK, ["cik"; "cik_number"; "central_index_key"]);
    (DATE_ADDED, ["date_added"; "added"; "date_first_added"]);
    (DATE_REMOVED, ["date_removed"; "removed"]);
    (CREATED_AT, ["created_at"])
  ]%string.

Definition _SYMBOL_ALIAS : gmap string string :=
  _reverse_dict [
    ("BAX", ["BAX.B"]);
    ("BF.B", ["BF"; "BF-A"; "BF-B"; "BF/B"; "BF_B"; "BFB"]);
    ("BRK.B", ["BRK"; "BRK.A"; "BRK-A"; "BRK-B"; "BRK/A"; "BRK/B"; "BRK_A";
               "BRK_B"; "BRKB"]);
    ("NWSA", ["NWS.A"]);
    ("UA.C", ["UA-C"; "UA/C"; "UA_C"]);
    ("VIAB", ["VIA.B"]);
    ("SPG", ["SPG.PJ"]);
    ("WPX", ["WPX.WI"; "WPX-WI"])
  ]%string.

(** [s.split(sep)] for a separator of one character. *)
Fixpoint str_split (sep : ascii) (s : string) : list string :=
  match s with
  | EmptyString => [EmptyString]
  | String c s' =>
      if Ascii.eqb c sep then EmptyString :: str_split sep s'
      else match str_split sep s' with
           | [] => [String c EmptyString]
           | p :: ps => String c p :: ps
           end
  end.

(** The characters [str.strip()] removes, among the code points below 256. *)
Definition is_space (c : ascii) : bool :=
  let n := N_of_ascii c in
  ((9 <=? n) && (n <=? 13) || (28 <=? n) && (n <=? 32)
   || (n =? 133) || (n =? 160))%N.

Fixpoint lstrip (s : string) : string :=
  match s with
  | String c s' => if is_space c then lstrip s' else s
  | EmptyString => EmptyString
  end.

Fixpoint rstrip (s : string) : string :=
  match s with
  | EmptyString => EmptyString
  | String c s' =>
      match rstrip s' with
      | EmptyString => if is_space c then EmptyString else String c EmptyString
      | r => String c r
      end
  end.

Definition strip (s : string) : string := rstrip (lstrip s).

(** One character of [_RE_SYMBOL]: a capital letter or one of [-./^_]. *)
Definition symbol_char (c : ascii) : bool :=
  let n := N_of_ascii c in
  ((65 <=? n) && (n <=? 90) || (n =? 45) || (n =? 46) || (n =? 47)
   || (n =? 94) || (n =? 95))%N.

(** [re.match(_RE_SYMBOL, s)]: one to ten such characters and nothing else. *)
Definition matches_RE_SYMBOL (s : string) : bool :=
  let cs := list_ascii_of_string s in
  (1 <=? length cs)%nat && (length cs <=? 10)%nat && forallb symbol_char cs.

Definition _to_symbol (s : string) : string :=
  let parts := str_split ":" s in
  let s := match parts with
           | _ :: p1 :: _ => p1
           | _ => s
           end in
  let s := strip s in
  if matches_RE_SYMBOL s then default s (_SYMBOL_ALIAS !! s) else EmptyString.

Section Parsers.

(** The remaining converters of cell text.  Those of the token, the name,
    the sector and the cik are total functions of the text, built from
    [str] methods and [int()] under [except ValueError]; the two of dates
    return a date or [None], or let out what [dt.date] raises beside
    [ValueError].  Nothing below depends on what they return. *)
Variable _to_token : string → string.
Variable _collapse_whitespace : string → string.
Variable _to_sector : string → string.
Variable _to_cik : string → string.
Variable _to_effective_date : string → result (option EffectiveDate.t).
Variable _to_date : string → result (option date).

(** The [match] on the heading of one cell. *)
Definition set_cell (heading : option _StockField) (value : string)
    (stock : Stock.t) : result Stock.t :=
  match heading with
  | Some SYMBOL => Ok (Stock.with_symbol (_to_symbol value) stock)
  | Some NAME => Ok (Stock.with_name (_collapse_whitespace value) stock)
  | Some SECTOR => Ok (Stock.with_sector (_to_sector value) stock)
  | Some CIK => Ok (Stock.with_cik (_to_cik value) stock)
  | Some DATE_ADDED =>
      d ← _to_effective_date value; Ok (Stock.with_date_added d stock)
  | Some DATE_REMOVED =>
      d ← _to_effective_date value; Ok (Stock.with_date_removed d stock)
  | Some CREATED_AT =>
      d ← _to_date value; Ok (Stock.with_created_at d stock)
  | None => Ok stock
  end.

(** The loop over [enumerate(row)], from index [idx] on;
    [field_headings[idx]] raises past the end of the headings. *)
Fixpoint row_to_stock (field_headings : list (option _StockField))
    (idx : nat) (row : list string) (stock : Stock.t) : result Stock.t :=
  match row with
  | [] => Ok stock
  | value :: row' =>
      match field_headings !! idx with
      | Some heading =>
          stock' ← set_cell heading value stock;
          row_to_stock field_headings (S idx) row' stock'
      | None => Raise IndexError
      end
  end.

(** The loop over the rows, on the pair [(stocks, row_count)]. *)
Fixpoint rows_to_stocks (field_headings : list (option _StockField))
    (rows : list (list string)) (stocks : list Stock.t) (row_count : nat)
  : result (list Stock.t * nat) :=
  match rows with
  | [] => Ok (stocks, row_count)
  | row :: rows' =>
      stock ← row_to_stock field_headings 0 row Stock.empty;
      let stocks := if truthy (Stock.symbol stock) then stocks ++ [stock]
                    else stocks in
      rows_to_stocks field_headings rows' stocks (S row_count)
  end.

Definition required_fields : gset string :=
  {[ _StockField_value SYMBOL; _StockField_value NAME; _StockField_value SECTOR ]}.

Definition found_fields (field_headings : list (option _StockField))
  : gset string :=
  list_to_set (_StockField_value <$> omap id field_headings).

(** [_csv_to_stocks], on the rows that [csv.reader] yields for the text,
    taken to yield them all: the [csv.Error] of the reader, for a field
    beyond its size limit, is outside this model. *)
Definition _csv_to_stocks (rows : list (list string))
    (revision : option Revision.t) : result (list Stock.t) :=
  match rows with
  | [] => Ok []
  | header_row :: rows' =>
      let field_headings :=
        (fun heading => _MATCH_STOCK_FIELD !! _to_token heading) <$> header_row in
      let found := found_fields field_headings in
      if negb (bool_decide (found ∩ required_fields = required_fields)) then
        Raise (UpdateError
                 ("Symbol, name or sector headings missing. Found: "
                    +:+ str_join "," (sorted_str (elements found)))
                 revision)
      else
        '(stocks, row_count) ← rows_to_stocks field_headings rows' [] 0%nat;
        if (length stocks <? row_count)%nat then
          Raise (UpdateError
                   ("Found " +:+ pretty (row_count - length stocks)%nat
                      +:+ " rows without symbols")
                   revision)
        else sorted Stock.__lt__ stocks
  end.

End Parsers.

(** ** The converters of cell text *)

(** The pieces of [s] between two white-space characters, empty ones
    included. *)
Fixpoint whitespace_pieces (s : string) : list string :=
  match s with
  | EmptyString => [EmptyString]
  | String c s' =>
      if is_space c then EmptyString :: whitespace_pieces s'
      else match whitespace_pieces s' with
           | [] => [String c EmptyString]
           | p :: ps => String c p :: ps
           end
  end.

(** [s.split()]: the maximal runs of characters that are not white
    space. *)
Definition str_words (s : string) : list string :=
  List.filter truthy (whitespace_pieces s).

(** [s.replace(old, new)] for an [old] of one character. *)
Fixpoint str_replace (old : ascii) (new : string) (s : string) : string :=
  match s with
  | EmptyString => EmptyString
  | String c s' =>
      (if Ascii.eqb c old then new else String c EmptyString)
      +:+ str_replace old new s'
  end.

(** [str.lower()] on one character, among the code points below 256: the
    capital letters of ASCII and of Latin-1. *)
Definition lower_char (c : ascii) : ascii :=
  let n := N_of_ascii c in
  if ((65 <=? n) && (n <=? 90)
      || (192 <=? n) && (n <=? 222) && negb (n =? 215))%N
  then ascii_of_N (n + 32)
  else c.

Fixpoint str_lower (s : string) : string :=
  match s with
  | EmptyString => EmptyString
  | String c s' => String (lower_char c) (str_lower s')
  end.

Definition _collapse_whitespace (s : string) : string :=
  str_join " " (str_words s).

Definition _to_token (s : string) : string :=
  str_lower
    (str_join "_" (str_words (str_replace "," EmptyString (str_replace "-" " " s)))).

Inductive _Sector : Type :=
| ENERGY | MATERIALS | INDUSTRIALS | CONSUMER_DISCRETIONARY | CONSUMER_STAPLES
| HEALTH_CARE | FINANCIALS | INFORMATION_TECHNOLOGY | COMMUNICATION_SERVICES
| UTILITIES | REAL_ESTATE.

Definition _Sector_value (sector : _Sector) : string :=
  match sector with
  | ENERGY => "energy"
  | MATERIALS => "materials"
  | INDUSTRIALS => "industrials"
  | CONSUMER_DISCRETIONARY => "consumer_discretionary"
  | CONSUMER_STAPLES => "consumer_staples"
  | HEALTH_CARE => "health_care"
  | FINANCIALS => "financials"
  | INFORMATION_TECHNOLOGY => "information_technology"
  | COMMUNICATION_SERVICES => "communication_services"
  | UTILITIES => "utilities"
  | REAL_ESTATE => "real_estate"
  end.

Definition _MATCH_SECTOR : gmap string _Sector :=
  _reverse_dict [
    (ENERGY, ["energy"; "oil_&_gas_storage_&_transportation"]);
    (MATERIALS, ["materials"; "diversified_metals_&_mining"; "paper_packaging"]);
    (INDUSTRIALS, ["industrials"; "building_products";
                   "data_processing_&_outsourced_services"]);
    (CONSUMER_DISCRETIONARY, ["consumer_discretionary"; "department_stores";
                              "hotels_resorts_&_cruise_lines"]);
    (CONSUMER_STAPLES, ["consumer_staples"; "general_merchandise_stores"]);
    (HEALTH_CARE, ["health_care"; "biotechnology"; "health_care_equipment";
                   "health_care_facilities"; "health_care_services";
                   "health_care_supplies"]);
    (FINANCIALS, ["financials"; "asset_management_&_custody_banks";
                  "regional_banks"]);
    (INFORMATION_TECHNOLOGY, ["information_technology";
                              "communications_equipment"; "computer_hardware";
                              "electronic_equipment_manufacturers";
                              "electronic_manufacturing_services";
                              "semiconductors"]);
    (COMMUNICATION_SERVICES, ["broadcasting_&_cable_tv";
                              "communication_services"; "publishing";
                              "telecommunications_services";
                              "telecommunication_services";
                              "wireless_telecommunication_services"]);
    (UTILITIES, ["utilities"; "independent_power_producers_&_energy_traders";
                 "multi_utilities"]);
    (REAL_ESTATE, ["real_estate"; "real_estate_management_&_development";
                   "residential_reits"])
  ]%string.

(** A member of the [StrEnum] is its value, which is not empty: the test
    [if sector] fails for [None] only. *)
Definition _to_sector (s : string) : string :=
  match _MATCH_SECTOR !! _to_token s with
  | Some sector => _Sector_value sector
  | None => EmptyString
  end.

(** *** The central index key *)

Definition is_digit (c : ascii) : bool :=
  let n := N_of_ascii c in ((48 <=? n) && (n <=? 57))%N.

Definition digit_value (c : ascii) : Z := Z.of_N (N_of_ascii c) - 48.

(** The digits of a decimal literal, after the sign: digits, with single
    underscores between two of them.  [after_digit] tells whether the
    previous character is a digit; the result is the value and the number
    of digits. *)
Fixpoint int_digits (s : string) (after_digit : bool) (acc : Z) (digits : nat)
  : option (Z * nat) :=
  match s with
  | EmptyString => if after_digit then Some (acc, digits) else None
  | String c s' =>
      if Ascii.eqb c "_" then
        if after_digit then int_digits s' false acc digits else None
      else if is_digit c then
        int_digits s' true (10 * acc + digit_value c) (S digits)
      else None
  end.

(** [int(s)] for a text without white space, [None] standing for
    [ValueError]: an optional sign and the digits.  A literal of more than
    4300 digits is refused, which is the limit of the interpreter unless
    it is started with another one. *)
Definition int (s : string) : option Z :=
  let '(sign, body) :=
    match s with
    | String c body =>
        if Ascii.eqb c "+" then (1, body)
        else if Ascii.eqb c "-" then (-1, body)
        else (1, s)
    | EmptyString => (1, s)
    end in
  match int_digits body false 0 0 with
  | Some (value, digits) =>
      if (4300 <? digits)%nat then None else Some (sign * value)
  | None => None
  end.

Fixpoint zeros (n : nat) : string :=
  match n with
  | O => EmptyString
  | S n' => String "0" (zeros n')
  end.

(** [s.zfill(width)]: the zeros go after the sign. *)
Definition zfill (width : nat) (s : string) : string :=
  let fill := zeros (width - String.length s) in
  match s with
  | String c rest =>
      if Ascii.eqb c "+" || Ascii.eqb c "-" then String c (fill +:+ rest)
      else fill +:+ s
  | EmptyString => fill
  end.

(** [''.join(s.split())] leaves no white space in the text, so that
    [int] finds none to skip at its ends. *)
Definition _to_cik (s : string) : string :=
  let s := str_join EmptyString (str_words s) in
  match int s with
  | None => EmptyString
  | Some num =>
      if (0 <? num) && (num <? 10000000000) then zfill 10 s else EmptyString
  end.

(** [s.endswith('*')] *)
Fixpoint endswith_star (s : string) : bool :=
  match s with
  | EmptyString => false
  | String c EmptyString => Ascii.eqb c "*"
  | String _ s' => endswith_star s'
  end.

(** [s[:-1]] *)
Fixpoint str_init (s : string) : string :=
  match s with
  | EmptyString => EmptyString
  | String _ EmptyString => EmptyString
  | String c s' => String c (str_init s')
  end.

Section DateCells.

(** [_to_date] reads a date in one of two notations with [int()] and the
    constructor of [dt.date], whose [ValueError] it turns into [None] and
    whose [OverflowError] it lets out; it is a parameter here. *)
Variable _to_date : string → result (option date).

(** A [dt.date] is always truthy: [if not date] tests for [None]. *)
Definition _to_effective_date (s : string)
  : result (option EffectiveDate.t) :=
  let circa := endswith_star s in
  let s := if circa then str_init s else s in
  date ← _to_date s;
  Ok (match date with
      | None => None
      | Some date => Some (EffectiveDate.from_date date circa)
      end).

End DateCells.

(** ** Writing the ledger *)

(** [EffectiveDate.__str__] *)
Definition EffectiveDate__str__ (self : EffectiveDate.t) : string :=
  strftime (EffectiveDate.day self)
  +:+ (if EffectiveDate.circa self then "*" else EmptyString).

(** [str(d)] for a [dt.date]: its ISO 8601 form, the text of
    [strftime('%Y-%m-%d')]. *)
Definition date__str__ (d : date) : string := strftime d.

(** [Stock.to_dict]: the keys and values in insertion order. *)
Definition Stock_to_dict (self : Stock.t) (include_dates : bool)
  : list (string * string) :=
  let base := [("symbol", Stock.symbol self); ("cik", Stock.cik self);
               ("name", Stock.name self); ("sector", Stock.sector self)]%string in
  if include_dates then
    base ++ [("date_added",
              from_option EffectiveDate__str__ EmptyString (Stock.date_added self));
             ("date_removed",
              from_option EffectiveDate__str__ EmptyString (Stock.date_removed self));
             ("created_at",
              from_option date__str__ EmptyString (Stock.created_at self))]%string
  else base.

(** [Stock.to_list] *)
Definition Stock_to_list (self : Stock.t) (include_dates : bool) : list string :=
  snd <$> Stock_to_dict self include_dates.

(** The members of [_StockField], in definition order. *)
Definition _StockField_members : list _StockField :=
  [SYMBOL; CIK; NAME; SECTOR; DATE_ADDED; DATE_REMOVED; CREATED_AT].

(** [write_replace_csv]: the rows handed to [csv.writer], the header
    first. *)
Definition write_replace_csv (stocks : list Stock.t) (include_dates : bool)
  : list (list string) :=
  let date_fields := [DATE_ADDED; DATE_REMOVED; CREATED_AT] in
  (_StockField_value
     <$> List.filter
           (fun f => include_dates || negb (bool_decide (f ∈ date_fields)))
           _StockField_members)
  :: ((fun stock => Stock_to_list stock include_dates) <$> stocks).

(** [write_components_history] *)
Definition write_components_history (components_history : list Stock.t)
  : list (list string) :=
  write_replace_csv components_history true.

(** ** The table of removal events *)

(** [_RemovalHistory.__lt__]: reverse chronological order.  [>] on dates
    compares the days and raises nothing. *)
Definition _RemovalHistory__lt__ (self other : _RemovalHistory.t) : bool :=
  from_option EffectiveDate.day _DATE_MAX (_RemovalHistory.date_removed other)
  <? from_option EffectiveDate.day _DATE_MAX (_RemovalHistory.date_removed self).

Module _RemovalHistoryField.
Inductive t : Type := SYMBOL | DATE_REMOVED.

Definition value (f : t) : string :=
  match f with
  | SYMBOL => "symbol"
  | DATE_REMOVED => "date_removed"
  end.
End _RemovalHistoryField.

Definition _MATCH_REMOVAL_HISTORY_FIELD : gmap string _RemovalHistoryField.t :=
  _reverse_dict [
    (_RemovalHistoryField.SYMBOL, ["removed_ticker"; "removed_symbol"]);
    (_RemovalHistoryField.DATE_REMOVED, ["date"])
  ]%string.

(** *** [heapq.heappush] *)

Section Heap.
Context {A : Type} (lt : A → A → bool).

(** [heapq._siftdown(heap, 0, pos)], [newitem] being the item to place at
    [pos]: the item moves up while it is less than its parent, at
    [(pos - 1) >> 1].  Each trip of the loop lowers [pos], so that [fuel],
    which starts at [pos], does not run out before [pos] reaches 0; the
    positions written are within the list. *)
Fixpoint _siftdown (fuel : nat) (heap : list A) (newitem : A) (pos : nat)
  : list A :=
  match fuel, pos with
  | S fuel', S pos' =>
      let parentpos := Nat.div2 pos' in
      match heap !! parentpos with
      | Some parent =>
          if lt newitem parent
          then _siftdown fuel' (<[pos := parent]> heap) newitem parentpos
          else <[pos := newitem]> heap
      | None => <[pos := newitem]> heap
      end
  | _, _ => <[pos := newitem]> heap
  end.

(** [heap.append(item); _siftdown(heap, 0, len(heap) - 1)] *)
Definition heappush (heap : list A) (item : A) : list A :=
  _siftdown (length heap) (heap ++ [item]) item (length heap).

End Heap.

Section RemovalTable.

Variable _to_date : string → result (option date).

(** The heading of a column, from the cells of the two header rows. *)
Definition removal_heading (level_one level_two : string)
  : option _RemovalHistoryField.t :=
  let heading_one := _collapse_whitespace level_one in
  let heading_two := _collapse_whitespace level_two in
  let heading :=
    _to_token (if String.eqb heading_one heading_two then heading_one
               else heading_one +:+ " " +:+ heading_two) in
  _MATCH_REMOVAL_HISTORY_FIELD !! heading.

(** The [match] on the heading of one cell. *)
Definition set_removal_cell (heading : option _RemovalHistoryField.t)
    (value : string) (entry : _RemovalHistory.t) : result _RemovalHistory.t :=
  match heading with
  | Some _RemovalHistoryField.SYMBOL =>
      Ok (_RemovalHistory.mk (_RemovalHistory.date_removed entry)
            (_to_symbol value))
  | Some _RemovalHistoryField.DATE_REMOVED =>
      d ← _to_effective_date _to_date value;
      Ok (_RemovalHistory.mk d (_RemovalHistory.symbol entry))
  | None => Ok entry
  end.

(** The loop over [enumerate(row)], from index [idx] on. *)
Fixpoint row_to_removal (field_headings : list (option _RemovalHistoryField.t))
    (idx : nat) (row : list string) (entry : _RemovalHistory.t)
  : result _RemovalHistory.t :=
  match row with
  | [] => Ok entry
  | value :: row' =>
      match field_headings !! idx with
      | Some heading =>
          entry' ← set_removal_cell heading value entry;
          row_to_removal field_headings (S idx) row' entry'
      | None => Raise IndexError
      end
  end.

(** The end of the loop body: a complete entry is pushed on the heap of
    its symbol. *)
Definition push_removal (history_lookup : gmap string (list _RemovalHistory.t))
    (entry : _RemovalHistory.t) : gmap string (list _RemovalHistory.t) :=
  if _RemovalHistory.complete entry then
    let dates_removed :=
      default [] (history_lookup !! _RemovalHistory.symbol entry) in
    <[_RemovalHistory.symbol entry :=
        heappush _RemovalHistory__lt__ dates_removed entry]> history_lookup
  else history_lookup.

(** The loop over [table.rows[2:]]. *)
Fixpoint rows_to_removals (field_headings : list (option _RemovalHistoryField.t))
    (rows : list (list string))
    (history_lookup : gmap string (list _RemovalHistory.t))
  : result (gmap string (list _RemovalHistory.t)) :=
  match rows with
  | [] => Ok history_lookup
  | row :: rows' =>
      entry ← row_to_removal field_headings 0 row (_RemovalHistory.mk None EmptyString);
      rows_to_removals field_headings rows' (push_removal history_lookup entry)
  end.

Definition required_removal_fields : gset string :=
  {[ _RemovalHistoryField.value _RemovalHistoryField.SYMBOL;
     _RemovalHistoryField.value _RemovalHistoryField.DATE_REMOVED ]}.

(** [_table_to_removal_history], on the texts of the cells of the rows of
    the table. *)
Definition _table_to_removal_history (rows : list (list string))
    (revision : Revision.t) : result (gmap string (list _RemovalHistory.t)) :=
  match rows with
  | level_one :: level_two :: rows' =>
      let field_headings := zip_with removal_heading level_one level_two in
      let found : gset string :=
        list_to_set (_RemovalHistoryField.value <$> omap id field_headings) in
      if negb (bool_decide (found ∩ required_removal_fields
                            = required_removal_fields)) then
        Raise (UpdateError
                 ("Symbol or removal date headings missing. Found: "
                    +:+ str_join "," (sorted_str (elements found)))
                 (Some revision))
      else rows_to_removals field_headings rows' ∅
  | _ => Ok ∅
  end.

End RemovalTable.

(** ** One snapshot, from the tables to the log *)

Section Driver.

Variable _BACKFILLS : gmap string (list Stock.t).
Variable _to_cik : string → string.
Variable _to_date : string → result (option date).

(** [_update_components_history], on what [_fetch_tables] returns: the
    rows of the components table as [csv.reader] yields them, the texts of
    the cells of the table of removal events, and the revision. *)
Definition _update_components_history (components_history : list Stock.t)
    (components_table removals_table : list (list string))
    (revision : Revision.t) : result Changeset.t :=
  components_latest ←
    _csv_to_stocks _to_token _collapse_whitespace _to_sector _to_cik
      (_to_effective_date _to_date) _to_date components_table (Some revision);
  removals ← _table_to_removal_history _to_date removals_table revision;
  _diff_lists _BACKFILLS components_history components_latest revision removals.

(** [UpdateError.__str__]; an error built without a revision carries one
    of the current day with the id [unknown]. *)
Definition UpdateError__str__ (today : date) (msg : string)
    (revision : option Revision.t) : string :=
  Revision__repr__ (default (Revision.mk today "unknown") revision)
  +:+ " ERROR: " +:+ msg.

(** [read_last_line], on the lines of the file. *)
Definition read_last_line (lines : list string) : string :=
  default EmptyString (last lines).

(** The handler of [UpdateError]: the message is appended to the log
    unless it is its last line. *)
Definition log_update_error (st : driver_state) (message : string)
  : driver_state :=
  if negb (String.eqb (read_last_line (changelog st)) message)
  then mk_driver (components_history st) (changelog st ++ [message])
         (components_history_file st)
  else st.

(** The body of the loop of [_update_components_history_file] for one
    revision: [except UpdateError] catches that exception only. *)
Definition process_revision (today : date) (st : driver_state)
    (components_table removals_table : list (list string))
    (revision : Revision.t) : result driver_state :=
  match _update_components_history (components_history st)
          components_table removals_table revision with
  | Ok changeset => apply_changeset st changeset
  | Raise (UpdateError msg r) =>
      Ok (log_update_error st (UpdateError__str__ today msg r))
  | Raise e => Raise e
  end.

End Driver.

(** * Properties *)

(** ** Basic facts about the data model *)

Lemma EffectiveDate_eq_spec (a b : EffectiveDate.t) :
  EffectiveDate.__eq__ a b = true ↔ a = b.
Proof.
  destruct a as [d1 c1], b as [d2 c2]; unfold EffectiveDate.__eq__; simpl.
  rewrite andb_true_iff, Z.eqb_eq, eqb_true_iff.
  split; [intros [-> ->]; reflexivity | intros [= -> ->]; auto].
Qed.

Lemma EffectiveDate_eq_refl (a : EffectiveDate.t) : EffectiveDate.__eq__ a a = true.
Proof. apply EffectiveDate_eq_spec; reflexivity. Qed.

Lemma EffectiveDate_ne_spec (a b : EffectiveDate.t) :
  EffectiveDate.__ne__ a b = true ↔ a ≠ b.
Proof.
  unfold EffectiveDate.__ne__. rewrite negb_true_iff, <- not_true_iff_false.
  by rewrite EffectiveDate_eq_spec.
Qed.

Lemma pydate_eq_true (x y : pydate) : pydate_eq x y = Ok true ↔ x = y.
Proof.
  destruct x as [a|a], y as [b|b]; simpl.
  - split; [intros [= H%Z.eqb_eq]; by subst | intros [= ->]; by rewrite Z.eqb_refl].
  - case_match; split; congruence.
  - case_match; split; congruence.
  - split; [intros [= H%EffectiveDate_eq_spec]; by subst
           | intros [= ->]; by rewrite EffectiveDate_eq_refl].
Qed.

Lemma pydate_eq_false (x y : pydate) : pydate_eq x y = Ok false → x ≠ y.
Proof.
  intros H Heq. apply pydate_eq_true in Heq. congruence.
Qed.

Lemma pydate_eq_raise (x y : pydate) e :
  pydate_eq x y = Raise e → x ≠ y ∧ pydate_day x = pydate_day y.
Proof.
  destruct x as [a|a], y as [b|b]; simpl; try discriminate;
    match goal with |- context [Z.eqb ?u ?v] => destruct (Z.eqb_spec u v) end;
    try discriminate; intros _; split; try discriminate; simpl; congruence.
Qed.

Lemma pydate_eq_same_day (x y : pydate) : x = y → pydate_day x = pydate_day y.
Proof. by intros ->. Qed.

Definition str_lt (a b : string) : Prop := String.ltb a b = true.

(** One level of a lexicographic order: below at this level, or equal at
    this level and below at the next ones. *)
Definition lex_then (below same next : Prop) : Prop := below ∨ (same ∧ next).

Lemma str_compare_refl (s : string) : String.compare s s = Eq.
Proof. by apply String_as_OT.cmp_eq. Qed.

Lemma str_ltb_irrefl (s : string) : String.ltb s s = false.
Proof. unfold String.ltb. by rewrite str_compare_refl. Qed.

(** ** The effective-date merge (C2) *)

(** C2, counterexample: both dates approximate and sixty days apart, the
    latest being the earlier one.  By absolute distance the old date would
    be kept; the code keeps the latest. *)
Lemma merge_effective_date_earlier_latest_wins :
  let old := approx_date (ymd 2020 3 1) in
  let latest := approx_date (ymd 2020 1 1) in
  EffectiveDate.circa old = true ∧ EffectiveDate.circa latest = true
  ∧ ¬ (Z.abs (EffectiveDate.day latest - EffectiveDate.day old) < 30)
  ∧ _merge_effective_date old latest = latest
  ∧ _merge_effective_date old latest ≠ old.
Proof. vm_compute. repeat split; congruence. Qed.

(** C2, amended: the merge returns [latest] whenever [latest] is exact;
    [old] when [latest] is approximate and [old] exact; and, both being
    approximate, [latest] exactly when [latest] lies less than 30 days
    after [old] (the signed difference [latest - old] is under 30 days, so
    that any [latest] earlier than [old] is kept too), otherwise [old]. *)
Theorem merge_effective_date_policy (old latest : EffectiveDate.t) :
  (EffectiveDate.circa latest = false → _merge_effective_date old latest = latest)
  ∧ (EffectiveDate.circa latest = true → EffectiveDate.circa old = false →
     _merge_effective_date old latest = old)
  ∧ (EffectiveDate.circa latest = true → EffectiveDate.circa old = true →
     (EffectiveDate.day latest - EffectiveDate.day old < 30 →
      _merge_effective_date old latest = latest)
     ∧ (30 ≤ EffectiveDate.day latest - EffectiveDate.day old →
        _merge_effective_date old latest = old)).
Proof.
  unfold _merge_effective_date.
  destruct (EffectiveDate.circa latest), (EffectiveDate.circa old); simpl;
    repeat split; intros; try discriminate; try reflexivity;
    destruct (Z.ltb_spec (EffectiveDate.day latest - EffectiveDate.day old) 30);
    try reflexivity; lia.
Qed.

(** The three merges the specification lists as examples. *)
Example merge_within_30_days :
  _merge_effective_date (approx_date (ymd 2020 1 1)) (approx_date (ymd 2020 1 20))
  = approx_date (ymd 2020 1 20).
Proof. reflexivity. Qed.

Example merge_beyond_30_days :
  _merge_effective_date (approx_date (ymd 2020 1 1)) (approx_date (ymd 2020 3 1))
  = approx_date (ymd 2020 1 1).
Proof. reflexivity. Qed.

Example merge_exact_old_wins :
  _merge_effective_date (exact_date (ymd 2020 1 1)) (approx_date (ymd 2020 6 1))
  = exact_date (ymd 2020 1 1).
Proof. reflexivity. Qed.

(** ** The record ordering (C3) *)

(** C3, counterexample: same symbol and cik, [a] active and [b] removed in
    2020.  The active record does not sort before the removed one: it sorts
    after it. *)
Lemma active_not_before_removed :
  let a := Stock.mk (Some (exact_date (ymd 2015 1 1))) None None
             "X" "X Corp" "energy" "0000000001" in
  let b := Stock.mk (Some (exact_date (ymd 2010 1 1)))
             (Some (exact_date (ymd 2020 1 1))) None
             "X" "X Corp" "energy" "0000000001" in
  Stock.symbol a = Stock.symbol b ∧ Stock.cik a = Stock.cik b
  ∧ Stock.date_removed a = None ∧ is_Some (Stock.date_removed b)
  ∧ Stock.__lt__ a b = Ok false ∧ Stock.__lt__ b a = Ok true.
Proof. vm_compute. repeat split; eauto. Qed.

(** [a < b] is the lexicographic order of the six keys, two dates being
    ordered by their day and equal when day and marker agree. *)
Lemma Stock_lt_lex (a b : Stock.t) :
  Stock.__lt__ a b = Ok true ↔
  lex_then (str_lt (Stock.symbol a) (Stock.symbol b))
    (Stock.symbol a = Stock.symbol b)
  (lex_then (str_lt (Stock.cik a) (Stock.cik b))
    (Stock.cik a = Stock.cik b)
  (lex_then (pydate_day (Stock.key_removed a) < pydate_day (Stock.key_removed b))
    (Stock.key_removed a = Stock.key_removed b)
  (lex_then (pydate_day (Stock.key_added a) < pydate_day (Stock.key_added b))
    (Stock.key_added a = Stock.key_added b)
  (lex_then (str_lt (Stock.sector a) (Stock.sector b))
    (Stock.sector a = Stock.sector b)
  (str_lt (Stock.name a) (Stock.name b)))))).
Proof.
  unfold Stock.__lt__, lex_then, str_lt.
  destruct (String.eqb_spec (Stock.symbol a) (Stock.symbol b)) as [Hs|Hs]; simpl;
    [|split; [intros [= ->]; by left | intros [?|[? _]]; [by f_equal | done]]].
  rewrite Hs, str_ltb_irrefl.
  destruct (String.eqb_spec (Stock.cik a) (Stock.cik b)) as [Hc|Hc]; simpl;
    [|split; [intros [= ->]; right; split; [done | by left]
             | intros [?|[_ [?|[? _]]]]; [done | by f_equal | done]]].
  rewrite Hc, str_ltb_irrefl.
  destruct (pydate_eq (Stock.key_removed a) (Stock.key_removed b))
    as [[|]|e] eqn:Hr; simpl.
  - apply pydate_eq_true in Hr. rewrite Hr.
    destruct (pydate_eq (Stock.key_added a) (Stock.key_added b))
      as [[|]|e] eqn:Ha; simpl.
    + apply pydate_eq_true in Ha. rewrite Ha.
      destruct (String.eqb_spec (Stock.sector a) (Stock.sector b)) as [Hx|Hx]; simpl.
      * rewrite Hx, str_ltb_irrefl. split; [intros [= ->]; tauto|].
        intros [?|[_ [?|[_ [?|[_ [?|[_ [?|[_ ?]]]]]]]]]];
          try done; try lia; by f_equal.
      * split; [intros [= ->]; tauto|].
        intros [?|[_ [?|[_ [?|[_ [?|[_ [?|[? _]]]]]]]]]];
          try done; try lia; by f_equal.
    + pose proof (pydate_eq_false _ _ Ha).
      split; [intros [= H1%Z.ltb_lt]; tauto|].
      intros [?|[_ [?|[_ [?|[_ [?|[? _]]]]]]]]; try done; try lia.
      f_equal. by apply Z.ltb_lt.
    + apply pydate_eq_raise in Ha as [Hne Hd]. split; [done|].
      intros [?|[_ [?|[_ [?|[_ [?|[? _]]]]]]]]; try done; lia.
  - pose proof (pydate_eq_false _ _ Hr).
    split; [intros [= H1%Z.ltb_lt]; tauto|].
    intros [?|[_ [?|[_ [?|[? _]]]]]]; try done.
    f_equal. by apply Z.ltb_lt.
  - apply pydate_eq_raise in Hr as [Hne Hd]. split; [done|].
    intros [?|[_ [?|[_ [?|[? _]]]]]]; try done; lia.
Qed.

(** C3, amended: [a < b] holds exactly when [a] precedes [b] in the
    lexicographic order by symbol, then cik, then date_removed ascending
    with an absent date standing as the sentinel 3000-01-01, then
    date_added ascending with an absent date standing as 0001-01-01, then
    sector, then name; dates are ordered by their day and equal only when
    day and marker agree, so that two dates of the same day that are not
    equal end the comparison with neither record below the other.  So, for
    equal symbol and cik, a record removed before 3000-01-01 sorts before
    an active one, never after it. *)
Theorem Stock_lt_lexicographic (a b : Stock.t) :
  (Stock.__lt__ a b = Ok true ↔
  lex_then (str_lt (Stock.symbol a) (Stock.symbol b))
    (Stock.symbol a = Stock.symbol b)
  (lex_then (str_lt (Stock.cik a) (Stock.cik b))
    (Stock.cik a = Stock.cik b)
  (lex_then (pydate_day (Stock.key_removed a) < pydate_day (Stock.key_removed b))
    (Stock.key_removed a = Stock.key_removed b)
  (lex_then (pydate_day (Stock.key_added a) < pydate_day (Stock.key_added b))
    (Stock.key_added a = Stock.key_added b)
  (lex_then (str_lt (Stock.sector a) (Stock.sector b))
    (Stock.sector a = Stock.sector b)
  (str_lt (Stock.name a) (Stock.name b)))))))
  ∧ (Stock.symbol a = Stock.symbol b → Stock.cik a = Stock.cik b →
     Stock.date_removed a = None →
     (∃ r, Stock.date_removed b = Some r ∧ EffectiveDate.day r < _DATE_MAX) →
     Stock.__lt__ b a = Ok true ∧ Stock.__lt__ a b = Ok false).
Proof.
  split; [apply Stock_lt_lex|].
  intros Hs Hc Ha (r & Hb & Hr). unfold Stock.__lt__, Stock.key_removed.
  rewrite Hs, Hc, Ha, Hb, !String.eqb_refl. simpl.
  destruct (Z.eqb_spec (EffectiveDate.day r) _DATE_MAX) as [|_]; [lia|]. simpl.
  split; f_equal; [by apply Z.ltb_lt | apply Z.ltb_ge; lia].
Qed.

(** ** The point-in-time query (C9) *)

(** C9, counterexample: an active record added in 2020 is not a member as
    of 3000-01-01, the sentinel that stands for an absent removal date. *)
Lemma active_record_excluded_from_3000 :
  let c := Stock.mk (Some (exact_date (ymd 2020 1 1))) None None
             "X" "X Corp" "energy" "0000000001" in
  let query := ymd 3000 1 1 in
  is_Some (Stock.date_added c) ∧ Stock.date_removed c = None
  ∧ Stock.created_at c = None ∧ ymd 2020 1 1 ≤ query
  ∧ c ∉ list_components [c] (Some query).
Proof.
  vm_compute. repeat split; eauto; try discriminate.
  intros H. inversion H.
Qed.

(** C9, amended: a ledger record whose date_added is present, whose
    date_removed is absent and whose created_at is absent or on or before
    the query date is included by the point-in-time query for every query
    date on or after date_added and before the sentinel 3000-01-01. *)
Theorem list_components_includes_active
    (components_history : list Stock.t) (c : Stock.t)
    (a : EffectiveDate.t) (query : date) :
  is_date query →
  c ∈ components_history →
  Stock.date_added c = Some a →
  Stock.date_removed c = None →
  (∀ k, Stock.created_at c = Some k → k ≤ query) →
  EffectiveDate.day a ≤ query →
  query < _DATE_MAX →
  c ∈ list_components components_history (Some query).
Proof.
  intros [Hmin _] Hin Ha Hr Hc Hle Hlt. unfold list_components.
  apply list_elem_of_In, filter_In. split; [by apply list_elem_of_In|].
  rewrite Ha, Hr. simpl. unfold EffectiveDate.to_date.
  apply andb_true_intro; split; [apply andb_true_intro; split|].
  - by apply Z.leb_le.
  - by apply Z.ltb_lt.
  - apply Z.leb_le. destruct (Stock.created_at c) as [k|]; simpl.
    + by apply Hc.
    + exact Hmin.
Qed.

Lemma list_components_includes_active_witness :
  let c := Stock.mk (Some (exact_date (ymd 2020 1 1))) None (Some (ymd 2020 1 3))
             "X" "X Corp" "energy" "0000000001" in
  c ∈ list_components [c] (Some (ymd 2999 12 31)).
Proof.
  apply (list_components_includes_active _ _ (exact_date (ymd 2020 1 1))).
  - vm_compute. split; discriminate.
  - constructor.
  - reflexivity.
  - reflexivity.
  - intros k [= <-]. vm_compute. discriminate.
  - vm_compute. discriminate.
  - vm_compute. reflexivity.
Defined.

(** ** Lists *)

Lemma elem_of_rev_iff {A} (x : A) (l : list A) : x ∈ rev l ↔ x ∈ l.
Proof. rewrite !list_elem_of_In. symmetry. apply in_rev. Qed.

(** ** The [result] monad *)

Lemma bind_Ok {A B} (m : result A) (f : A → result B) (b : B) :
  (m ≫= f) = Ok b ↔ ∃ a, m = Ok a ∧ f a = Ok b.
Proof.
  destruct m as [a|e]; simpl.
  - split; [eauto | by intros (? & [= <-] & ?)].
  - split; [done | by intros (? & ? & _)].
Qed.

Ltac inv_bind H :=
  let a := fresh "a" in
  let Ha := fresh "Ha" in
  apply bind_Ok in H as (a & Ha & H).

(** ** The sort returns a permutation of its argument *)

Section SortFacts.
Context {A : Type} (lt : A → A → result bool).

Lemma sort_insert_perm (x : A) (l l' : list A) :
  sort_insert lt x l = Ok l' → l' ≡ₚ x :: l.
Proof.
  revert l'. induction l as [|y l IH]; intros l' H; simpl in H.
  - by injection H as <-.
  - inv_bind H. destruct a.
    + by injection H as <-.
    + inv_bind H. injection H as <-.
      rewrite (IH _ Ha0). apply Permutation_swap.
Qed.

Lemma sort_into_perm (acc l l' : list A) :
  sort_into lt acc l = Ok l' → l' ≡ₚ acc ++ l.
Proof.
  revert acc l'. induction l as [|x l IH]; intros acc l' H; simpl in H.
  - injection H as <-. by rewrite app_nil_r.
  - inv_bind H. rewrite (IH _ _ H), (sort_insert_perm _ _ _ Ha).
    simpl. apply Permutation_middle.
Qed.

Lemma sorted_perm (l l' : list A) : sorted lt l = Ok l' → l' ≡ₚ l.
Proof. apply sort_into_perm. Qed.

(** The sort succeeds when no comparison between two elements raises. *)
Lemma sort_insert_Ok (x : A) (l : list A) :
  (∀ y, y ∈ l → is_Ok (lt x y)) → is_Ok (sort_insert lt x l).
Proof.
  induction l as [|y l IH]; intros H; simpl; [by eexists|].
  destruct (H y) as [b Hb]; [by left|]. rewrite Hb. simpl.
  destruct b; [by eexists|].
  destruct IH as [r Hr]; [intros; apply H; by right|].
  rewrite Hr. by eexists.
Qed.

Lemma sort_into_Ok (acc l : list A) :
  (∀ x y, x ∈ acc ++ l → y ∈ acc ++ l → is_Ok (lt x y)) →
  is_Ok (sort_into lt acc l).
Proof.
  revert acc. induction l as [|x l IH]; intros acc H; simpl; [by eexists|].
  destruct (sort_insert_Ok x acc) as [acc' Hacc'].
  { intros y Hy. apply H; rewrite elem_of_app, ?elem_of_cons; auto. }
  rewrite Hacc'. simpl. apply IH. intros u v Hu Hv.
  apply sort_insert_perm in Hacc'.
  assert (∀ u, u ∈ acc' ++ l → u ∈ acc ++ x :: l) as Hsub.
  { intros w. rewrite !elem_of_app, Hacc', !elem_of_cons. tauto. }
  apply H; by apply Hsub.
Qed.

Lemma sorted_Ok (l : list A) :
  (∀ x y, x ∈ l → y ∈ l → is_Ok (lt x y)) → is_Ok (sorted lt l).
Proof. intros H. by apply sort_into_Ok. Qed.
End SortFacts.

(** ** The change summary and the driver (C5) *)

Lemma append_empty_r (a b : string) : a +:+ b = EmptyString → b = EmptyString.
Proof. destruct a; simpl; [done | discriminate]. Qed.

Lemma Revision__repr__nonempty (r : Revision.t) (rest : string) :
  Revision__repr__ r +:+ rest ≠ EmptyString.
Proof.
  unfold Revision__repr__. intros H.
  destruct (strftime (Revision.ny_date r)); simpl in H; discriminate.
Qed.

(** The lists that make a changeset effective: the ones the summary names. *)
Definition effective (cs : Changeset.t) : Prop :=
  Changeset.added cs ≠ [] ∨ Changeset.removed cs ≠ []
  ∨ Changeset.updated cs ≠ [] ∨ Changeset.inactive_updated cs ≠ [].

Lemma summary_nonempty_iff (cs : Changeset.t) :
  summary cs ≠ EmptyString ↔ effective cs.
Proof.
  unfold summary, effective.
  destruct cs as [r [|a ad] [|b rm] [|c up] un ina [|d iu]]; simpl;
    try (split; [intros _; auto 6 | intros _; apply Revision__repr__nonempty]).
  split; [done | intros [?|[?|[?|?]]]; done].
Qed.

Lemma apply_changeset_idle (st : driver_state) (cs : Changeset.t) :
  ¬ effective cs → apply_changeset st cs = Ok st.
Proof.
  rewrite <- summary_nonempty_iff. intros H. unfold apply_changeset, truthy.
  destruct (String.eqb_spec (summary cs) EmptyString) as [|Hne]; [done|].
  by destruct H.
Qed.

(** C5, counterexample: a changeset whose only non-empty list is
    [unchanged] has an empty summary, and the driver neither replaces the
    ledger nor appends to the log. *)
Lemma unchanged_only_changeset_not_persisted :
  let s := Stock.mk (Some (exact_date (ymd 2015 1 1))) None None
             "X" "X Corp" "energy" "0000000001" in
  let cs := Changeset.mk (Revision.mk (ymd 2021 1 5) "1000") [] [] [] [s] [] [] in
  let st := mk_driver [] [] [] in
  Changeset.unchanged cs ≠ []
  ∧ summary cs = EmptyString
  ∧ apply_changeset st cs = Ok st.
Proof. vm_compute. repeat split; congruence. Qed.

(** C5, amended: a changeset yields a non-empty summary exactly when one of
    its lists added, removed, updated and inactive_updated is non-empty
    (unchanged and inactive do not count); in that case the driver rebuilds
    the ledger, keeps and writes it, and appends the summary to the log, and
    otherwise it leaves ledger, file and log as they are. *)
Theorem summary_and_persistence (cs : Changeset.t) :
  (summary cs ≠ EmptyString ↔ effective cs)
  ∧ (∀ st, effective cs →
       apply_changeset st cs =
       (h ← _create_components_history cs;
        Ok (mk_driver h (changelog st ++ [summary cs]) h)))
  ∧ (∀ st, ¬ effective cs → apply_changeset st cs = Ok st).
Proof.
  split; [apply summary_nonempty_iff|].
  split; intros st H; unfold apply_changeset, truthy;
    rewrite <- summary_nonempty_iff in H;
    destruct (String.eqb_spec (summary cs) EmptyString); simpl; try done.
Qed.

(** ** The History Rebuilder: what the ledger is made of *)

(** The changeset without its removals. *)
Definition without_removed (cs : Changeset.t) : Changeset.t :=
  Changeset.mk (Changeset.revision cs) (Changeset.added cs) []
    (Changeset.updated cs) (Changeset.unchanged cs)
    (Changeset.inactive cs) (Changeset.inactive_updated cs).

(** The inactive records in the order the coalescing loop meets them. *)
Definition coalescing_order (previous : list Stock.t) : list Stock.t :=
  rev previous.

Lemma create_components_history_parts (cs : Changeset.t) (ledger : list Stock.t) :
  _create_components_history cs = Ok ledger →
  ∃ previous,
    sorted Stock.__lt__ (Changeset.inactive cs ++ Changeset.inactive_updated cs)
    = Ok previous
    ∧ let st := fold_left (coalesce_step (make_added_map (Changeset.added cs)))
                  (coalescing_order previous) (∅, []) in
      ledger ≡ₚ
        List.filter (fun s => negb (bool_decide (Stock.symbol s ∈ fst st)))
          (Changeset.added cs)
        ++ List.filter (keeps_removed (Changeset.revision cs)) (Changeset.removed cs)
        ++ Changeset.updated cs ++ Changeset.unchanged cs ++ snd st.
Proof.
  unfold _create_components_history. intros H. inv_bind H.
  exists a. split; [done|]. simpl. by apply sorted_perm in H.
Qed.

Lemma keeps_removed_spec (revision : Revision.t) (s : Stock.t) :
  keeps_removed revision s = true ↔
  ∃ r a c, Stock.date_removed s = Some r ∧ Stock.date_added s = Some a
           ∧ Stock.created_at s = Some c
           ∧ 14 < EffectiveDate.day r - EffectiveDate.day a
           ∧ 2 < Revision.ny_date revision - c.
Proof.
  unfold keeps_removed. rewrite andb_true_iff.
  destruct (Stock.date_removed s) as [r|], (Stock.date_added s) as [a|],
    (Stock.created_at s) as [c|]; rewrite ?Z.ltb_lt;
    (split; [intros [? ?]; try discriminate; eauto 10
            | intros (? & ? & ? & ? & ? & ? & ? & ?); simplify_eq; done]).
Qed.

(** ** Ephemeral suppression (C1) *)

(** C1, counterexample: a removed record of a 4-day stint first observed 10
    days before the snapshot.  Only one of the two conditions holds, so the
    record would be retained; the rebuilt ledger is empty. *)
Lemma short_stint_dropped_though_observed_long_ago :
  let s := Stock.mk (Some (exact_date (ymd 2021 1 1)))
             (Some (exact_date (ymd 2021 1 5))) (Some (ymd 2021 1 5))
             "X" "X Corp" "energy" "0000000001" in
  let revision := Revision.mk (ymd 2021 1 15) "1000" in
  let cs := Changeset.mk revision [] [s] [] [] [] [] in
  ymd 2021 1 5 - ymd 2021 1 1 ≤ 14
  ∧ ¬ (Revision.ny_date revision - ymd 2021 1 5 < 2)
  ∧ _create_components_history cs = Ok [].
Proof. vm_compute. repeat split; congruence. Qed.

(** C1, amended: the rebuilt ledger is the ledger rebuilt from the same
    changeset without its removals, together with exactly those records of
    [removed] that the filter keeps; a removed record is kept exactly when
    its date_removed, date_added and created_at are all present, its
    membership lasted more than 14 days and its created_at is more than 2
    days before the snapshot's date, and is dropped otherwise (so already
    when the stint lasted 14 days or less, or when created_at is 2 days or
    less before the snapshot's date). *)
Theorem removed_kept_only_if_long_and_old
    (cs : Changeset.t) (ledger ledger0 : list Stock.t) :
  _create_components_history cs = Ok ledger →
  _create_components_history (without_removed cs) = Ok ledger0 →
  ledger ≡ₚ
    List.filter (keeps_removed (Changeset.revision cs)) (Changeset.removed cs)
    ++ ledger0
  ∧ ∀ s, s ∈ List.filter (keeps_removed (Changeset.revision cs))
               (Changeset.removed cs) ↔
         s ∈ Changeset.removed cs
         ∧ ∃ r a c, Stock.date_removed s = Some r ∧ Stock.date_added s = Some a
                    ∧ Stock.created_at s = Some c
                    ∧ 14 < EffectiveDate.day r - EffectiveDate.day a
                    ∧ 2 < Revision.ny_date (Changeset.revision cs) - c.
Proof.
  intros H H0.
  apply create_components_history_parts in H as (previous & Hp & H).
  apply create_components_history_parts in H0 as (previous0 & Hp0 & H0).
  simpl in *. rewrite Hp in Hp0. injection Hp0 as <-.
  split.
  - rewrite H, H0. simpl. apply Permutation_app_swap_app.
  - intros s. rewrite list_elem_of_In, filter_In, <- list_elem_of_In.
    by rewrite keeps_removed_spec.
Qed.

Lemma removed_kept_only_if_long_and_old_witness :
  let s := Stock.mk (Some (exact_date (ymd 2020 1 1)))
             (Some (exact_date (ymd 2021 1 5))) (Some (ymd 2020 1 1))
             "X" "X Corp" "energy" "0000000001" in
  let cs := Changeset.mk (Revision.mk (ymd 2021 1 5) "1000") [] [s] [] [] [] [] in
  [s] ≡ₚ List.filter (keeps_removed (Changeset.revision cs)) (Changeset.removed cs)
         ++ []
  ∧ ∀ s, s ∈ List.filter (keeps_removed (Changeset.revision cs))
               (Changeset.removed cs) ↔
         s ∈ Changeset.removed cs
         ∧ ∃ r a c, Stock.date_removed s = Some r ∧ Stock.date_added s = Some a
                    ∧ Stock.created_at s = Some c
                    ∧ 14 < EffectiveDate.day r - EffectiveDate.day a
                    ∧ 2 < Revision.ny_date (Changeset.revision cs) - c.
Proof.
  intros s cs.
  apply (removed_kept_only_if_long_and_old cs [s] []); vm_compute; reflexivity.
Defined.

(** ** The Removal Resolver (C7) *)

(** The dated events of a list of removal events, in order. *)
Definition event_dates (removals : list _RemovalHistory.t) : list EffectiveDate.t :=
  omap _RemovalHistory.date_removed removals.

(** The absolute distance in days between two dates. *)
Definition distance (d date_ref : EffectiveDate.t) : Z :=
  Z.abs (EffectiveDate.day d - EffectiveDate.day date_ref).

(** [c] is the date of [dates] closest to [date_ref]: no date is nearer,
    and the ones in front of it are farther. *)
Definition closest_in (dates : list EffectiveDate.t)
    (date_ref c : EffectiveDate.t) : Prop :=
  ∃ before after,
    dates = before ++ c :: after
    ∧ (∀ d, d ∈ before → distance c date_ref < distance d date_ref)
    ∧ (∀ d, d ∈ after → distance c date_ref ≤ distance d date_ref).

Lemma closest_in_nearest dates date_ref c :
  closest_in dates date_ref c →
  c ∈ dates ∧ ∀ d, d ∈ dates → distance c date_ref ≤ distance d date_ref.
Proof.
  intros (before & after & -> & Hb & Ha). split.
  - apply elem_of_app. right. by left.
  - intros d [Hd|[->|Hd]%elem_of_cons]%elem_of_app.
    + specialize (Hb d Hd). lia.
    + lia.
    + by apply Ha.
Qed.

Lemma closest_in_unique dates date_ref c c' :
  closest_in dates date_ref c → closest_in dates date_ref c' → c = c'.
Proof.
  intros (b1 & a1 & -> & Hb1 & Ha1) (b2 & a2 & Heq & Hb2 & Ha2).
  revert b2 Heq Hb2. induction b1 as [|x b1 IH]; intros b2 Heq Hb2.
  - destruct b2 as [|y b2]; simpl in Heq; [by injection Heq|].
    injection Heq as -> Heq.
    assert (c' ∈ a1) as Hc' by (rewrite Heq, elem_of_app; right; by left).
    specialize (Ha1 _ Hc'). specialize (Hb2 y (ltac:(by left))). lia.
  - destruct b2 as [|y b2]; simpl in Heq.
    + injection Heq as -> Heq.
      specialize (Hb1 c' (ltac:(by left))).
      assert (c ∈ a2) as Hc by (rewrite <- Heq, elem_of_app; right; by left).
      specialize (Ha2 _ Hc). lia.
    + injection Heq as -> Heq. apply (IH (λ d Hd, Hb1 d (ltac:(by right))) b2 Heq).
      intros d Hd. apply Hb2. by right.
Qed.

Lemma abs_seconds_distance (d date_ref : EffectiveDate.t) :
  abs_seconds d date_ref = 86400 * distance d date_ref.
Proof. unfold abs_seconds, distance. lia. Qed.

(** The state of the scan after a prefix of the events. *)
Definition scan_state (dates : list EffectiveDate.t) (date_ref : EffectiveDate.t)
    (st : option EffectiveDate.t * option Z) : Prop :=
  (dates = [] ∧ st = (None, None))
  ∨ ∃ c, st = (Some c, Some (abs_seconds c date_ref)) ∧ closest_in dates date_ref c.

Lemma closest_scan (removals : list _RemovalHistory.t) (date_ref : EffectiveDate.t) :
  scan_state (event_dates removals) date_ref
    (fold_left (closest_step date_ref) removals (None, None)).
Proof.
  induction removals as [|h removals IH] using rev_ind; [by left|].
  rewrite fold_left_app. simpl. unfold event_dates in *. rewrite omap_app. simpl.
  unfold closest_step at 1.
  destruct (_RemovalHistory.date_removed h) as [d|]; simpl;
    [|by rewrite app_nil_r].
  destruct IH as [[-> ->]|(c & -> & Hc)]; simpl.
  - right. exists d. split; [done|]. exists [], []. split; [done|].
    split; intros ? H; inversion H.
  - right. rewrite !abs_seconds_distance.
    destruct Hc as (before & after & -> & Hb & Ha).
    destruct (Z.ltb_spec (86400 * distance d date_ref) (86400 * distance c date_ref)).
    + exists d. split; [by rewrite abs_seconds_distance|].
      exists (before ++ c :: after), []. split; [done|].
      split; [|intros ? H'; inversion H'].
      intros e [He|[->|He]%elem_of_cons]%elem_of_app.
      * specialize (Hb e He). lia.
      * lia.
      * specialize (Ha e He). lia.
    + exists c. split; [by rewrite abs_seconds_distance|].
      exists before, (after ++ [d]). split; [by rewrite <- app_assoc|].
      split; [done|].
      intros e [He|He]%elem_of_app; [by apply Ha|].
      apply list_elem_of_singleton in He as ->. lia.
Qed.

Lemma find_closest_removal_date_spec (removals : list _RemovalHistory.t)
    (date_ref : EffectiveDate.t) :
  match _find_closest_removal_date removals date_ref with
  | Some c => closest_in (event_dates removals) date_ref c
  | None => event_dates removals = []
  end.
Proof.
  unfold _find_closest_removal_date.
  destruct (closest_scan removals date_ref) as [[? ->]|(c & -> & ?)]; done.
Qed.

(** The events recorded for the symbol of a record. *)
Definition symbol_events (removals : gmap string (list _RemovalHistory.t))
    (stock : Stock.t) : list _RemovalHistory.t :=
  default [] (removals !! Stock.symbol stock).



Lemma get_date_removed_closest removals stock date_stand_in :
  match removals !! Stock.symbol stock with
  | Some (h :: hs) => _find_closest_removal_date (h :: hs) date_stand_in
  | _ => None
  end = _find_closest_removal_date (symbol_events removals stock) date_stand_in.
Proof.
  unfold symbol_events. by destruct (removals !! Stock.symbol stock) as [[|h hs]|].
Qed.


(** ** The first loop of the differ: re-evaluation of inactive records (C4) *)

Section SplitFacts.
Variable removals : gmap string (list _RemovalHistory.t).

(** The state of the loop once it has gone, from the end of the ledger
    backwards, through the records of [l]. *)
Definition scanned (l : list Stock.t) : history_split :=
  fold_left (split_step removals) (rev l) (mk_split [] [] [] ∅).

Lemma scanned_cons (e : Stock.t) (l : list Stock.t) :
  scanned (e :: l) = split_step removals (scanned l) e.
Proof. unfold scanned. simpl. by rewrite fold_left_app. Qed.

Lemma scanned_seen (l : list Stock.t) (s : string) :
  s ∈ split_seen (scanned l) ↔ s ∈ (Stock.symbol <$> l).
Proof.
  induction l as [|e l IH]; [unfold scanned; simpl; set_solver|].
  rewrite scanned_cons. unfold split_step. simpl.
  rewrite elem_of_union, elem_of_singleton, ?fmap_cons, elem_of_cons.
  destruct (Stock.date_removed e); [case_match|]; simpl; by rewrite IH.
Qed.

(** A record whose removal date is re-evaluated to another date: inactive,
    the last of its symbol in the ledger, and resolved to a date that
    differs from the stored one. *)
Definition reevaluated (e : Stock.t) (after : list Stock.t)
    (d : EffectiveDate.t) : Prop :=
  Stock.date_removed e = Some d
  ∧ (Stock.symbol e ∉ (Stock.symbol <$> after))
  ∧ _get_date_removed e removals d ≠ d.

(** An inactive record that is left as it is: a later record of the ledger
    has its symbol, or its removal date resolves to the stored one. *)
Definition left_alone (e : Stock.t) (after : list Stock.t)
    (d : EffectiveDate.t) : Prop :=
  Stock.date_removed e = Some d
  ∧ (Stock.symbol e ∈ (Stock.symbol <$> after)
     ∨ _get_date_removed e removals d = d).

Lemma split_step_cases (e : Stock.t) (l : list Stock.t) :
  match Stock.date_removed e with
  | None =>
      split_old (scanned (e :: l)) = split_old (scanned l) ++ [e]
      ∧ split_inactive (scanned (e :: l)) = split_inactive (scanned l)
      ∧ split_inactive_updated (scanned (e :: l)) = split_inactive_updated (scanned l)
  | Some d =>
      split_old (scanned (e :: l)) = split_old (scanned l)
      ∧ ((reevaluated e l d
          ∧ split_inactive (scanned (e :: l)) = split_inactive (scanned l)
          ∧ split_inactive_updated (scanned (e :: l))
            = split_inactive_updated (scanned l)
              ++ [Stock.with_date_removed (Some (_get_date_removed e removals d)) e])
         ∨ (left_alone e l d
            ∧ split_inactive (scanned (e :: l)) = split_inactive (scanned l) ++ [e]
            ∧ split_inactive_updated (scanned (e :: l))
              = split_inactive_updated (scanned l)))
  end.
Proof.
  rewrite scanned_cons. unfold split_step, reevaluated, left_alone.
  destruct (Stock.date_removed e) as [d|] eqn:Hd; simpl; [|done].
  destruct (bool_decide_reflect (Stock.symbol e ∈ split_seen (scanned l)))
    as [Hseen|Hseen]; rewrite scanned_seen in Hseen; simpl.
  - split; [done|]. right. auto.
  - destruct (EffectiveDate.__ne__ d (_get_date_removed e removals d)) eqn:Hne; simpl.
    + apply EffectiveDate_ne_spec in Hne. split; [done|]. left. auto.
    + split; [done|]. right. repeat split; try done. right.
      apply not_true_iff_false in Hne. rewrite EffectiveDate_ne_spec in Hne.
      by destruct (decide (_get_date_removed e removals d = d)) as [|Hn];
        [|destruct Hne].
Qed.

Lemma split_old_active (l : list Stock.t) :
  rev (split_old (scanned l))
  = List.filter (fun e => negb (bool_decide (is_Some (Stock.date_removed e)))) l.
Proof.
  induction l as [|e l IH]; [done|].
  pose proof (split_step_cases e l) as H. simpl.
  destruct (Stock.date_removed e) as [d|]; simpl.
  - destruct H as [-> _]. by rewrite IH.
  - destruct H as (-> & _). by rewrite rev_unit, IH.
Qed.

Lemma split_inactive_updated_elem (l : list Stock.t) (x : Stock.t) :
  x ∈ split_inactive_updated (scanned l) ↔
  ∃ before e after d,
    l = before ++ e :: after ∧ reevaluated e after d
    ∧ x = Stock.with_date_removed (Some (_get_date_removed e removals d)) e.
Proof.
  induction l as [|e l IH].
  - unfold scanned; simpl. split; [by intros H; inversion H|].
    intros (b & ? & ? & ? & H & _). by destruct b.
  - pose proof (split_step_cases e l) as H.
    destruct (Stock.date_removed e) as [d|] eqn:Hd.
    + destruct H as [_ [(Hre & _ & ->)|(Hla & _ & ->)]].
      * rewrite elem_of_app, list_elem_of_singleton, IH. split.
        -- intros [(b & e' & a & d' & -> & ? & ->)| ->].
           ++ by exists (e :: b), e', a, d'.
           ++ by exists [], e, l, d.
        -- intros (b & e' & a & d' & Heq & Hre' & ->).
           destruct b as [|y b]; simpl in Heq; injection Heq as -> ->.
           ++ right. destruct Hre as [? _], Hre' as [? _]. congruence.
           ++ left. by exists b, e', a, d'.
      * rewrite IH. split.
        -- intros (b & e' & a & d' & -> & ? & ->). by exists (e :: b), e', a, d'.
        -- intros (b & e' & a & d' & Heq & Hre' & ->).
           destruct b as [|y b]; simpl in Heq; injection Heq as -> ->.
           ++ destruct Hla as [? Hla], Hre' as (? & ? & ?). simplify_eq.
              by destruct Hla.
           ++ by exists b, e', a, d'.
    + destruct H as (_ & _ & ->). rewrite IH. split.
      * intros (b & e' & a & d' & -> & ? & ->). by exists (e :: b), e', a, d'.
      * intros (b & e' & a & d' & Heq & Hre' & ->).
        destruct b as [|y b]; simpl in Heq; injection Heq as -> ->.
        -- destruct Hre' as [? _]. congruence.
        -- by exists b, e', a, d'.
Qed.

Lemma split_inactive_elem (l : list Stock.t) (x : Stock.t) :
  x ∈ split_inactive (scanned l) ↔
  ∃ before after d, l = before ++ x :: after ∧ left_alone x after d.
Proof.
  induction l as [|e l IH].
  - unfold scanned; simpl. split; [by intros H; inversion H|].
    intros (b & ? & ? & H & _). by destruct b.
  - pose proof (split_step_cases e l) as H.
    destruct (Stock.date_removed e) as [d|] eqn:Hd.
    + destruct H as [_ [(Hre & -> & _)|(Hla & -> & _)]].
      * rewrite IH. split.
        -- intros (b & a & d' & -> & ?). by exists (e :: b), a, d'.
        -- intros (b & a & d' & Heq & Hla).
           destruct b as [|y b]; simpl in Heq; injection Heq as -> ->.
           ++ destruct Hla as [? Hla], Hre as (? & ? & ?). simplify_eq.
              by destruct Hla.
           ++ by exists b, a, d'.
      * rewrite elem_of_app, list_elem_of_singleton, IH. split.
        -- intros [(b & a & d' & -> & ?)| ->].
           ++ by exists (e :: b), a, d'.
           ++ by exists [], l, d.
        -- intros (b & a & d' & Heq & Hla').
           destruct b as [|y b]; simpl in Heq; injection Heq as -> ->.
           ++ by right.
           ++ left. by exists b, a, d'.
    + destruct H as (_ & -> & _). rewrite IH. split.
      * intros (b & a & d' & -> & ?). by exists (e :: b), a, d'.
      * intros (b & a & d' & Heq & Hla).
        destruct b as [|y b]; simpl in Heq; injection Heq as -> ->.
        -- destruct Hla as [? _]. congruence.
        -- by exists b, a, d'.
Qed.

End SplitFacts.

Lemma diff_lists_inactive _BACKFILLS components_history latest revision removals cs :
  _diff_lists _BACKFILLS components_history latest revision removals = Ok cs →
  Changeset.inactive cs = rev (split_inactive (scanned removals components_history))
  ∧ Changeset.inactive_updated cs
    = rev (split_inactive_updated (scanned removals components_history)).
Proof.
  unfold _diff_lists. repeat case_match; try discriminate.
  intros Hj. inv_bind Hj. by injection Hj as <-.
Qed.

(** C4, counterexample: the ledger holds two removed stints of X.  The
    older one stores an estimated removal date that the removal events
    resolve to another date, yet it is routed to [inactive] with the stored
    date, and [inactive_updated] stays empty. *)
Lemma older_stint_not_reevaluated :
  let older := Stock.mk (Some (exact_date (ymd 2005 1 1)))
                 (Some (approx_date (ymd 2010 6 1))) None
                 "X" "X Corp" "energy" "0000000001" in
  let newer := Stock.mk (Some (exact_date (ymd 2015 1 1)))
                 (Some (exact_date (ymd 2020 1 1))) None
                 "X" "X Corp" "energy" "0000000001" in
  let removals : gmap string (list _RemovalHistory.t) :=
    {[ "X" := [_RemovalHistory.mk (Some (exact_date (ymd 2020 1 1))) "X";
               _RemovalHistory.mk (Some (exact_date (ymd 2010 5 28))) "X"] ]} in
  let revision := Revision.mk (ymd 2021 1 5) "1000" in
  _get_date_removed older removals (approx_date (ymd 2010 6 1))
  = exact_date (ymd 2010 5 28)
  ∧ _diff_lists ∅ [older; newer] [] revision removals
    = Ok (Changeset.mk revision [] [] [] [] [older; newer] []).
Proof. vm_compute. split; reflexivity. Qed.

(** C4, amended: during a diff, an already-inactive ledger record is routed
    to [inactive_updated], carrying the removal date recomputed by the
    Removal Resolver, exactly when no later record of the ledger has its
    symbol and the recomputed date differs from the stored one; every other
    inactive record (an older stint of a symbol with several entries, or a
    record whose date is confirmed) is routed to [inactive] unchanged. *)
Theorem inactive_records_reevaluated
    (_BACKFILLS : gmap string (list Stock.t))
    (components_history latest : list Stock.t) (revision : Revision.t)
    (removals : gmap string (list _RemovalHistory.t)) (cs : Changeset.t) :
  _diff_lists _BACKFILLS components_history latest revision removals = Ok cs →
  (∀ x, x ∈ Changeset.inactive_updated cs ↔
        ∃ before e after d,
          components_history = before ++ e :: after
          ∧ reevaluated removals e after d
          ∧ x = Stock.with_date_removed
                  (Some (_get_date_removed e removals d)) e)
  ∧ (∀ x, x ∈ Changeset.inactive cs ↔
          ∃ before after d,
            components_history = before ++ x :: after
            ∧ left_alone removals x after d).
Proof.
  intros [-> ->]%diff_lists_inactive. split; intros x.
  - by rewrite elem_of_rev_iff, split_inactive_updated_elem.
  - by rewrite elem_of_rev_iff, split_inactive_elem.
Qed.

Lemma inactive_records_reevaluated_witness :
  let older := Stock.mk (Some (exact_date (ymd 2005 1 1)))
                 (Some (approx_date (ymd 2010 6 1))) None
                 "X" "X Corp" "energy" "0000000001" in
  let removals : gmap string (list _RemovalHistory.t) :=
    {[ "X" := [_RemovalHistory.mk (Some (exact_date (ymd 2010 5 28))) "X"] ]} in
  let revision := Revision.mk (ymd 2021 1 5) "1000" in
  let cs := Changeset.mk revision [] [] [] [] []
              [Stock.with_date_removed (Some (exact_date (ymd 2010 5 28))) older] in
  (∀ x, x ∈ Changeset.inactive_updated cs ↔
        ∃ before e after d,
          [older] = before ++ e :: after
          ∧ reevaluated removals e after d
          ∧ x = Stock.with_date_removed
                  (Some (_get_date_removed e removals d)) e)
  ∧ (∀ x, x ∈ Changeset.inactive cs ↔
          ∃ before after d,
            [older] = before ++ x :: after
            ∧ left_alone removals x after d).
Proof.
  intros older removals revision cs.
  apply (inactive_records_reevaluated ∅ [older] [] revision removals cs).
  vm_compute. reflexivity.
Defined.

(** ** The coalescing loop of the rebuilder (C6) *)

Section CoalesceFacts.
Variable added_map : gmap string Stock.t.

(** The gap between the addition's date_added and the record's
    date_removed, both present, is under 30 days. *)
Definition gap_under_30 (existing added : Stock.t) : Prop :=
  ∃ r a, Stock.date_removed existing = Some r ∧ Stock.date_added added = Some a
         ∧ EffectiveDate.day a - EffectiveDate.day r < 30.

(** The state of the loop after the records of [met]. *)
Definition coalesced (met : list Stock.t) : gset string * list Stock.t :=
  fold_left (coalesce_step added_map) met (∅, []).

(** [e], met after the records of [before], consumes the addition [a]
    pending for its symbol: [a] is not yet consumed and the gap is short. *)
Definition consumes (before : list Stock.t) (e a : Stock.t) : Prop :=
  added_map !! Stock.symbol e = Some a
  ∧ (Stock.symbol a ∉ fst (coalesced before))
  ∧ gap_under_30 e a.

Lemma coalesces_spec (excl : gset string) (e a : Stock.t) :
  coalesces excl e a = true ↔ (Stock.symbol a ∉ excl) ∧ gap_under_30 e a.
Proof.
  unfold coalesces, gap_under_30.
  rewrite andb_true_iff, negb_true_iff, bool_decide_eq_false.
  destruct (Stock.date_removed e) as [r|], (Stock.date_added a) as [d|];
    rewrite ?Z.ltb_lt;
    (split; [intros [? ?]; try discriminate; eauto 10
            | intros (? & ? & ? & ? & ? & ?); simplify_eq; done]).
Qed.

Lemma coalesced_snoc (met : list Stock.t) (e : Stock.t) :
  coalesced (met ++ [e]) = coalesce_step added_map (coalesced met) e.
Proof. unfold coalesced. by rewrite fold_left_app. Qed.

Lemma coalesce_step_cases (met : list Stock.t) (e : Stock.t) :
  (∃ a, consumes met e a
        ∧ coalesced (met ++ [e])
          = ({[Stock.symbol a]} ∪ fst (coalesced met),
             snd (coalesced met)
             ++ [Stock.with_date_removed None (_merge_stocks e a)]))
  ∨ ((¬ ∃ a, consumes met e a)
     ∧ coalesced (met ++ [e]) = (fst (coalesced met), snd (coalesced met) ++ [e])).
Proof.
  rewrite coalesced_snoc. unfold coalesce_step, consumes.
  destruct (added_map !! Stock.symbol e) as [a|] eqn:Ha.
  - destruct (coalesces (fst (coalesced met)) e a) eqn:Hc.
    + left. exists a. apply coalesces_spec in Hc as [? ?]. auto.
    + right. split; [|done]. intros (a' & [= <-] & H1 & H2).
      apply not_true_iff_false in Hc. apply Hc, coalesces_spec. auto.
  - right. split; [|done]. by intros (a' & [=] & _).
Qed.




Lemma coalesced_exclusion (met : list Stock.t) (s : string) :
  s ∈ fst (coalesced met) ↔
  ∃ before e after a,
    met = before ++ e :: after ∧ consumes before e a ∧ Stock.symbol a = s.
Proof.
  induction met as [|x met IH] using rev_ind.
  - unfold coalesced; simpl. split; [set_solver|].
    intros (b & ? & ? & ? & H & _). by destruct b.
  - assert (∀ before e after (a : Stock.t),
              met ++ [x] = before ++ e :: after →
              (after = [] ∧ before = met ∧ e = x)
              ∨ ∃ after', after = after' ++ [x] ∧ met = before ++ e :: after')
      as Hsplit.
    { intros before e after a Heq.
      destruct after as [|y after _] using rev_ind.
      - apply app_inj_tail in Heq as [-> ->]. by left.
      - right. exists after.
        rewrite (app_comm_cons after [y] e), app_assoc in Heq.
        apply app_inj_tail in Heq as [-> ->]. done. }
    destruct (coalesce_step_cases met x) as [(a & Ha & ->)|(Hno & ->)]; simpl.
    + rewrite elem_of_union, elem_of_singleton, IH. split.
      * intros [->|(b & e & af & a' & -> & ? & ?)].
        -- by exists met, x, [], a.
        -- exists b, e, (af ++ [x]), a'. by rewrite <- app_assoc.
      * intros (b & e & af & a' & Heq & Hc & <-).
        destruct (Hsplit _ _ _ a' Heq) as [(-> & -> & ->)|(af' & -> & ->)].
        -- left. destruct Ha as [Ha _], Hc as [Hc _]. congruence.
        -- right. by exists b, e, af', a'.
    + rewrite IH. split.
      * intros (b & e & af & a' & -> & ? & ?).
        exists b, e, (af ++ [x]), a'. by rewrite <- app_assoc.
      * intros (b & e & af & a' & Heq & Hc & <-).
        destruct (Hsplit _ _ _ a' Heq) as [(-> & -> & ->)|(af' & -> & ->)].
        -- destruct Hno. eauto.
        -- by exists b, e, af', a'.
Qed.

End CoalesceFacts.

(** ** The order of strings *)

Lemma str_lt_iff (a b : string) : str_lt a b ↔ String_as_OT.lt a b.
Proof.
  unfold str_lt, String.ltb. rewrite <- String_as_OT.cmp_lt.
  unfold String_as_OT.cmp. by destruct (String.compare a b).
Qed.

Lemma str_lt_trans (a b c : string) : str_lt a b → str_lt b c → str_lt a c.
Proof. rewrite !str_lt_iff. apply String_as_OT.lt_trans. Qed.

Lemma str_lt_irrefl (a : string) : ¬ str_lt a a.
Proof. unfold str_lt. by rewrite str_ltb_irrefl. Qed.

Lemma str_lt_asym (a b : string) : str_lt a b → ¬ str_lt b a.
Proof. intros H1 H2. exact (str_lt_irrefl a (str_lt_trans _ _ _ H1 H2)). Qed.

Lemma str_lt_total (a b : string) : str_lt a b ∨ a = b ∨ str_lt b a.
Proof.
  unfold str_lt, String.ltb. rewrite (String.compare_antisym b a).
  destruct (String.compare a b) eqn:H; simpl; auto.
  right. left. by apply String_as_OT.cmp_eq.
Qed.

Lemma str_lt_cotrans (a b c : string) : str_lt a c → str_lt a b ∨ str_lt b c.
Proof.
  intros H. destruct (str_lt_total a b) as [?|[<-|?]]; eauto using str_lt_trans.
Qed.

Lemma str_ltb_false (a b : string) : String.ltb a b = false ↔ ¬ str_lt a b.
Proof. unfold str_lt. by destruct (String.ltb a b). Qed.

(** ** The sort orders by symbol, cik and removal day *)

Definition removed_day (s : Stock.t) : date := pydate_day (Stock.key_removed s).

(** The part of the record order that is a strict weak order: by symbol,
    then cik, then the day of date_removed (3000-01-01 when absent). *)
Definition stint_lt (x y : Stock.t) : Prop :=
  lex_then (str_lt (Stock.symbol x) (Stock.symbol y))
    (Stock.symbol x = Stock.symbol y)
  (lex_then (str_lt (Stock.cik x) (Stock.cik y))
    (Stock.cik x = Stock.cik y)
  (removed_day x < removed_day y)).

Definition stint_le (x y : Stock.t) : Prop := ¬ stint_lt y x.

Lemma stint_lt_cotrans (x y z : Stock.t) :
  stint_lt x z → stint_lt x y ∨ stint_lt y z.
Proof.
  unfold stint_lt, lex_then.
  intros [Hs|[Hs [Hc|[Hc Hd]]]].
  - destruct (str_lt_cotrans _ (Stock.symbol y) _ Hs); auto.
  - destruct (str_lt_total (Stock.symbol x) (Stock.symbol y)) as [?|[Hxy|?]]; auto.
    + destruct (str_lt_cotrans _ (Stock.cik y) _ Hc); auto.
      right. right. split; [congruence | auto].
    + right. left. congruence.
  - destruct (str_lt_total (Stock.symbol x) (Stock.symbol y)) as [?|[Hxy|?]]; auto.
    + destruct (str_lt_total (Stock.cik x) (Stock.cik y)) as [?|[Hcxy|?]]; auto.
      * destruct (Z.lt_ge_cases (removed_day x) (removed_day y)).
        -- left. right. split; [done|]. right. done.
        -- right. right. split; [congruence|]. right. split; [congruence | lia].
      * right. right. split; [congruence|]. left. congruence.
    + right. left. congruence.
Qed.

Lemma stint_lt_asym (x y : Stock.t) : stint_lt x y → ¬ stint_lt y x.
Proof.
  unfold stint_lt, lex_then.
  intros [Hs|[Hs [Hc|[Hc Hd]]]] [Hs'|[Hs' [Hc'|[Hc' Hd']]]];
    try (rewrite Hs in *); try (rewrite Hs' in *);
    try (rewrite Hc in *); try (rewrite Hc' in *);
    try (by eapply str_lt_irrefl); try (by eapply str_lt_asym); lia.
Qed.

#[global] Instance stint_le_trans : Transitive stint_le.
Proof.
  intros x y z Hxy Hyz Hzx. destruct (stint_lt_cotrans _ y _ Hzx); auto.
Qed.

Lemma Stock_lt_true_stint_le (x y : Stock.t) :
  Stock.__lt__ x y = Ok true → stint_le x y.
Proof.
  rewrite Stock_lt_lex. unfold stint_le, stint_lt, lex_then, removed_day.
  intros [Hs|[Hs [Hc|[Hc [Hd|[Hd _]]]]]] [Hs'|[Hs' [Hc'|[Hc' Hd']]]];
    try (rewrite Hs in *); try (rewrite Hs' in *);
    try (rewrite Hc in *); try (rewrite Hc' in *); try (rewrite Hd in *);
    try (by eapply str_lt_irrefl); try (by eapply str_lt_asym); lia.
Qed.

Lemma stint_lt_Stock_lt (x y : Stock.t) :
  stint_lt x y → Stock.__lt__ x y = Ok true.
Proof.
  rewrite Stock_lt_lex. unfold stint_lt, lex_then, removed_day.
  intros [Hs|[Hs [Hc|[Hc Hd]]]].
  - by left.
  - right. split; [done|]. by left.
  - right. split; [done|]. right. split; [done|]. by left.
Qed.

Lemma Stock_lt_false_stint_le (x y : Stock.t) :
  Stock.__lt__ x y = Ok false → stint_le y x.
Proof. intros H Hlt. apply stint_lt_Stock_lt in Hlt. congruence. Qed.

Section SortSorted.
Context {A : Type} (lt : A → A → result bool) (le : relation A).
Context `{!Transitive le}.
Hypothesis lt_true_le : ∀ x y, lt x y = Ok true → le x y.
Hypothesis lt_false_le : ∀ x y, lt x y = Ok false → le y x.

Lemma sort_insert_sorted (x : A) (l l' : list A) :
  StronglySorted le l → sort_insert lt x l = Ok l' → StronglySorted le l'.
Proof.
  intros Hl. revert l'. induction Hl as [|y l Hl IH Hy]; intros l' H; simpl in H.
  - injection H as <-. repeat constructor.
  - inv_bind H. destruct a.
    + injection H as <-. apply lt_true_le in Ha.
      constructor; [by constructor|]. constructor; [done|].
      eapply Forall_impl; [exact Hy|]. intros z Hz. by transitivity y.
    + inv_bind H. injection H as <-. apply lt_false_le in Ha.
      constructor; [by apply IH|].
      apply sort_insert_perm in Ha0. rewrite Ha0. by constructor.
Qed.

Lemma sort_into_sorted (acc l l' : list A) :
  StronglySorted le acc → sort_into lt acc l = Ok l' → StronglySorted le l'.
Proof.
  revert acc l'. induction l as [|x l IH]; intros acc l' Hacc H; simpl in H.
  - by injection H as <-.
  - inv_bind H. eapply IH; [|exact H]. by eapply sort_insert_sorted.
Qed.

Lemma sorted_StronglySorted (l l' : list A) :
  sorted lt l = Ok l' → StronglySorted le l'.
Proof. apply sort_into_sorted. constructor. Qed.
End SortSorted.

Lemma sorted_stocks_StronglySorted (l l' : list Stock.t) :
  sorted Stock.__lt__ l = Ok l' → StronglySorted stint_le l'.
Proof.
  apply sorted_StronglySorted; [apply _ | apply Stock_lt_true_stint_le
                               | apply Stock_lt_false_stint_le].
Qed.


(** ** The pending additions *)

(** [a] is the addition pending for the symbol [s]: the last record of
    [added] with that symbol. *)
Definition pending_addition (added : list Stock.t) (s : string) (a : Stock.t)
  : Prop :=
  ∃ l1 l2, added = l1 ++ a :: l2 ∧ Stock.symbol a = s
           ∧ (s ∉ (Stock.symbol <$> l2)).

Lemma make_added_map_snoc (added : list Stock.t) (x : Stock.t) :
  make_added_map (added ++ [x]) = <[Stock.symbol x := x]> (make_added_map added).
Proof. unfold make_added_map. by rewrite fold_left_app. Qed.

Lemma make_added_map_lookup (added : list Stock.t) (s : string) (a : Stock.t) :
  make_added_map added !! s = Some a ↔ pending_addition added s a.
Proof.
  unfold pending_addition.
  induction added as [|x added IH] using rev_ind.
  - unfold make_added_map; simpl. rewrite lookup_empty. split; [done|].
    intros (l1 & ? & H & _). by destruct l1.
  - rewrite make_added_map_snoc, lookup_insert.
    destruct (decide (Stock.symbol x = s)) as [Hx|Hx].
    + split.
      * intros [= ->]. exists added, []. split; [done|]. split; [done|].
        simpl. apply not_elem_of_nil.
      * intros (l1 & l2 & Heq & Hs & Hn).
        destruct l2 as [|y l2 _] using rev_ind.
        -- apply app_inj_tail in Heq as [_ ->]. done.
        -- rewrite (app_comm_cons l2 [y] a), app_assoc in Heq.
           apply app_inj_tail in Heq as [_ ->].
           destruct Hn. rewrite fmap_app, elem_of_app. right.
           simpl. rewrite Hx. by left.
    + rewrite IH. split.
      * intros (l1 & l2 & -> & Hs & Hn). exists l1, (l2 ++ [x]).
        split; [by rewrite <- app_assoc|]. split; [done|].
        rewrite fmap_app, elem_of_app. simpl. rewrite list_elem_of_singleton.
        intros [?|?]; [done | congruence].
      * intros (l1 & l2 & Heq & Hs & Hn).
        destruct l2 as [|y l2 _] using rev_ind.
        -- apply app_inj_tail in Heq as [_ ->]. done.
        -- rewrite (app_comm_cons l2 [y] a), app_assoc in Heq.
           apply app_inj_tail in Heq as [-> ->].
           exists l1, l2. split; [done|]. split; [done|].
           intros Hin. apply Hn. rewrite fmap_app, elem_of_app. by left.
Qed.

(** ** Re-entry coalescing (C6) *)

(** The claim has the inactive records processed most recent removal
    first.  The loop does so among the records of one symbol and cik; that
    it does not across two ciks of one symbol is shown on an input
    below. *)


(** The example of the specification: X removed on 2021-05-01 and added
    again on 2021-05-20 is one continuous record without removal date. *)
Example reentry_after_19_days :
  let x_removed := Stock.mk (Some (exact_date (ymd 2015 3 2)))
                     (Some (exact_date (ymd 2021 5 1))) (Some (ymd 2015 3 2))
                     "X" "X Corp" "energy" "0000000001" in
  let x_added := Stock.mk (Some (approx_date (ymd 2021 5 20))) None
                   (Some (ymd 2021 5 20)) "X" "X Corp" "energy" "0000000001" in
  let cs := Changeset.mk (Revision.mk (ymd 2021 5 20) "1000")
              [x_added] [] [] [] [x_removed] [] in
  _create_components_history cs
  = Ok [Stock.mk (Some (exact_date (ymd 2015 3 2))) None (Some (ymd 2015 3 2))
          "X" "X Corp" "energy" "0000000001"].
Proof. vm_compute. reflexivity. Qed.


(** C6, the code at the failing input: two removed stints of X under two
    ciks, removed on 2021-05-01 and 2021-05-10, and an addition of X on
    2021-05-20, within 30 days of both.  Most recent removal first, as the
    claim has it and as the comment of the loop announces ("Iterate in
    reverse so latest entry considered first"), the stint removed on
    2021-05-10 would take the addition and the other one stay as it is.
    The sort puts the cik before date_removed, so the loop meets the stint
    of the greater cik first: the stint removed on 2021-05-01 is merged
    away and the one removed on 2021-05-10 stays. *)
Lemma reentry_not_most_recent_removal_first :
  let earlier := Stock.mk (Some (exact_date (ymd 2015 3 2)))
                   (Some (exact_date (ymd 2021 5 1))) (Some (ymd 2015 3 2))
                   "X" "X Corp" "energy" "0000000002" in
  let later := Stock.mk (Some (exact_date (ymd 2018 6 1)))
                 (Some (exact_date (ymd 2021 5 10))) (Some (ymd 2018 6 1))
                 "X" "X Inc" "energy" "0000000001" in
  let x_added := Stock.mk (Some (approx_date (ymd 2021 5 20))) None
                   (Some (ymd 2021 5 20)) "X" "X Inc" "energy" "0000000001" in
  let cs := Changeset.mk (Revision.mk (ymd 2021 5 20) "1000")
              [x_added] [] [] [] [later; earlier] [] in
  removed_day earlier < removed_day later
  ∧ gap_under_30 later x_added
  ∧ ∃ ledger, _create_components_history cs = Ok ledger
              ∧ later ∈ ledger ∧ (earlier ∉ ledger)
              ∧ (Stock.with_date_removed None (_merge_stocks later x_added)
                 ∉ ledger).
Proof.
  intros earlier later x_added cs.
  split; [by vm_compute|]. split.
  - do 2 eexists. split; [reflexivity|]. split; [reflexivity|]. by vm_compute.
  - eexists. split; [vm_compute; reflexivity|].
    split; [|split].
    + apply elem_of_cons. left. vm_compute. reflexivity.
    + intros H. apply elem_of_cons in H as [H|H]; [discriminate|].
      apply elem_of_cons in H as [H|H]; [discriminate | inversion H].
    + intros H. apply elem_of_cons in H as [H|H]; [discriminate|].
      apply elem_of_cons in H as [H|H]; [discriminate | inversion H].
Qed.

(** ** Parsing a component table (C10) *)

Section ParserFacts.
Variable _to_token : string → string.
Variable _collapse_whitespace : string → string.
Variable _to_sector : string → string.
Variable _to_cik : string → string.
Variable _to_effective_date : string → result (option EffectiveDate.t).
Variable _to_date : string → result (option date).

(** The stock that the cells of one row give. *)
Definition row_stock (field_headings : list (option _StockField))
    (row : list string) : result Stock.t :=
  row_to_stock _collapse_whitespace _to_sector _to_cik _to_effective_date
    _to_date field_headings 0 row Stock.empty.

Lemma set_cell_Ok (heading : option _StockField) (value : string)
    (stock : Stock.t) :
  is_Ok (_to_effective_date value) → is_Ok (_to_date value) →
  is_Ok (set_cell _collapse_whitespace _to_sector _to_cik _to_effective_date
           _to_date heading value stock).
Proof.
  intros [d Hd] [c Hc].
  destruct heading as [[]|]; simpl; rewrite ?Hd, ?Hc; by eexists.
Qed.

(** A row is converted when it is no wider than the headings and the
    converters of dates return on its cells. *)
Lemma row_to_stock_Ok field_headings (idx : nat) (row : list string) stock :
  (idx + length row ≤ length field_headings)%nat →
  Forall (fun value => is_Ok (_to_effective_date value) ∧ is_Ok (_to_date value))
    row →
  is_Ok (row_to_stock _collapse_whitespace _to_sector _to_cik _to_effective_date
           _to_date field_headings idx row stock).
Proof.
  intros Hlen Hrow. revert idx stock Hlen.
  induction Hrow as [|value row [He Hd] _ IH]; intros idx stock Hlen;
    simpl in *; [by eexists|].
  destruct (lookup_lt_is_Some_2 field_headings idx) as [h ->]; [lia|].
  destruct (set_cell_Ok h value stock He Hd) as [stock' ->]. simpl.
  apply IH. lia.
Qed.

(** Every row of [rows] is converted, to the stocks [parsed], in order. *)
Definition rows_parsed field_headings (rows : list (list string))
    (parsed : list Stock.t) : Prop :=
  Forall2 (fun row s => row_stock field_headings row = Ok s) rows parsed.

Lemma rows_parsed_exists field_headings (rows : list (list string)) :
  Forall (fun row => (length row ≤ length field_headings)%nat) rows →
  Forall (Forall (fun value => is_Ok (_to_effective_date value)
                               ∧ is_Ok (_to_date value))) rows →
  ∃ parsed, rows_parsed field_headings rows parsed.
Proof.
  induction 1 as [|row rows Hrow _ IH]; intros Hcells;
    [by exists []; constructor|].
  apply Forall_cons in Hcells as [Hcell Hcells].
  destruct (IH Hcells) as [parsed Hparsed].
  destruct (row_to_stock_Ok field_headings 0 row Stock.empty) as [s Hs];
    [simpl; lia | done |].
  exists (s :: parsed). by constructor.
Qed.

Definition has_symbol (s : Stock.t) : bool := truthy (Stock.symbol s).

Lemma rows_to_stocks_parsed field_headings rows parsed stocks (row_count : nat) :
  rows_parsed field_headings rows parsed →
  rows_to_stocks _collapse_whitespace _to_sector _to_cik _to_effective_date
    _to_date field_headings rows stocks row_count
  = Ok (stocks ++ List.filter has_symbol parsed, (row_count + length rows)%nat).
Proof.
  intros H. revert stocks row_count.
  induction H as [|row s rows parsed Hs _ IH]; intros stocks row_count; simpl.
  - by rewrite app_nil_r, Nat.add_0_r.
  - unfold row_stock in Hs. rewrite Hs. simpl. rewrite IH. unfold has_symbol.
    destruct (truthy (Stock.symbol s)); simpl;
      rewrite <- ?app_assoc; repeat f_equal; lia.
Qed.

(** The first row that is not converted ends the loop with its
    exception. *)
Lemma rows_to_stocks_not_parsed field_headings before row after parsed stocks
    (row_count : nat) (e : exn) :
  rows_parsed field_headings before parsed →
  row_stock field_headings row = Raise e →
  rows_to_stocks _collapse_whitespace _to_sector _to_cik _to_effective_date
    _to_date field_headings (before ++ row :: after) stocks row_count
  = Raise e.
Proof.
  intros H Hrow. revert stocks row_count.
  induction H as [|r s rows parsed Hs _ IH]; intros stocks row_count; simpl.
  - unfold row_stock in Hrow. by rewrite Hrow.
  - unfold row_stock in Hs. rewrite Hs. simpl. apply IH.
Qed.

Lemma filter_has_symbol_length (parsed : list Stock.t) :
  (length (List.filter has_symbol parsed) ≤ length parsed)%nat
  ∧ ((∃ s, s ∈ parsed ∧ Stock.symbol s = EmptyString) →
     (length (List.filter has_symbol parsed) < length parsed)%nat)
  ∧ ((length (List.filter has_symbol parsed) = length parsed)%nat →
     List.filter has_symbol parsed = parsed).
Proof.
  induction parsed as [|s parsed (IH1 & IH2 & IH3)]; simpl.
  - split; [lia|]. split; [|done]. intros (s & Hs & _). inversion Hs.
  - destruct (has_symbol s) eqn:Hsym; simpl.
    + split; [lia|]. split; [|intros; f_equal; apply IH3; lia].
      intros (s' & Hs' & He). apply elem_of_cons in Hs' as [Hs'|Hs'].
      * subst s'. exfalso. revert Hsym. unfold has_symbol, truthy. by rewrite He.
      * assert (length (List.filter has_symbol parsed) < length parsed)%nat
          by eauto. lia.
    + split; [lia|]. split; [lia|]. lia.
Qed.

Lemma has_symbol_nonempty (s : Stock.t) :
  has_symbol s = true → Stock.symbol s ≠ EmptyString.
Proof. unfold has_symbol, truthy. intros H He. by rewrite He in H. Qed.

(** What the parse is once every row is converted. *)
Lemma csv_to_stocks_parsed (header_row : list string)
    (rows : list (list string)) (revision : option Revision.t)
    (parsed : list Stock.t) :
  let field_headings :=
    (fun heading => _MATCH_STOCK_FIELD !! _to_token heading) <$> header_row in
  found_fields field_headings ∩ required_fields = required_fields →
  rows_parsed field_headings rows parsed →
  _csv_to_stocks _to_token _collapse_whitespace _to_sector _to_cik
    _to_effective_date _to_date (header_row :: rows) revision
  = if (length (List.filter has_symbol parsed) <? length rows)%nat
    then Raise (UpdateError
                  ("Found "
                   +:+ pretty (length rows
                               - length (List.filter has_symbol parsed))%nat
                   +:+ " rows without symbols") revision)
    else sorted Stock.__lt__ (List.filter has_symbol parsed).
Proof.
  intros field_headings Hheader Hparsed.
  unfold _csv_to_stocks. fold field_headings.
  rewrite bool_decide_true by done. simpl.
  by rewrite (rows_to_stocks_parsed _ _ _ _ _ Hparsed).
Qed.

(** C10, amended: on a table whose header passes validation and whose
    rows are all converted, the parse raises [UpdateError] for the whole
    snapshot as soon as one row yields an empty symbol, no such row being
    skipped; and a list that is returned holds every row, each with a
    non-empty symbol, sorted by symbol, cik and day of removal. *)
Theorem csv_rows_without_symbol_rejected
    (header_row : list string) (rows : list (list string))
    (revision : option Revision.t) (parsed : list Stock.t) :
  let field_headings :=
    (fun heading => _MATCH_STOCK_FIELD !! _to_token heading) <$> header_row in
  let parse :=
    _csv_to_stocks _to_token _collapse_whitespace _to_sector _to_cik
      _to_effective_date _to_date (header_row :: rows) revision in
  found_fields field_headings ∩ required_fields = required_fields →
  rows_parsed field_headings rows parsed →
  ((∃ s, s ∈ parsed ∧ Stock.symbol s = EmptyString) →
   ∃ msg, parse = Raise (UpdateError msg revision))
  ∧ (∀ stocks, parse = Ok stocks →
       stocks ≡ₚ parsed
       ∧ Forall (fun s => Stock.symbol s ≠ EmptyString) stocks
       ∧ StronglySorted stint_le stocks).
Proof.
  intros field_headings parse Hheader Hparsed.
  pose proof (filter_has_symbol_length parsed) as (Hle & Hlt & Heq).
  pose proof (csv_to_stocks_parsed header_row rows revision parsed
                Hheader Hparsed) as Hparse.
  fold parse in Hparse.
  pose proof (Forall2_length _ _ _ Hparsed) as Hlen.
  split.
  - intros Hempty. apply Hlt in Hempty. rewrite Hparse.
    destruct (Nat.ltb_spec (length (List.filter has_symbol parsed)) (length rows));
      [by eexists | lia].
  - intros stocks Hok. rewrite Hparse in Hok.
    destruct (Nat.ltb_spec (length (List.filter has_symbol parsed)) (length rows));
      [done|].
    rewrite Heq in Hok by lia.
    pose proof (sorted_perm _ _ _ Hok) as Hperm.
    split; [done|]. split.
    + rewrite Hperm, <- Heq by lia. apply Forall_forall. intros s Hs.
      apply list_elem_of_In, filter_In in Hs as [_ Hs].
      by apply has_symbol_nonempty.
    + by eapply sorted_stocks_StronglySorted.
Qed.

End ParserFacts.

Lemma csv_rows_without_symbol_rejected_witness :
  let _to_cik := fun s : string => s in
  let _to_effective_date :=
    fun _ : string => Ok (@None EffectiveDate.t) in
  let _to_date := fun _ : string => Ok (@None date) in
  let header_row := ["Symbol"; "Security"; "GICS Sector"] in
  let rows := [["MSFT"; "Microsoft"; "Information Technology"];
               ["NYSE: BRK.A"; "Berkshire Hathaway"; "Financials"]] in
  let parsed :=
    [Stock.mk None None None "MSFT" "Microsoft" "information_technology"
       EmptyString;
     Stock.mk None None None "BRK.B" "Berkshire Hathaway" "financials"
       EmptyString] in
  let parse :=
    _csv_to_stocks _to_token _collapse_whitespace _to_sector _to_cik
      _to_effective_date _to_date (header_row :: rows) None in
  ((∃ s, s ∈ parsed ∧ Stock.symbol s = EmptyString) →
   ∃ msg, parse = Raise (UpdateError msg None))
  ∧ (∀ stocks, parse = Ok stocks →
       stocks ≡ₚ parsed
       ∧ Forall (fun s => Stock.symbol s ≠ EmptyString) stocks
       ∧ StronglySorted stint_le stocks).
Proof.
  intros _to_cik _to_effective_date _to_date header_row rows parsed parse.
  apply (csv_rows_without_symbol_rejected _to_token _collapse_whitespace
           _to_sector _to_cik _to_effective_date _to_date header_row rows None
           parsed).
  - vm_compute. reflexivity.
  - constructor; [vm_compute; reflexivity|].
    constructor; [vm_compute; reflexivity|]. constructor.
Defined.

(** C10, counterexample: the header passes validation and the second data
    row has no symbol, but it is one cell wider than the header:
    [field_headings[idx]] raises [IndexError] at its last cell, before the
    rows without symbol are counted, and no [UpdateError] is raised. *)
Lemma csv_wide_row_without_symbol_not_rejected :
  let header_row := ["Symbol"; "Security"; "GICS Sector"] in
  let rows := [["MSFT"; "Microsoft"; "Information Technology"];
               [EmptyString; "Nameless"; "Energy"; "a note"]] in
  found_fields ((fun heading => _MATCH_STOCK_FIELD !! _to_token heading)
                  <$> header_row) ∩ required_fields = required_fields
  ∧ _to_symbol EmptyString = EmptyString
  ∧ _csv_to_stocks _to_token _collapse_whitespace _to_sector (fun s => s)
      (fun _ => Ok None) (fun _ => Ok None) (header_row :: rows) None
    = Raise IndexError.
Proof. split; [|split]; vm_compute; reflexivity. Qed.

(** So does a date that makes its converter raise, as [dt.date] does with
    [OverflowError] for a year beyond the range of a C [int]: the row has
    no symbol, and the parse lets the exception of the converter out. *)
Lemma csv_date_overflow_not_rejected :
  let _to_date := fun s : string =>
    if String.eqb s "2147483648-01-01" then Raise OverflowError
    else Ok (@None date) in
  let header_row := ["Symbol"; "Security"; "GICS Sector"; "Date added"] in
  let rows := [[EmptyString; "Nameless"; "Energy"; "2147483648-01-01"]] in
  found_fields ((fun heading => _MATCH_STOCK_FIELD !! _to_token heading)
                  <$> header_row) ∩ required_fields = required_fields
  ∧ _csv_to_stocks _to_token _collapse_whitespace _to_sector (fun s => s)
      (_to_effective_date _to_date) _to_date (header_row :: rows) None
    = Raise OverflowError.
Proof. split; vm_compute; reflexivity. Qed.

(** The rows above parse to the two stocks in sorted order, the alias of
    the second symbol applied; a row without symbol fails the parse. *)
Example csv_two_rows :
  _csv_to_stocks _to_token _collapse_whitespace _to_sector (fun s => s)
    (fun _ => Ok None) (fun _ => Ok None)
    [["Symbol"; "Security"; "GICS Sector"];
     ["MSFT"; "Microsoft"; "Information Technology"];
     ["NYSE: BRK.A"; "Berkshire Hathaway"; "Financials"]] None
  = Ok [Stock.mk None None None "BRK.B" "Berkshire Hathaway" "financials" EmptyString;
        Stock.mk None None None "MSFT" "Microsoft" "information_technology"
          EmptyString].
Proof. vm_compute. reflexivity. Qed.

Example csv_row_without_symbol :
  _csv_to_stocks _to_token _collapse_whitespace _to_sector (fun s => s)
    (fun _ => Ok None) (fun _ => Ok None)
    [["Symbol"; "Security"; "GICS Sector"];
     ["MSFT"; "Microsoft"; "Information Technology"];
     ["brk.a"; "Berkshire Hathaway"; "Financials"]] None
  = Raise (UpdateError "Found 1 rows without symbols" None).
Proof. vm_compute. reflexivity. Qed.

(** ** Idempotence of reconciliation (C8) *)

(** *** The merges are idempotent *)

Lemma merge_effective_date_idem (o l : EffectiveDate.t) :
  _merge_effective_date (_merge_effective_date o l) l = _merge_effective_date o l.
Proof.
  destruct o as [od [|]], l as [ld [|]]; unfold _merge_effective_date; simpl;
    try reflexivity.
  - destruct (Z.ltb_spec (ld - od) 30); simpl.
    + by rewrite Z.sub_diag.
    + by destruct (Z.ltb_spec (ld - od) 30); [lia|].
Qed.

Lemma merge_effective_date_self (d : EffectiveDate.t) :
  _merge_effective_date d d = d.
Proof. unfold _merge_effective_date. by repeat case_match. Qed.

Lemma str_or_idem (l o : string) : str_or l (str_or l o) = str_or l o.
Proof. unfold str_or. by destruct (truthy l) eqn:H; rewrite ?H. Qed.

Lemma str_or_self (l : string) : str_or l l = l.
Proof. unfold str_or. by destruct (truthy l). Qed.

Lemma str_or_same (l o : string) : o = l → str_or l o = l.
Proof. intros ->. apply str_or_self. Qed.

Lemma opt_or_idem {A} (l o : option A) : opt_or l (opt_or l o) = opt_or l o.
Proof. by destruct l. Qed.

Lemma merge_stocks_symbol (o l : Stock.t) :
  Stock.symbol (_merge_stocks o l) = str_or (Stock.symbol l) (Stock.symbol o).
Proof. unfold _merge_stocks. by repeat case_match. Qed.

Lemma merge_stocks_date_removed_None (o l : Stock.t) :
  Stock.date_removed o = None → Stock.date_removed l = None →
  Stock.date_removed (_merge_stocks o l) = None.
Proof. unfold _merge_stocks. intros -> ->. by repeat case_match. Qed.

Lemma merge_stocks_idem (o l : Stock.t) :
  _merge_stocks (_merge_stocks o l) l = _merge_stocks o l.
Proof.
  destruct o as [oa or oc os on ox ok], l as [la lr lc ls ln lx lk].
  unfold _merge_stocks; simpl.
  destruct oa as [oa|], la as [la|], or as [or|], lr as [lr|],
    oc as [oc|], lc as [lc|]; simpl;
    rewrite ?merge_effective_date_idem, ?merge_effective_date_self, ?str_or_idem;
    reflexivity.
Qed.

Lemma Stock_eq_refl (x : Stock.t) : Stock.__eq__ x x = Ok true.
Proof.
  unfold Stock.__eq__. rewrite !String.eqb_refl. simpl.
  destruct (Stock.date_removed x), (Stock.date_added x); simpl;
    rewrite ?EffectiveDate_eq_refl; simpl; by rewrite ?String.eqb_refl.
Qed.

Lemma Stock_ne_refl (x : Stock.t) : Stock.__ne__ x x = Ok false.
Proof. unfold Stock.__ne__. by rewrite Stock_eq_refl. Qed.

(** The record that an addition of [l] on [date] is, when no override
    applies. *)
Definition added_of (date : date) (l : Stock.t) : Stock.t :=
  Stock.with_created_at (Some date)
    (Stock.with_date_added
       (opt_or (Stock.date_added l) (Some (EffectiveDate.from_date date true))) l).

Lemma merge_added_self (date : date) (l : Stock.t) :
  Stock.date_removed l = None →
  _merge_stocks (added_of date l) l = added_of date l.
Proof.
  destruct l as [la lr lc ls ln lx lk]. simpl. intros ->.
  unfold _merge_stocks, added_of; simpl.
  destruct la as [la|], lc as [lc|]; simpl;
    rewrite ?merge_effective_date_self, ?str_or_self; reflexivity.
Qed.

Lemma merge_coalesced_self (date : date) (e l : Stock.t) :
  Stock.date_removed l = None →
  _merge_stocks
    (Stock.with_date_removed None (_merge_stocks e (added_of date l))) l
  = Stock.with_date_removed None (_merge_stocks e (added_of date l)).
Proof.
  destruct l as [la lr lc ls ln lx lk], e as [ea er ec es en ex ek].
  simpl. intros ->. unfold _merge_stocks, added_of; simpl.
  destruct la as [la|], lc as [lc|], ea as [ea|], er as [er|], ec as [ec|]; simpl;
    rewrite ?merge_effective_date_idem, ?merge_effective_date_self, ?str_or_idem;
    reflexivity.
Qed.

(** *** A resolved removal date resolves to itself *)

Lemma closest_in_self dates date_ref c :
  closest_in dates date_ref c → closest_in dates c c.
Proof.
  intros (before & after & -> & Hb & Ha). exists before, after.
  split; [done|]. unfold distance in *. split.
  - intros d Hd. specialize (Hb d Hd). lia.
  - intros d _. lia.
Qed.

Lemma find_closest_removal_date_fixed removals date_ref c :
  _find_closest_removal_date removals date_ref = Some c →
  _find_closest_removal_date removals c = Some c.
Proof.
  intros H.
  pose proof (find_closest_removal_date_spec removals date_ref) as Hs.
  rewrite H in Hs. apply closest_in_self in Hs.
  pose proof (find_closest_removal_date_spec removals c) as Hc.
  destruct (_find_closest_removal_date removals c) as [c'|].
  - f_equal. by eapply closest_in_unique.
  - destruct Hs as (b & a & Hd & _). rewrite Hc in Hd. by destruct b.
Qed.

(** The resolver looks at the symbol and the date_added of the record
    only. *)
Lemma get_date_removed_with_date_removed v e removals date_stand_in :
  _get_date_removed (Stock.with_date_removed v e) removals date_stand_in
  = _get_date_removed e removals date_stand_in.
Proof. reflexivity. Qed.

Lemma get_date_removed_eq e removals date_stand_in :
  _get_date_removed e removals date_stand_in =
  match _find_closest_removal_date (symbol_events removals e) date_stand_in,
        Stock.date_added e with
  | Some c, Some a =>
      if EffectiveDate.day a <=? EffectiveDate.day c then c
      else if EffectiveDate.day date_stand_in <? EffectiveDate.day a
      then approx_date (EffectiveDate.day a)
      else date_stand_in
  | None, Some a =>
      if EffectiveDate.day date_stand_in <? EffectiveDate.day a
      then approx_date (EffectiveDate.day a)
      else date_stand_in
  | _, None => date_stand_in
  end.
Proof. unfold _get_date_removed. by rewrite get_date_removed_closest. Qed.

Lemma get_date_removed_stable (e : Stock.t)
    (removals : gmap string (list _RemovalHistory.t))
    (date_stand_in : EffectiveDate.t) :
  (∀ a, Stock.date_added e = Some a →
        EffectiveDate.day a ≤ EffectiveDate.day date_stand_in
        ∨ EffectiveDate.day a
          < EffectiveDate.day (_get_date_removed e removals date_stand_in)) →
  _get_date_removed e removals (_get_date_removed e removals date_stand_in)
  = _get_date_removed e removals date_stand_in.
Proof.
  pose proof (get_date_removed_eq e removals date_stand_in) as Hu.
  set (u := _get_date_removed e removals date_stand_in) in *.
  intros Hcond. rewrite (get_date_removed_eq e removals u).
  destruct (_find_closest_removal_date (symbol_events removals e) date_stand_in)
    as [c|] eqn:Hc; destruct (Stock.date_added e) as [a|] eqn:Ha.
  - destruct (Z.leb_spec (EffectiveDate.day a) (EffectiveDate.day c)) as [Hle|Hlt].
    + rewrite Hu, (find_closest_removal_date_fixed _ _ _ Hc).
      by destruct (Z.leb_spec (EffectiveDate.day a) (EffectiveDate.day c)); [|lia].
    + destruct (Z.ltb_spec (EffectiveDate.day date_stand_in) (EffectiveDate.day a))
        as [Hsa|Hsa].
      * destruct (Hcond a eq_refl) as [?|H]; [lia | rewrite Hu in H; simpl in H; lia].
      * rewrite Hu, Hc.
        destruct (Z.leb_spec (EffectiveDate.day a) (EffectiveDate.day c)); [lia|].
        by destruct (Z.ltb_spec (EffectiveDate.day date_stand_in)
                       (EffectiveDate.day a)); [lia|].
  - by destruct (_find_closest_removal_date (symbol_events removals e) u).
  - destruct (Z.ltb_spec (EffectiveDate.day date_stand_in) (EffectiveDate.day a))
      as [Hsa|Hsa].
    + destruct (Hcond a eq_refl) as [?|H]; [lia | rewrite Hu in H; simpl in H; lia].
    + rewrite Hu, Hc.
      by destruct (Z.ltb_spec (EffectiveDate.day date_stand_in)
                     (EffectiveDate.day a)); [lia|].
  - by destruct (_find_closest_removal_date (symbol_events removals e) u).
Qed.

(** *** What the merge-join puts in its four lists *)

Lemma str_ltb_neither (a b : string) :
  String.ltb a b = false → String.ltb b a = false → a = b.
Proof.
  intros H1 H2. destruct (str_lt_total a b) as [H|[H|H]]; [|done|];
    unfold str_lt in H; congruence.
Qed.

Section JoinFacts.
Variable _BACKFILLS : gmap string (list Stock.t).
Variable removals : gmap string (list _RemovalHistory.t).
Variable date : date.

(** No override applies. *)
Hypothesis no_backfill :
  ∀ stock omit_removal, _backfill _BACKFILLS stock omit_removal = stock.

Definition stand_in : EffectiveDate.t := EffectiveDate.from_date date true.

(** The record that the removal of [o] is, when no override applies. *)
Definition removed_of (o : Stock.t) : Stock.t :=
  Stock.with_date_removed (Some (_get_date_removed o removals stand_in)) o.

Lemma make_added_no_backfill (l : Stock.t) :
  make_added _BACKFILLS date stand_in l = added_of date l.
Proof. unfold make_added. by rewrite no_backfill. Qed.

Lemma make_removed_no_backfill (o : Stock.t) :
  make_removed _BACKFILLS removals stand_in o = removed_of o.
Proof. unfold make_removed. by rewrite no_backfill. Qed.

Definition is_added (latest : list Stock.t) (x : Stock.t) : Prop :=
  ∃ l, l ∈ latest ∧ x = added_of date l.
Definition is_removed (old : list Stock.t) (x : Stock.t) : Prop :=
  ∃ o, o ∈ old ∧ x = removed_of o.
Definition is_updated (old latest : list Stock.t) (x : Stock.t) : Prop :=
  ∃ o l, o ∈ old ∧ l ∈ latest ∧ Stock.symbol o = Stock.symbol l
         ∧ x = _merge_stocks o l.
Definition is_unchanged (old latest : list Stock.t) (x : Stock.t) : Prop :=
  ∃ l, x ∈ old ∧ l ∈ latest ∧ Stock.symbol x = Stock.symbol l
       ∧ Stock.__ne__ (_merge_stocks x l) x = Ok false.

Definition join_members (old latest : list Stock.t) (j : join_lists) : Prop :=
  Forall (is_added latest) (join_added j)
  ∧ Forall (is_removed old) (join_removed j)
  ∧ Forall (is_updated old latest) (join_updated j)
  ∧ Forall (is_unchanged old latest) (join_unchanged j).

Lemma join_members_weaken old latest old' latest' j :
  old ⊆ old' → latest ⊆ latest' →
  join_members old latest j → join_members old' latest' j.
Proof.
  intros Ho Hl (Ha & Hr & Hu & Hn). repeat split.
  - eapply Forall_impl; [exact Ha|]. intros x (l & ? & ?). exists l. auto.
  - eapply Forall_impl; [exact Hr|]. intros x (o & ? & ?). exists o. auto.
  - eapply Forall_impl; [exact Hu|]. intros x (o & l & ? & ? & ?).
    exists o, l. auto.
  - eapply Forall_impl; [exact Hn|]. intros x (l & ? & ? & ?). exists l. auto.
Qed.

Definition join_symbols (j : join_lists) : list string :=
  (Stock.symbol <$> join_added j) ++ (Stock.symbol <$> join_updated j)
  ++ (Stock.symbol <$> join_unchanged j).

Lemma join_latest_only (latest : list Stock.t) :
  join _BACKFILLS removals date stand_in [] latest
  = Ok (mk_join (added_of date <$> latest) [] [] []).
Proof.
  induction latest as [|l latest IH]; [done|].
  simpl in *. rewrite IH. simpl. unfold push_added. simpl.
  by rewrite make_added_no_backfill.
Qed.

Lemma join_old_only (old : list Stock.t) :
  join _BACKFILLS removals date stand_in old []
  = Ok (mk_join [] (removed_of <$> old) [] []).
Proof.
  induction old as [|o old IH]; [done|].
  simpl in *. rewrite IH. simpl. unfold push_removed. simpl.
  by rewrite make_removed_no_backfill.
Qed.

Lemma join_cons_cons (o l : Stock.t) (old latest : list Stock.t) :
  join _BACKFILLS removals date stand_in (o :: old) (l :: latest) =
  if String.ltb (Stock.symbol o) (Stock.symbol l) then
    j ← join _BACKFILLS removals date stand_in old (l :: latest);
    Ok (push_removed (make_removed _BACKFILLS removals stand_in o) j)
  else if String.ltb (Stock.symbol l) (Stock.symbol o) then
    j ← join _BACKFILLS removals date stand_in (o :: old) latest;
    Ok (push_added (make_added _BACKFILLS date stand_in l) j)
  else
    changed ← Stock.__ne__ (_merge_stocks o l) o;
    j ← join _BACKFILLS removals date stand_in old latest;
    Ok (if changed : bool then push_updated (_merge_stocks o l) j
        else push_unchanged o j).
Proof. reflexivity. Qed.

Lemma subseteq_cons_r {A} (x : A) (l : list A) : l ⊆ x :: l.
Proof. intros y Hy. by right. Qed.

Lemma join_spec (old latest : list Stock.t) (j : join_lists) :
  join _BACKFILLS removals date stand_in old latest = Ok j →
  join_members old latest j ∧ join_symbols j ≡ₚ Stock.symbol <$> latest.
Proof.
  revert latest j. induction old as [|o old IHo]; intros latest j.
  { rewrite join_latest_only. intros [= <-]. unfold join_members, join_symbols.
    simpl. rewrite app_nil_r. split; [|by rewrite <- list_fmap_compose].
    split; [|by split; [|split]; constructor].
    apply Forall_forall. intros x Hx.
    apply list_elem_of_fmap in Hx as (l & -> & Hl). by exists l. }
  revert j. induction latest as [|l latest IHl]; intros j H.
  { rewrite join_old_only in H. injection H as <-.
    unfold join_members, join_symbols. split; [|done].
    split; [constructor|]. split; [|by split; constructor].
    cbn [join_removed]. apply Forall_forall. intros x Hx.
    change (x ∈ removed_of <$> (o :: old)) in Hx.
    apply list_elem_of_fmap in Hx as (o' & -> & Ho'). by exists o'. }
  rewrite join_cons_cons in H.
  destruct (String.ltb (Stock.symbol o) (Stock.symbol l)) eqn:Hlt.
  - inv_bind H. injection H as <-. rewrite make_removed_no_backfill.
    destruct (IHo _ _ Ha) as [Hm Hs]. split; [|exact Hs].
    apply (join_members_weaken _ _ (o :: old) (l :: latest)) in Hm;
      [|apply subseteq_cons_r|done].
    destruct Hm as (? & ? & ? & ?). split; [done|]. split; [|done].
    cbn [join_removed push_removed]. constructor; [|done].
    exists o. split; [by left | done].
  - destruct (String.ltb (Stock.symbol l) (Stock.symbol o)) eqn:Hgt.
    + inv_bind H. injection H as <-. rewrite make_added_no_backfill.
      destruct (IHl _ Ha) as [Hm Hs]. split.
      * apply (join_members_weaken _ _ (o :: old) (l :: latest)) in Hm;
          [|done|apply subseteq_cons_r].
        destruct Hm as (? & ? & ? & ?). split; [|done].
        cbn [join_added push_added]. constructor; [|done].
        exists l. split; [by left | done].
      * unfold join_symbols in *. cbn [join_added join_updated join_unchanged
          push_added] in *. rewrite fmap_cons. simpl. by rewrite Hs.
    + pose proof (str_ltb_neither _ _ Hlt Hgt) as Hsym.
      inv_bind H. inv_bind H. injection H as <-.
      destruct (IHo _ _ Ha0) as [Hm Hs].
      apply (join_members_weaken _ _ (o :: old) (l :: latest)) in Hm;
        [|apply subseteq_cons_r|apply subseteq_cons_r].
      destruct Hm as (Hm1 & Hm2 & Hm3 & Hm4).
      unfold join_symbols in *. destruct a; split.
      * split; [done|]. split; [done|]. split; [|done].
        cbn [join_updated push_updated]. constructor; [|done].
        exists o, l. repeat split; try done; by left.
      * cbn [join_added join_updated join_unchanged push_updated].
        rewrite !fmap_cons, merge_stocks_symbol, (str_or_same _ _ Hsym).
        rewrite <- Hs. simpl. symmetry. apply Permutation_middle.
      * split; [done|]. split; [done|]. split; [done|].
        cbn [join_unchanged push_unchanged]. constructor; [|done].
        exists l. repeat split; try done; by left.
      * cbn [join_added join_updated join_unchanged push_unchanged].
        rewrite !fmap_cons, Hsym, <- Hs.
        rewrite !(assoc_L (++)). symmetry. apply Permutation_middle.
Qed.

End JoinFacts.

(** *** A join of two lists that agree symbol by symbol *)

Lemma join_matched _BACKFILLS removals date date_stand_in
    (old latest : list Stock.t) :
  Forall2 (fun o l => Stock.symbol o = Stock.symbol l
                      ∧ Stock.__ne__ (_merge_stocks o l) o = Ok false)
    old latest →
  join _BACKFILLS removals date date_stand_in old latest
  = Ok (mk_join [] [] [] old).
Proof.
  induction 1 as [|o l old latest [Hs Hne] _ IH]; [done|].
  change (join _BACKFILLS removals date date_stand_in (o :: old) (l :: latest))
    with (if String.ltb (Stock.symbol o) (Stock.symbol l) then
            j ← join _BACKFILLS removals date date_stand_in old (l :: latest);
            Ok (push_removed (make_removed _BACKFILLS removals date_stand_in o) j)
          else if String.ltb (Stock.symbol l) (Stock.symbol o) then
            j ← join _BACKFILLS removals date date_stand_in (o :: old) latest;
            Ok (push_added (make_added _BACKFILLS date date_stand_in l) j)
          else
            changed ← Stock.__ne__ (_merge_stocks o l) o;
            j ← join _BACKFILLS removals date date_stand_in old latest;
            Ok (if changed : bool then push_updated (_merge_stocks o l) j
                else push_unchanged o j)).
  rewrite Hs, str_ltb_irrefl, Hne, IH. reflexivity.
Qed.

(** *** Lists without duplicates have no duplicates to report *)

Lemma find_duplicates_fold (items : list string) (seen dupes : gset string) :
  NoDup items → (∀ x, x ∈ items → x ∉ seen) →
  snd (fold_left
         (fun (st : gset string * gset string) item =>
            if bool_decide (item ∈ fst st) then (fst st, {[item]} ∪ snd st)
            else ({[item]} ∪ fst st, snd st))
         items (seen, dupes)) = dupes.
Proof.
  intros Hnd. revert seen. induction Hnd as [|x items Hx _ IH]; intros seen Hs;
    [done|].
  simpl. rewrite bool_decide_false by (apply Hs; by left).
  apply IH. intros y Hy. rewrite not_elem_of_union, not_elem_of_singleton.
  split; [by intros -> | apply Hs; by right].
Qed.

Lemma find_duplicates_NoDup (items : list string) :
  NoDup items → _find_duplicates items = ∅.
Proof.
  intros H. apply find_duplicates_fold; [done|]. intros x _. apply not_elem_of_empty.
Qed.

(** *** More on the coalescing loop *)

Definition active (s : Stock.t) : bool :=
  negb (bool_decide (is_Some (Stock.date_removed s))).

Lemma active_true (s : Stock.t) : active s = true ↔ Stock.date_removed s = None.
Proof.
  unfold active. rewrite negb_true_iff, bool_decide_eq_false.
  destruct (Stock.date_removed s) as [d|].
  - split; [|done]. intros []. eauto.
  - split; [done|]. by intros _ [? ?].
Qed.

Lemma active_false (s : Stock.t) : active s = false ↔ is_Some (Stock.date_removed s).
Proof. unfold active. by rewrite negb_false_iff, bool_decide_eq_true. Qed.

Lemma filter_Permutation_proper {A} (f : A → bool) (l l' : list A) :
  l ≡ₚ l' → List.filter f l ≡ₚ List.filter f l'.
Proof.
  induction 1 as [|x l l' _ IH|x y l|l l' l'' _ IH1 _ IH2]; simpl.
  - done.
  - destruct (f x); by rewrite IH.
  - destruct (f x), (f y); try done. apply Permutation_swap.
  - by rewrite IH1.
Qed.

Lemma filter_all {A} (f : A → bool) (l : list A) :
  Forall (fun x => f x = true) l → List.filter f l = l.
Proof. induction 1 as [|x l Hx _ IH]; simpl; [done|]. by rewrite Hx, IH. Qed.

Lemma filter_none {A} (f : A → bool) (l : list A) :
  Forall (fun x => f x = false) l → List.filter f l = [].
Proof. induction 1 as [|x l Hx _ IH]; simpl; [done|]. by rewrite Hx, IH. Qed.

Section CoalesceMore.
Variable added_map : gmap string Stock.t.

(** Every record the loop emits is a record it met, or the merge of one
    with the addition pending for its symbol. *)
Lemma coalesced_origin (met : list Stock.t) :
  Forall (fun x => x ∈ met
                   ∨ ∃ e a, e ∈ met ∧ added_map !! Stock.symbol e = Some a
                            ∧ x = Stock.with_date_removed None (_merge_stocks e a))
    (snd (coalesced added_map met)).
Proof.
  induction met as [|e met IH] using rev_ind; [constructor|].
  assert (Forall (fun x => x ∈ met ++ [e]
                   ∨ ∃ e' a, e' ∈ met ++ [e]
                             ∧ added_map !! Stock.symbol e' = Some a
                             ∧ x = Stock.with_date_removed None (_merge_stocks e' a))
            (snd (coalesced added_map met))) as IH'.
  { eapply Forall_impl; [exact IH|]. intros x [?|(e' & a & ? & ? & ?)].
    - left. apply elem_of_app. by left.
    - right. exists e', a. split; [apply elem_of_app; by left | done]. }
  destruct (coalesce_step_cases added_map met e) as [(a & Ha & ->)|(_ & ->)];
    simpl; apply Forall_app; (split; [done|]); apply Forall_singleton.
  - right. exists e, a. split; [apply elem_of_app; right; by left|].
    by destruct Ha.
  - left. apply elem_of_app. right. by left.
Qed.

Lemma coalesced_active_symbols (met : list Stock.t) :
  Forall (fun e => is_Some (Stock.date_removed e)) met →
  (∀ s a, added_map !! s = Some a → Stock.symbol a = s) →
  Stock.symbol <$> List.filter active (snd (coalesced added_map met))
  ≡ₚ elements (fst (coalesced added_map met)).
Proof.
  intros Hmet Hmap. induction met as [|e met IH] using rev_ind.
  - unfold coalesced. simpl. by rewrite elements_empty.
  - apply Forall_app in Hmet as [Hmet He]. rewrite Forall_singleton in He.
    specialize (IH Hmet).
    destruct (coalesce_step_cases added_map met e) as [(a & Ha & ->)|(_ & ->)];
      simpl; rewrite List.filter_app, fmap_app, IH; simpl.
    + destruct Ha as (Hlook & Hfresh & _).
      rewrite elements_union_singleton by done.
      rewrite merge_stocks_symbol, (Hmap _ _ Hlook), str_or_self.
      rewrite (Hmap _ _ Hlook) in Hfresh. simpl.
      symmetry. rewrite (Permutation_cons_append (elements _)). done.
    + apply active_false in He. rewrite He. simpl. by rewrite app_nil_r.
Qed.

End CoalesceMore.

(** *** The differ, taken apart *)

Lemma split_history_old removals (components_history : list Stock.t) :
  split_old (split_history removals components_history)
  = List.filter active components_history.
Proof. unfold split_history. simpl. apply split_old_active. Qed.

Lemma diff_lists_Ok_inv _BACKFILLS components_history latest revision removals cs :
  _diff_lists _BACKFILLS components_history latest revision removals = Ok cs →
  ∃ j,
    join _BACKFILLS removals (Revision.ny_date revision)
      (EffectiveDate.from_date (Revision.ny_date revision) true)
      (List.filter active components_history) latest = Ok j
    ∧ cs = Changeset.mk revision (join_added j) (join_removed j) (join_updated j)
             (join_unchanged j)
             (rev (split_inactive (scanned removals components_history)))
             (rev (split_inactive_updated (scanned removals components_history))).
Proof.
  unfold _diff_lists. rewrite split_history_old.
  repeat case_match; try discriminate.
  intros Hj. inv_bind Hj. injection Hj as <-. by exists a.
Qed.

Lemma diff_lists_Ok_intro _BACKFILLS components_history latest revision removals j :
  NoDup (Stock.symbol <$> List.filter active components_history) →
  NoDup (Stock.symbol <$> latest) →
  join _BACKFILLS removals (Revision.ny_date revision)
    (EffectiveDate.from_date (Revision.ny_date revision) true)
    (List.filter active components_history) latest = Ok j →
  _diff_lists _BACKFILLS components_history latest revision removals
  = Ok (Changeset.mk revision (join_added j) (join_removed j) (join_updated j)
          (join_unchanged j)
          (rev (split_inactive (scanned removals components_history)))
          (rev (split_inactive_updated (scanned removals components_history)))).
Proof.
  intros Hold Hlatest Hj. unfold _diff_lists. rewrite split_history_old.
  rewrite !find_duplicates_NoDup by done.
  rewrite bool_decide_true by done. simpl. by rewrite Hj.
Qed.

(** *** Lists *)

Lemma NoDup_fmap_eq {A B} (f : A → B) (l : list A) (x y : A) :
  NoDup (f <$> l) → x ∈ l → y ∈ l → f x = f y → x = y.
Proof.
  induction l as [|z l IH]; intros Hnd Hx Hy Hf; [inversion Hx|].
  rewrite fmap_cons in Hnd. apply NoDup_cons in Hnd as [Hz Hnd].
  apply elem_of_cons in Hx as [->|Hx]; apply elem_of_cons in Hy as [->|Hy].
  - done.
  - destruct Hz. rewrite Hf. apply list_elem_of_fmap. eauto.
  - destruct Hz. rewrite <- Hf. apply list_elem_of_fmap. eauto.
  - by apply IH.
Qed.

Lemma fmap_eq_Forall2 {A B} (f : A → B) (l1 l2 : list A) :
  f <$> l1 = f <$> l2 → Forall2 (fun x y => f x = f y) l1 l2.
Proof.
  revert l2. induction l1 as [|x l1 IH]; intros [|y l2] H; try discriminate;
    [constructor|].
  injection H as Hxy H. constructor; [done | by apply IH].
Qed.

Lemma Forall2_impl_elem {A B} (P Q : A → B → Prop) (l1 : list A) (l2 : list B) :
  Forall2 P l1 l2 →
  (∀ x y, x ∈ l1 → y ∈ l2 → P x y → Q x y) →
  Forall2 Q l1 l2.
Proof.
  induction 1 as [|x y l1 l2 Hxy _ IH]; intros H; constructor.
  - apply H; [by left | by left | done].
  - apply IH. intros u v Hu Hv. apply H; by right.
Qed.

Lemma StronglySorted_filter {A} (R : relation A) (f : A → bool) (l : list A) :
  StronglySorted R l → StronglySorted R (List.filter f l).
Proof.
  induction 1 as [|x l _ IH Hx]; simpl; [constructor|].
  destruct (f x); [|done]. constructor; [done|].
  apply Forall_forall. intros y Hy.
  apply list_elem_of_In, filter_In in Hy as [Hy _].
  rewrite Forall_forall in Hx. by apply Hx, list_elem_of_In.
Qed.

Lemma elem_of_filter_bool {A} (f : A → bool) (l : list A) (x : A) :
  x ∈ List.filter f l ↔ x ∈ l ∧ f x = true.
Proof. by rewrite !list_elem_of_In, filter_In. Qed.

Lemma NoDup_fmap_filter {A B} (f : A → B) (p : A → bool) (l : list A) :
  NoDup (f <$> l) → NoDup (f <$> List.filter p l).
Proof.
  induction l as [|x l IH]; simpl; [done|].
  rewrite ?fmap_cons. intros [Hx Hnd]%NoDup_cons. destruct (p x); [|by apply IH].
  rewrite ?fmap_cons. apply NoDup_cons. split; [|by apply IH].
  intros (y & Hy & [Hin _]%elem_of_filter_bool)%list_elem_of_fmap.
  apply Hx. apply list_elem_of_fmap. eauto.
Qed.

(** The order of symbols that a sorted ledger has. *)
Definition symbol_le (a b : string) : Prop := ¬ str_lt b a.

Lemma stint_le_symbol_le (x y : Stock.t) :
  stint_le x y → symbol_le (Stock.symbol x) (Stock.symbol y).
Proof. intros H Hlt. apply H. by left. Qed.

Lemma symbol_le_antisym (a b : string) : symbol_le a b → symbol_le b a → a = b.
Proof.
  unfold symbol_le. intros H1 H2.
  by destruct (str_lt_total a b) as [?|[?|?]].
Qed.

Lemma sorted_by_symbol_NoDup (l : list Stock.t) :
  StronglySorted (fun x y => str_lt (Stock.symbol x) (Stock.symbol y)) l →
  NoDup (Stock.symbol <$> l).
Proof.
  induction 1 as [|x l _ IH Hx]; [constructor|].
  rewrite fmap_cons. apply NoDup_cons. split; [|exact IH].
  intros (y & Hy & Hin)%list_elem_of_fmap. rewrite Forall_forall in Hx.
  specialize (Hx y Hin). rewrite Hy in Hx. by eapply str_lt_irrefl.
Qed.

Lemma symbols_split (added : list Stock.t) (consumed : gset string) :
  NoDup (Stock.symbol <$> added) →
  (∀ s, s ∈ consumed → s ∈ (Stock.symbol <$> added)) →
  Stock.symbol <$> added ≡ₚ
    (Stock.symbol <$>
       List.filter (fun s => negb (bool_decide (Stock.symbol s ∈ consumed))) added)
    ++ elements consumed.
Proof.
  intros Hnd Hsub. apply NoDup_Permutation; [done| |].
  - apply NoDup_app. split; [by apply NoDup_fmap_filter|].
    split; [|apply NoDup_elements].
    intros s (a & -> & [_ Ha]%elem_of_filter_bool)%list_elem_of_fmap.
    rewrite elem_of_elements.
    by apply negb_true_iff, bool_decide_eq_false in Ha.
  - intros s. rewrite elem_of_app, elem_of_elements. split.
    + intros (a & -> & Ha)%list_elem_of_fmap.
      destruct (decide (Stock.symbol a ∈ consumed)) as [?|Hn]; [by right|].
      left. apply list_elem_of_fmap. exists a. split; [done|].
      apply elem_of_filter_bool. split; [done|].
      by apply negb_true_iff, bool_decide_eq_false.
    + intros [(a & -> & [Ha _]%elem_of_filter_bool)%list_elem_of_fmap|Hs].
      * apply list_elem_of_fmap. eauto.
      * by apply Hsub.
Qed.

Lemma no_inactive_updated removals (l : list Stock.t) :
  (∀ x d, x ∈ l → Stock.date_removed x = Some d →
          _get_date_removed x removals d = d) →
  split_inactive_updated (scanned removals l) = [].
Proof.
  intros Hsettled.
  destruct (split_inactive_updated (scanned removals l)) as [|x rest] eqn:Heq;
    [done|].
  assert (x ∈ split_inactive_updated (scanned removals l)) as Hx
    by (rewrite Heq; by left).
  apply split_inactive_updated_elem in Hx
    as (before & e & after & d & Hl & (Hd & _ & Hne) & _).
  destruct Hne. apply Hsettled; [|done].
  rewrite Hl, elem_of_app. right. by left.
Qed.

(** *** The conditions of idempotence *)

(** No override applies in a diff: the Override Applier returns every
    record that the diff hands to it as it is, so that the diff is the one
    of the empty table. *)
Definition overrides_idle (_BACKFILLS : gmap string (list Stock.t))
    (ledger snapshot : list Stock.t) (revision : Revision.t)
    (removals : gmap string (list _RemovalHistory.t)) : Prop :=
  _diff_lists _BACKFILLS ledger snapshot revision removals
  = _diff_lists ∅ ledger snapshot revision removals.

(** The snapshot is sorted by symbol, the symbols being distinct. *)
Definition in_symbol_order (snapshot : list Stock.t) : Prop :=
  StronglySorted (fun x y => str_lt (Stock.symbol x) (Stock.symbol y)) snapshot.

(** The snapshot holds active records only. *)
Definition all_active (snapshot : list Stock.t) : Prop :=
  Forall (fun l => Stock.date_removed l = None) snapshot.

(** No ledger record was removed before it was added. *)
Definition dates_in_order (ledger : list Stock.t) : Prop :=
  ∀ e a r, e ∈ ledger → Stock.date_added e = Some a →
           Stock.date_removed e = Some r →
           EffectiveDate.day a ≤ EffectiveDate.day r.

(** A removed ledger record that a later record of its symbol follows
    stores the removal date that the resolver gives it. *)
Definition older_stints_resolved
    (removals : gmap string (list _RemovalHistory.t)) (ledger : list Stock.t)
  : Prop :=
  ∀ before e after d,
    ledger = before ++ e :: after → Stock.date_removed e = Some d →
    Stock.symbol e ∈ (Stock.symbol <$> after) →
    _get_date_removed e removals d = d.

Lemma backfill_empty (stock : Stock.t) (omit_removal : bool) :
  _backfill ∅ stock omit_removal = stock.
Proof. unfold _backfill. by rewrite lookup_empty. Qed.

(** *** The second diff *)

Section Idempotence.
Variable _BACKFILLS : gmap string (list Stock.t).
Variable removals : gmap string (list _RemovalHistory.t).
Variable revision : Revision.t.
Variables ledger snapshot ledger' : list Stock.t.
Variable cs : Changeset.t.

(** No override applies in the first diff. *)
Hypothesis no_override :
  _diff_lists _BACKFILLS ledger snapshot revision removals
  = _diff_lists ∅ ledger snapshot revision removals.
(** The snapshot is sorted by symbol, the symbols being distinct. *)
Hypothesis snapshot_sorted :
  StronglySorted (fun x y => str_lt (Stock.symbol x) (Stock.symbol y)) snapshot.
(** The snapshot holds active records only. *)
Hypothesis snapshot_active :
  Forall (fun l => Stock.date_removed l = None) snapshot.
(** No ledger record was removed before it was added. *)
Hypothesis ledger_consistent :
  ∀ e a r, e ∈ ledger → Stock.date_added e = Some a →
           Stock.date_removed e = Some r →
           EffectiveDate.day a ≤ EffectiveDate.day r.
(** A removed ledger record that a later record of its symbol follows
    stores the removal date that the resolver gives it. *)
Hypothesis older_stints_settled :
  ∀ before e after d,
    ledger = before ++ e :: after → Stock.date_removed e = Some d →
    Stock.symbol e ∈ (Stock.symbol <$> after) →
    _get_date_removed e removals d = d.
(** The first diff and the rebuild. *)
Hypothesis first_diff :
  _diff_lists _BACKFILLS ledger snapshot revision removals = Ok cs.
Hypothesis rebuilt : _create_components_history cs = Ok ledger'.

Let day0 : date := Revision.ny_date revision.
Let old : list Stock.t := List.filter active ledger.

Lemma snapshot_NoDup : NoDup (Stock.symbol <$> snapshot).
Proof. by apply sorted_by_symbol_NoDup. Qed.

Lemma snapshot_record_active (l : Stock.t) :
  l ∈ snapshot → Stock.date_removed l = None.
Proof. intros Hl. rewrite Forall_forall in snapshot_active. by apply snapshot_active. Qed.

Lemma snapshot_same_symbol (l l' : Stock.t) :
  l ∈ snapshot → l' ∈ snapshot → Stock.symbol l = Stock.symbol l' → l = l'.
Proof. apply NoDup_fmap_eq, snapshot_NoDup. Qed.

Lemma old_active (o : Stock.t) : o ∈ old → Stock.date_removed o = None.
Proof. intros [_ H]%elem_of_filter_bool. by apply active_true. Qed.

(** The lists of the first changeset. *)
Lemma first_changeset :
  Changeset.revision cs = revision
  ∧ Forall (is_added day0 snapshot) (Changeset.added cs)
  ∧ Forall (is_removed removals day0 old) (Changeset.removed cs)
  ∧ Forall (is_updated old snapshot) (Changeset.updated cs)
  ∧ Forall (is_unchanged old snapshot) (Changeset.unchanged cs)
  ∧ (Stock.symbol <$> Changeset.added cs) ++ (Stock.symbol <$> Changeset.updated cs)
    ++ (Stock.symbol <$> Changeset.unchanged cs) ≡ₚ Stock.symbol <$> snapshot
  ∧ Changeset.inactive cs = rev (split_inactive (scanned removals ledger))
  ∧ Changeset.inactive_updated cs
    = rev (split_inactive_updated (scanned removals ledger)).
Proof.
  pose proof first_diff as Hdiff. rewrite no_override in Hdiff.
  destruct (diff_lists_Ok_inv _ _ _ _ _ _ Hdiff) as (j & Hj & ->).
  apply (join_spec _ removals day0 backfill_empty) in Hj as [(? & ? & ? & ?) ?].
  simpl. repeat split; done.
Qed.

Lemma added_record_active (x : Stock.t) :
  x ∈ Changeset.added cs → Stock.date_removed x = None.
Proof.
  destruct first_changeset as (_ & Ha & _). rewrite Forall_forall in Ha.
  intros (l & Hl & ->)%Ha. simpl. by apply snapshot_record_active.
Qed.

Lemma updated_record_active (x : Stock.t) :
  x ∈ Changeset.updated cs → Stock.date_removed x = None.
Proof.
  destruct first_changeset as (_ & _ & _ & Hu & _). rewrite Forall_forall in Hu.
  intros (o & l & Ho & Hl & _ & ->)%Hu.
  apply merge_stocks_date_removed_None;
    [by apply old_active | by apply snapshot_record_active].
Qed.

Lemma unchanged_record_active (x : Stock.t) :
  x ∈ Changeset.unchanged cs → Stock.date_removed x = None.
Proof.
  destruct first_changeset as (_ & _ & _ & _ & Hn & _). rewrite Forall_forall in Hn.
  intros (l & Ho & _)%Hn. by apply old_active.
Qed.

Lemma elem_of_ledger_filter (x : Stock.t) : x ∈ old → x ∈ ledger.
Proof. by intros [? _]%elem_of_filter_bool. Qed.

(** A record removed by the first diff and kept by the rebuild stores a
    removal date that resolves to itself. *)
Lemma removed_record_settled (x : Stock.t) (d : EffectiveDate.t) :
  x ∈ Changeset.removed cs →
  keeps_removed (Changeset.revision cs) x = true →
  Stock.date_removed x = Some d →
  _get_date_removed x removals d = d.
Proof.
  destruct first_changeset as (_ & _ & Hr & _). rewrite Forall_forall in Hr.
  intros (o & Ho & ->)%Hr Hkeep Hd. unfold removed_of in *. simpl in Hd.
  injection Hd as <-. rewrite get_date_removed_with_date_removed.
  apply get_date_removed_stable. intros a Ha. right.
  apply keeps_removed_spec in Hkeep as (r & a' & c & Hr' & Ha' & _ & Hlong & _).
  simpl in Hr', Ha'. rewrite Ha in Ha'. injection Ha' as <-. injection Hr' as <-.
  fold (stand_in day0). lia.
Qed.

(** So does every removed record that the first diff found in the ledger. *)
Lemma inactive_record_settled (x : Stock.t) (d : EffectiveDate.t) :
  x ∈ Changeset.inactive cs ++ Changeset.inactive_updated cs →
  Stock.date_removed x = Some d →
  _get_date_removed x removals d = d.
Proof.
  destruct first_changeset as (_ & _ & _ & _ & _ & _ & -> & ->).
  rewrite elem_of_app, !elem_of_rev_iff.
  rewrite split_inactive_elem, split_inactive_updated_elem.
  intros [(before & after & d' & Hl & Hd' & Hwhy)
         |(before & e & after & d' & Hl & (Hd' & _ & _) & ->)] Hd.
  - rewrite Hd in Hd'. injection Hd' as <-.
    destruct Hwhy as [Hseen|Hsame]; [|done].
    by eapply older_stints_settled.
  - simpl in Hd. injection Hd as <-. rewrite get_date_removed_with_date_removed.
    apply get_date_removed_stable. intros a Ha. left.
    eapply ledger_consistent; [|exact Ha|exact Hd'].
    rewrite Hl, elem_of_app. right. by left.
Qed.

Lemma inactive_record_removed (x : Stock.t) :
  x ∈ Changeset.inactive cs ++ Changeset.inactive_updated cs →
  is_Some (Stock.date_removed x).
Proof.
  destruct first_changeset as (_ & _ & _ & _ & _ & _ & -> & ->).
  rewrite elem_of_app, !elem_of_rev_iff.
  rewrite split_inactive_elem, split_inactive_updated_elem.
  intros [(before & after & d' & Hl & Hd' & Hwhy)
         |(before & e & after & d' & Hl & (Hd' & _ & _) & ->)]; simpl; eauto.
Qed.

(** The rebuilt ledger, in parts. *)
Let added_map : gmap string Stock.t := make_added_map (Changeset.added cs).

Lemma rebuilt_parts :
  ∃ previous,
    previous ≡ₚ Changeset.inactive cs ++ Changeset.inactive_updated cs
    ∧ StronglySorted stint_le ledger'
    ∧ let st := coalesced added_map (rev previous) in
      ledger' ≡ₚ
        List.filter (fun s => negb (bool_decide (Stock.symbol s ∈ fst st)))
          (Changeset.added cs)
        ++ List.filter (keeps_removed (Changeset.revision cs)) (Changeset.removed cs)
        ++ Changeset.updated cs ++ Changeset.unchanged cs ++ snd st.
Proof.
  destruct (create_components_history_parts _ _ rebuilt) as (previous & Hp & H).
  exists previous. split; [by apply sorted_perm in Hp|]. split; [|exact H].
  pose proof rebuilt as Hr. unfold _create_components_history in Hr.
  rewrite Hp in Hr. simpl in Hr. by apply sorted_stocks_StronglySorted in Hr.
Qed.

Lemma added_map_symbol (s : string) (a : Stock.t) :
  added_map !! s = Some a → Stock.symbol a = s ∧ a ∈ Changeset.added cs.
Proof.
  intros (l1 & l2 & Hl & Hs & _)%make_added_map_lookup. split; [done|].
  rewrite Hl, elem_of_app. right. by left.
Qed.

(** Every removed record of the rebuilt ledger stores a removal date that
    resolves to itself. *)
Lemma rebuilt_record_settled (x : Stock.t) (d : EffectiveDate.t) :
  x ∈ ledger' → Stock.date_removed x = Some d →
  _get_date_removed x removals d = d.
Proof.
  destruct rebuilt_parts as (previous & Hprev & _ & Hperm). simpl in Hperm.
  rewrite Hperm, !elem_of_app, !elem_of_filter_bool.
  intros [[Hx _]|[[Hx Hk]|[Hx|[Hx|Hx]]]] Hd.
  - apply added_record_active in Hx. congruence.
  - by apply removed_record_settled.
  - apply updated_record_active in Hx. congruence.
  - apply unchanged_record_active in Hx. congruence.
  - pose proof (coalesced_origin added_map (rev previous)) as Ho.
    rewrite Forall_forall in Ho.
    destruct (Ho x Hx) as [Hmet|(e & a & _ & _ & ->)]; [|done].
    apply inactive_record_settled; [|done].
    by rewrite <- Hprev, <- elem_of_rev_iff.
Qed.

(** Every active record of the rebuilt ledger merges with the snapshot
    record of its symbol into itself. *)
Lemma rebuilt_record_merged (o l : Stock.t) :
  o ∈ ledger' → Stock.date_removed o = None →
  l ∈ snapshot → Stock.symbol o = Stock.symbol l →
  Stock.__ne__ (_merge_stocks o l) o = Ok false.
Proof.
  destruct rebuilt_parts as (previous & Hprev & _ & Hperm). simpl in Hperm.
  destruct first_changeset as (Hrev & Ha & Hr & Hu & Hn & _).
  rewrite Forall_forall in Ha, Hr, Hu, Hn.
  rewrite Hperm, !elem_of_app, !elem_of_filter_bool.
  intros [[Hx _]|[[Hx Hk]|[Hx|[Hx|Hx]]]] Hd Hl Hs.
  - destruct (Ha _ Hx) as (l0 & Hl0 & ->).
    assert (l0 = l) as -> by (by apply snapshot_same_symbol).
    rewrite merge_added_self by (by apply snapshot_record_active).
    apply Stock_ne_refl.
  - destruct (Hr _ Hx) as (o0 & _ & ->). discriminate.
  - destruct (Hu _ Hx) as (o0 & l0 & _ & Hl0 & Hs0 & ->).
    assert (l0 = l) as ->.
    { apply snapshot_same_symbol; [done..|].
      by rewrite <- Hs, merge_stocks_symbol, (str_or_same _ _ Hs0). }
    rewrite merge_stocks_idem. apply Stock_ne_refl.
  - destruct (Hn _ Hx) as (l0 & _ & Hl0 & Hs0 & Hne).
    assert (l0 = l) as -> by (apply snapshot_same_symbol; congruence).
    done.
  - pose proof (coalesced_origin added_map (rev previous)) as Ho.
    rewrite Forall_forall in Ho.
    destruct (Ho o Hx) as [Hmet|(e & a & _ & Hlook & ->)].
    + assert (is_Some (Stock.date_removed o)) as [? ?]; [|congruence].
      apply inactive_record_removed. by rewrite <- Hprev, <- elem_of_rev_iff.
    + apply added_map_symbol in Hlook as [Hsym Hin].
      destruct (Ha _ Hin) as (l0 & Hl0 & ->).
      assert (l0 = l) as ->.
      { apply snapshot_same_symbol; [done..|].
        rewrite <- Hs. simpl. rewrite merge_stocks_symbol.
        simpl in Hsym. by rewrite <- Hsym, str_or_self. }
      rewrite merge_coalesced_self by (by apply snapshot_record_active).
      apply Stock_ne_refl.
Qed.

(** The active records of the rebuilt ledger carry the symbols of the
    snapshot, each once. *)
Lemma rebuilt_active_symbols :
  Stock.symbol <$> List.filter active ledger' ≡ₚ Stock.symbol <$> snapshot.
Proof.
  destruct rebuilt_parts as (previous & Hprev & _ & Hperm). simpl in Hperm.
  destruct first_changeset as (Hrev & Ha & Hr & Hu & Hn & Hsym & _).
  rewrite (filter_Permutation_proper _ _ _ Hperm).
  rewrite !List.filter_app, !fmap_app.
  rewrite (filter_all active (List.filter _ (Changeset.added cs))).
  2:{ apply Forall_forall. intros x [Hx _]%elem_of_filter_bool.
      by apply active_true, added_record_active. }
  rewrite (filter_none active (List.filter _ (Changeset.removed cs))).
  2:{ apply Forall_forall. intros x [Hx _]%elem_of_filter_bool.
      rewrite Forall_forall in Hr. destruct (Hr _ Hx) as (o & _ & ->).
      apply active_false. simpl. eauto. }
  rewrite (filter_all active (Changeset.updated cs)).
  2:{ apply Forall_forall. intros x Hx. by apply active_true, updated_record_active. }
  rewrite (filter_all active (Changeset.unchanged cs)).
  2:{ apply Forall_forall. intros x Hx. by apply active_true, unchanged_record_active. }
  rewrite (coalesced_active_symbols added_map (rev previous)).
  2:{ apply Forall_forall. intros x Hx. apply inactive_record_removed.
      by rewrite <- Hprev, <- elem_of_rev_iff. }
  2:{ intros s a Hs. by apply added_map_symbol in Hs as [? _]. }
  rewrite <- Hsym. simpl.
  rewrite (symbols_split (Changeset.added cs)
             (fst (coalesced added_map (rev previous)))).
  - rewrite <- !(assoc_L (++)). apply Permutation_app_head.
    rewrite (Permutation_app_comm (elements _)).
    by rewrite <- !(assoc_L (++)).
  - pose proof snapshot_NoDup as Hnd. rewrite <- Hsym in Hnd.
    by apply NoDup_app in Hnd as [? _].
  - intros s (before & e & after & a & _ & (Hlook & _) & <-)%coalesced_exclusion.
    apply added_map_symbol in Hlook as [_ Hin].
    apply list_elem_of_fmap. eauto.
Qed.

(** The second diff, against the rebuilt ledger, finds nothing to do. *)
Lemma second_diff :
  ∃ cs2,
    _diff_lists _BACKFILLS ledger' snapshot revision removals = Ok cs2
    ∧ Changeset.added cs2 = [] ∧ Changeset.removed cs2 = []
    ∧ Changeset.updated cs2 = [] ∧ Changeset.inactive_updated cs2 = [].
Proof.
  destruct rebuilt_parts as (previous & _ & Hsorted & _).
  assert (Stock.symbol <$> List.filter active ledger' = Stock.symbol <$> snapshot)
    as Hsymbols.
  { apply (StronglySorted_unique_strong symbol_le).
    - intros a b _ _. apply symbol_le_antisym.
    - apply (StronglySorted_fmap _ stint_le); [apply stint_le_symbol_le|].
      by apply StronglySorted_filter.
    - eapply StronglySorted_fmap; [|exact snapshot_sorted].
      intros x y Hxy. by apply str_lt_asym.
    - apply rebuilt_active_symbols. }
  assert (Forall2 (fun o l => Stock.symbol o = Stock.symbol l
                              ∧ Stock.__ne__ (_merge_stocks o l) o = Ok false)
            (List.filter active ledger') snapshot) as Hpairs.
  { eapply Forall2_impl_elem; [exact (fmap_eq_Forall2 _ _ _ Hsymbols)|].
    intros o l [Ho Hact]%elem_of_filter_bool Hl Hs. split; [done|].
    apply rebuilt_record_merged; try done. by apply active_true. }
  eexists. split.
  - apply diff_lists_Ok_intro.
    + rewrite Hsymbols. apply snapshot_NoDup.
    + apply snapshot_NoDup.
    + by apply join_matched.
  - simpl. repeat split; try done.
    rewrite no_inactive_updated; [done|]. apply rebuilt_record_settled.
Qed.

End Idempotence.

(** C8, counterexample: X has an older stint whose stored removal date is
    an estimate that the removal events correct, and an active stint four
    days old.  The snapshot drops X: the first diff skips the older stint
    (the active one is the latest entry of X) and the rebuild drops the
    removal as ephemeral.  Against the rebuilt ledger the older stint is the
    latest entry of X, and the second diff corrects its removal date. *)
Lemma second_diff_updates_older_stint :
  let x_old := Stock.mk (Some (exact_date (ymd 2015 1 1)))
                 (Some (approx_date (ymd 2020 6 1))) (Some (ymd 2015 1 1))
                 "X" "X Corp" "energy" "0000000001" in
  let x_new := Stock.mk (Some (exact_date (ymd 2021 1 1))) None
                 (Some (ymd 2021 1 4)) "X" "X Corp" "energy" "0000000001" in
  let y := Stock.mk (Some (exact_date (ymd 2010 1 1))) None (Some (ymd 2010 1 1))
             "Y" "Y Corp" "energy" "0000000002" in
  let ledger := [x_old; x_new; y] in
  let snapshot := [Stock.mk None None None "Y" "Y Corp" "energy" "0000000002"] in
  let removals : gmap string (list _RemovalHistory.t) :=
    {[ "X" := [_RemovalHistory.mk (Some (exact_date (ymd 2020 5 28))) "X"] ]} in
  let revision := Revision.mk (ymd 2021 1 5) "1000" in
  ∃ cs1 ledger' cs2,
    _diff_lists ∅ ledger snapshot revision removals = Ok cs1
    ∧ _create_components_history cs1 = Ok ledger'
    ∧ _diff_lists ∅ ledger' snapshot revision removals = Ok cs2
    ∧ Changeset.inactive_updated cs2
      = [Stock.with_date_removed (Some (exact_date (ymd 2020 5 28))) x_old].
Proof.
  do 3 eexists. split; [vm_compute; reflexivity|].
  split; [vm_compute; reflexivity|]. split; vm_compute; reflexivity.
Qed.

(** *** Each condition of idempotence is needed *)

(** The conditions on a concrete ledger. *)
Ltac dates_in_order_by_cases :=
  let e := fresh "e" in
  let a := fresh "a" in
  let r := fresh "r" in
  let He := fresh "He" in
  let Ha := fresh "Ha" in
  let Hr := fresh "Hr" in
  intros e a r He Ha Hr;
  repeat (apply elem_of_cons in He as [->|He]);
  try (by inversion He);
  vm_compute in Ha, Hr; try discriminate;
  injection Ha as <-; injection Hr as <-; vm_compute; discriminate.

Lemma dates_in_order_nil : dates_in_order [].
Proof. intros e a r He. inversion He. Qed.

Lemma older_stints_resolved_nil removals : older_stints_resolved removals [].
Proof. intros [|? ?] e after d Hl; discriminate Hl. Qed.

Lemma older_stints_resolved_singleton removals (x : Stock.t) :
  older_stints_resolved removals [x].
Proof.
  intros [|b before] e after d Hl Hd Hin.
  - injection Hl as <- <-. inversion Hin.
  - injection Hl as _ Hl. destruct before; discriminate Hl.
Qed.

(** In the counterexample above the four other conditions hold: the one
    broken is that of the older stint of X. *)
Lemma older_stint_other_conditions :
  let x_old := Stock.mk (Some (exact_date (ymd 2015 1 1)))
                 (Some (approx_date (ymd 2020 6 1))) (Some (ymd 2015 1 1))
                 "X" "X Corp" "energy" "0000000001" in
  let x_new := Stock.mk (Some (exact_date (ymd 2021 1 1))) None
                 (Some (ymd 2021 1 4)) "X" "X Corp" "energy" "0000000001" in
  let y := Stock.mk (Some (exact_date (ymd 2010 1 1))) None (Some (ymd 2010 1 1))
             "Y" "Y Corp" "energy" "0000000002" in
  let ledger := [x_old; x_new; y] in
  let snapshot := [Stock.mk None None None "Y" "Y Corp" "energy" "0000000002"] in
  let removals : gmap string (list _RemovalHistory.t) :=
    {[ "X" := [_RemovalHistory.mk (Some (exact_date (ymd 2020 5 28))) "X"] ]} in
  let revision := Revision.mk (ymd 2021 1 5) "1000" in
  overrides_idle ∅ ledger snapshot revision removals
  ∧ in_symbol_order snapshot ∧ all_active snapshot ∧ dates_in_order ledger
  ∧ ¬ older_stints_resolved removals ledger.
Proof.
  intros x_old x_new y ledger snapshot removals revision.
  split; [reflexivity|]. split; [repeat constructor|].
  split; [repeat constructor|]. split; [dates_in_order_by_cases|].
  intros H.
  specialize (H [] x_old [x_new; y] (approx_date (ymd 2020 6 1))
                eq_refl eq_refl).
  assert (Stock.symbol x_old ∈ Stock.symbol <$> [x_new; y]) as Hin
    by (apply elem_of_cons; left; reflexivity).
  apply H in Hin. vm_compute in Hin. discriminate Hin.
Qed.

(** An override that applies: the table gives X another name.  The first
    diff adds X under the name of the table; the second diff merges the
    snapshot into that record and finds the name changed. *)
Lemma override_breaks_idempotence :
  let snapshot := [Stock.mk None None None "X" "X Corp" "energy" "0000000001"] in
  let overrides : gmap string (list Stock.t) :=
    {[ "X" := [Stock.mk (Some (exact_date (ymd 2000 1 1)))
                 (Some (exact_date (ymd 2030 1 1))) None
                 "X" "X Holdings" "energy" "0000000001"] ]} in
  let revision := Revision.mk (ymd 2021 1 5) "1000" in
  ¬ overrides_idle overrides [] snapshot revision ∅
  ∧ in_symbol_order snapshot ∧ all_active snapshot ∧ dates_in_order []
  ∧ older_stints_resolved ∅ []
  ∧ ∃ cs1 ledger' cs2,
      _diff_lists overrides [] snapshot revision ∅ = Ok cs1
      ∧ _create_components_history cs1 = Ok ledger'
      ∧ _diff_lists overrides ledger' snapshot revision ∅ = Ok cs2
      ∧ Changeset.updated cs2
        = [Stock.mk (Some (exact_date (ymd 2000 1 1))) None (Some (ymd 2021 1 5))
             "X" "X Corp" "energy" "0000000001"].
Proof.
  intros snapshot overrides revision.
  split; [intros H; vm_compute in H; discriminate H|].
  split; [repeat constructor|]. split; [repeat constructor|].
  split; [apply dates_in_order_nil|].
  split; [apply older_stints_resolved_nil|].
  do 3 eexists. split; [vm_compute; reflexivity|].
  split; [vm_compute; reflexivity|]. split; vm_compute; reflexivity.
Qed.

(** A snapshot that is not in symbol order: the rebuilt ledger is sorted,
    and the merge-join of the second diff, which takes both lists as
    sorted, removes A and adds it again. *)
Lemma unsorted_snapshot_breaks_idempotence :
  let a := Stock.mk None None None "A" "A Corp" "energy" "0000000001" in
  let b := Stock.mk None None None "B" "B Corp" "energy" "0000000002" in
  let snapshot := [b; a] in
  let revision := Revision.mk (ymd 2021 1 5) "1000" in
  overrides_idle ∅ [] snapshot revision ∅
  ∧ ¬ in_symbol_order snapshot ∧ all_active snapshot ∧ dates_in_order []
  ∧ older_stints_resolved ∅ []
  ∧ ∃ cs1 ledger' cs2,
      _diff_lists ∅ [] snapshot revision ∅ = Ok cs1
      ∧ _create_components_history cs1 = Ok ledger'
      ∧ _diff_lists ∅ ledger' snapshot revision ∅ = Ok cs2
      ∧ Stock.symbol <$> Changeset.added cs2 = ["A"]
      ∧ Stock.symbol <$> Changeset.removed cs2 = ["A"].
Proof.
  intros a b snapshot revision.
  split; [reflexivity|]. split.
  { intros H. apply StronglySorted_inv in H as [_ H].
    apply Forall_cons in H as [H _]. vm_compute in H. discriminate H. }
  split; [repeat constructor|].
  split; [apply dates_in_order_nil|].
  split; [apply older_stints_resolved_nil|].
  do 3 eexists. split; [vm_compute; reflexivity|].
  split; [vm_compute; reflexivity|].
  split; [vm_compute; reflexivity|]. split; vm_compute; reflexivity.
Qed.

(** A snapshot record with a removal date: it enters the ledger as it is,
    and the second diff takes it for a removed stint, re-dates its removal,
    and adds the snapshot record once more. *)
Lemma removed_in_snapshot_breaks_idempotence :
  let a := Stock.mk None (Some (exact_date (ymd 2020 1 1))) None
             "A" "A Corp" "energy" "0000000001" in
  let snapshot := [a] in
  let revision := Revision.mk (ymd 2021 1 5) "1000" in
  overrides_idle ∅ [] snapshot revision ∅
  ∧ in_symbol_order snapshot ∧ ¬ all_active snapshot ∧ dates_in_order []
  ∧ older_stints_resolved ∅ []
  ∧ ∃ cs1 ledger' cs2,
      _diff_lists ∅ [] snapshot revision ∅ = Ok cs1
      ∧ _create_components_history cs1 = Ok ledger'
      ∧ _diff_lists ∅ ledger' snapshot revision ∅ = Ok cs2
      ∧ Stock.symbol <$> Changeset.added cs2 = ["A"]
      ∧ Stock.date_removed <$> Changeset.inactive_updated cs2
        = [Some (approx_date (ymd 2021 1 5))].
Proof.
  intros a snapshot revision.
  split; [reflexivity|]. split; [repeat constructor|]. split.
  { intros H. apply Forall_cons in H as [H _]. discriminate H. }
  split; [apply dates_in_order_nil|].
  split; [apply older_stints_resolved_nil|].
  do 3 eexists. split; [vm_compute; reflexivity|].
  split; [vm_compute; reflexivity|].
  split; [vm_compute; reflexivity|]. split; vm_compute; reflexivity.
Qed.

(** A ledger record removed before it was added: the first diff moves its
    removal to the day of its addition, marked approximate, the removal
    event nearest to the stored date being before the addition; from that
    day the nearest event is another one, after the addition, and the
    second diff moves the removal again. *)
Lemma dates_out_of_order_break_idempotence :
  let x := Stock.mk (Some (exact_date (ymd 2021 1 1)))
             (Some (exact_date (ymd 2010 1 1))) (Some (ymd 2010 1 1))
             "X" "X Corp" "energy" "0000000001" in
  let removals : gmap string (list _RemovalHistory.t) :=
    {[ "X" := [_RemovalHistory.mk (Some (exact_date (ymd 2009 1 1))) "X";
               _RemovalHistory.mk (Some (exact_date (ymd 2021 6 1))) "X"] ]} in
  let revision := Revision.mk (ymd 2021 1 5) "1000" in
  overrides_idle ∅ [x] [] revision removals
  ∧ in_symbol_order [] ∧ all_active [] ∧ ¬ dates_in_order [x]
  ∧ older_stints_resolved removals [x]
  ∧ ∃ cs1 ledger' cs2,
      _diff_lists ∅ [x] [] revision removals = Ok cs1
      ∧ _create_components_history cs1 = Ok ledger'
      ∧ ledger' = [Stock.with_date_removed (Some (approx_date (ymd 2021 1 1))) x]
      ∧ _diff_lists ∅ ledger' [] revision removals = Ok cs2
      ∧ Changeset.inactive_updated cs2
        = [Stock.with_date_removed (Some (exact_date (ymd 2021 6 1))) x].
Proof.
  intros x removals revision.
  split; [reflexivity|]. split; [constructor|]. split; [constructor|]. split.
  { intros H.
    specialize (H x (exact_date (ymd 2021 1 1)) (exact_date (ymd 2010 1 1))
                  ltac:(apply elem_of_cons; by left) eq_refl eq_refl).
    vm_compute in H. by apply H. }
  split; [apply older_stints_resolved_singleton|].
  do 3 eexists. split; [vm_compute; reflexivity|].
  split; [vm_compute; reflexivity|].
  split; [vm_compute; reflexivity|]. split; vm_compute; reflexivity.
Qed.

(** C8, amended: reconciliation is idempotent when no override applies
    in the first diff, the snapshot is sorted by symbol with distinct
    symbols and holds active records only, no removed ledger record has
    its date_added after its date_removed, and every removed ledger record
    that a later record of its symbol follows already stores the removal
    date the resolver gives it.  Then the diff of the same snapshot, with
    the same removal events and provenance, against the ledger rebuilt
    from the first changeset succeeds with added, removed, updated and
    inactive_updated all empty, and the driver leaves ledger, file and log
    as they are. *)
Theorem reconciliation_idempotent
    (_BACKFILLS : gmap string (list Stock.t))
    (removals : gmap string (list _RemovalHistory.t)) (revision : Revision.t)
    (ledger snapshot ledger' : list Stock.t) (cs : Changeset.t) :
  overrides_idle _BACKFILLS ledger snapshot revision removals →
  in_symbol_order snapshot →
  all_active snapshot →
  dates_in_order ledger →
  older_stints_resolved removals ledger →
  _diff_lists _BACKFILLS ledger snapshot revision removals = Ok cs →
  _create_components_history cs = Ok ledger' →
  ∃ cs2,
    _diff_lists _BACKFILLS ledger' snapshot revision removals = Ok cs2
    ∧ Changeset.added cs2 = [] ∧ Changeset.removed cs2 = []
    ∧ Changeset.updated cs2 = [] ∧ Changeset.inactive_updated cs2 = []
    ∧ ∀ st, apply_changeset st cs2 = Ok st.
Proof.
  intros Hidle Hsorted Hactive Hcons Hsettled Hdiff Hrebuilt.
  destruct (second_diff _BACKFILLS removals revision ledger snapshot ledger' cs
              Hidle Hsorted Hactive Hcons Hsettled Hdiff Hrebuilt)
    as (cs2 & Hdiff2 & Ha & Hr & Hu & Hi).
  exists cs2. repeat split; try done.
  intros st. apply apply_changeset_idle. unfold effective.
  rewrite Ha, Hr, Hu, Hi. tauto.
Qed.

Lemma reconciliation_idempotent_witness :
  let a := Stock.mk (Some (exact_date (ymd 2010 1 1))) None (Some (ymd 2010 1 1))
             "A" "A Corp" "energy" "0000000001" in
  let x := Stock.mk (Some (exact_date (ymd 2005 1 1)))
             (Some (approx_date (ymd 2020 6 1))) (Some (ymd 2005 1 1))
             "X" "X Corp" "energy" "0000000003" in
  let snapshot := [Stock.mk None None None "A" "A Corp" "energy" "0000000001";
                   Stock.mk None None None "B" "B Corp" "energy" "0000000002"] in
  let overrides : gmap string (list Stock.t) :=
    {[ "B" := [Stock.mk (Some (exact_date (ymd 1990 1 1)))
                 (Some (exact_date (ymd 2000 1 1))) None
                 "B" "B Old Corp" "energy" "0000000002"] ]} in
  let removals : gmap string (list _RemovalHistory.t) :=
    {[ "X" := [_RemovalHistory.mk (Some (exact_date (ymd 2020 5 28))) "X"] ]} in
  let revision := Revision.mk (ymd 2021 1 5) "1000" in
  let ledger' :=
    [a;
     Stock.mk (Some (approx_date (ymd 2021 1 5))) None (Some (ymd 2021 1 5))
       "B" "B Corp" "energy" "0000000002";
     Stock.with_date_removed (Some (exact_date (ymd 2020 5 28))) x] in
  ∃ cs2,
    _diff_lists overrides ledger' snapshot revision removals = Ok cs2
    ∧ Changeset.added cs2 = [] ∧ Changeset.removed cs2 = []
    ∧ Changeset.updated cs2 = [] ∧ Changeset.inactive_updated cs2 = []
    ∧ ∀ st, apply_changeset st cs2 = Ok st.
Proof.
  intros a x snapshot overrides removals revision ledger'.
  pose (cs := Changeset.mk revision
                [Stock.mk (Some (approx_date (ymd 2021 1 5))) None
                   (Some (ymd 2021 1 5)) "B" "B Corp" "energy" "0000000002"]
                [] [] [a] []
                [Stock.with_date_removed (Some (exact_date (ymd 2020 5 28))) x]).
  assert (overrides_idle overrides [a; x] snapshot revision removals) as Hidle
    by (vm_compute; reflexivity).
  assert (in_symbol_order snapshot) as Hsorted by (repeat constructor).
  assert (all_active snapshot) as Hactive by (repeat constructor).
  assert (dates_in_order [a; x]) as Hdates.
  { intros e da dr He Hda Hdr.
    apply elem_of_cons in He as [->|He]; [discriminate|].
    apply list_elem_of_singleton in He as ->.
    injection Hda as <-. injection Hdr as <-. vm_compute. discriminate. }
  assert (older_stints_resolved removals [a; x]) as Hsettled.
  { intros before e after d Hl Hd Hin.
    destruct before as [|b1 [|b2 before]]; simpl in Hl.
    - injection Hl as <- <-. discriminate Hd.
    - injection Hl as <- <- <-. inversion Hin.
    - destruct before; discriminate Hl. }
  assert (_diff_lists overrides [a; x] snapshot revision removals = Ok cs)
    as Hdiff by (vm_compute; reflexivity).
  assert (_create_components_history cs = Ok ledger') as Hrebuilt
    by (vm_compute; reflexivity).
  exact (reconciliation_idempotent overrides removals revision [a; x] snapshot
           ledger' cs Hidle Hsorted Hactive Hdates Hsettled Hdiff Hrebuilt).
Defined.

(** ** The examples of the specification, run on the model *)

(** Diff correctness: the ledger holds A, B, C active and the snapshot
    holds B, C, D. *)
Example diff_abc_bcd :
  let stock s := Stock.mk (Some (exact_date (ymd 2015 1 1))) None
                   (Some (ymd 2015 1 1)) s "Corp" "energy" "0000000001" in
  let listed s := Stock.mk None None None s "Corp" "energy" "0000000001" in
  let revision := Revision.mk (ymd 2021 1 5) "1000" in
  _diff_lists ∅ [stock "A"; stock "B"; stock "C"]
    [listed "B"; listed "C"; listed "D"] revision ∅
  = Ok (Changeset.mk revision
          [Stock.mk (Some (approx_date (ymd 2021 1 5))) None (Some (ymd 2021 1 5))
             "D" "Corp" "energy" "0000000001"]
          [Stock.with_date_removed (Some (approx_date (ymd 2021 1 5))) (stock "A")]
          [] [stock "B"; stock "C"] [] []).
Proof. vm_compute. reflexivity. Qed.

(** Ephemeral suppression: a stint of 4 days first observed the day before
    the revision is left out of the ledger. *)
Example ephemeral_stint_suppressed :
  let s := Stock.mk (Some (exact_date (ymd 2021 1 1)))
             (Some (exact_date (ymd 2021 1 5))) (Some (ymd 2021 1 5))
             "X" "X Corp" "energy" "0000000001" in
  _create_components_history
    (Changeset.mk (Revision.mk (ymd 2021 1 6) "1000") [] [s] [] [] [] [])
  = Ok [].
Proof. vm_compute. reflexivity. Qed.

(** The summary line of a changeset. *)
Example summary_line :
  let stock s := Stock.mk None None None s "Corp" "energy" "0000000001" in
  summary (Changeset.mk (Revision.mk (ymd 2021 1 5) "1000")
             [stock "D"; stock "E"] [stock "A"] [stock "Z"] [stock "B"] []
             [stock "M"])
  = "2021-01-05 (1000) +D,E -A *M,Z".
Proof. vm_compute. reflexivity. Qed.

(** A symbol cell is empty exactly when its text, after the exchange
    prefix and the surrounding blanks are taken off, is not one to ten of
    the allowed characters; an alias never maps to the empty symbol. *)
Lemma to_symbol_alias_nonempty (s v : string) :
  _SYMBOL_ALIAS !! s = Some v → v ≠ EmptyString.
Proof.
  intros H.
  assert (map_Forall (fun _ v => v ≠ EmptyString) _SYMBOL_ALIAS) as Hall.
  { apply map_Forall_to_list. vm_compute. repeat constructor; discriminate. }
  by apply (Hall s v).
Qed.

Lemma matches_RE_SYMBOL_nonempty (s : string) :
  matches_RE_SYMBOL s = true → s ≠ EmptyString.
Proof. by intros H ->. Qed.

Lemma to_symbol_empty_iff (s : string) :
  _to_symbol s = EmptyString ↔
  matches_RE_SYMBOL
    (strip match str_split ":" s with
           | _ :: p1 :: _ => p1
           | _ => s
           end) = false.
Proof.
  unfold _to_symbol.
  set (cell := strip _).
  destruct (matches_RE_SYMBOL cell) eqn:Hm; [|done].
  split; [|done]. intros H.
  destruct (_SYMBOL_ALIAS !! cell) as [v|] eqn:Hv; simpl in H.
  - by apply to_symbol_alias_nonempty in Hv.
  - by apply matches_RE_SYMBOL_nonempty in Hm.
Qed.

(** ** The rebuild returns a ledger *)

(** No date of the record falls on the sentinel that stands for its
    absence: the one case in which comparing two records raises. *)
Definition sentinel_free (s : Stock.t) : Prop :=
  (∀ r, Stock.date_removed s = Some r → EffectiveDate.day r ≠ _DATE_MAX)
  ∧ (∀ a, Stock.date_added s = Some a → EffectiveDate.day a ≠ _DATE_MIN).

Lemma pydate_eq_Ok (x y : pydate) :
  (∀ a d, x = EffDate a → y = PlainDate d → EffectiveDate.day a ≠ d) →
  (∀ a d, y = EffDate a → x = PlainDate d → EffectiveDate.day a ≠ d) →
  is_Ok (pydate_eq x y).
Proof.
  intros Hxy Hyx. destruct x as [d|a], y as [d'|a']; simpl; try by eexists.
  - destruct (Z.eqb_spec (EffectiveDate.day a') d) as [He|_]; [|by eexists].
    by destruct (Hyx a' d eq_refl eq_refl).
  - destruct (Z.eqb_spec (EffectiveDate.day a) d') as [He|_]; [|by eexists].
    by destruct (Hxy a d' eq_refl eq_refl).
Qed.

Lemma Stock_lt_Ok (x y : Stock.t) :
  sentinel_free x → sentinel_free y → is_Ok (Stock.__lt__ x y).
Proof.
  intros [Hxr Hxa] [Hyr Hya]. unfold Stock.__lt__.
  destruct (negb (String.eqb _ _)); [by eexists|].
  destruct (negb (String.eqb _ _)); [by eexists|].
  destruct (pydate_eq_Ok (Stock.key_removed x) (Stock.key_removed y)) as [b ->].
  { unfold Stock.key_removed. intros a d Ha Hd.
    destruct (Stock.date_removed x) eqn:Hx; [|done].
    destruct (Stock.date_removed y); [done|].
    injection Ha as <-. injection Hd as <-. by apply Hxr. }
  { unfold Stock.key_removed. intros a d Ha Hd.
    destruct (Stock.date_removed y) eqn:Hy; [|done].
    destruct (Stock.date_removed x); [done|].
    injection Ha as <-. injection Hd as <-. by apply Hyr. }
  simpl. destruct b; simpl; [|by eexists].
  destruct (pydate_eq_Ok (Stock.key_added x) (Stock.key_added y)) as [b ->].
  { unfold Stock.key_added. intros a d Ha Hd.
    destruct (Stock.date_added x) eqn:Hx; [|done].
    destruct (Stock.date_added y); [done|].
    injection Ha as <-. injection Hd as <-. by apply Hxa. }
  { unfold Stock.key_added. intros a d Ha Hd.
    destruct (Stock.date_added y) eqn:Hy; [|done].
    destruct (Stock.date_added x); [done|].
    injection Ha as <-. injection Hd as <-. by apply Hya. }
  simpl. destruct b; simpl; [|by eexists].
  destruct (negb (String.eqb _ _)); by eexists.
Qed.

Lemma merge_stocks_date_added (o l : Stock.t) :
  Stock.date_added (_merge_stocks o l) = Stock.date_added o
  ∨ Stock.date_added (_merge_stocks o l) = Stock.date_added l.
Proof.
  unfold _merge_stocks.
  destruct (Stock.date_added o) as [a|], (Stock.date_added l) as [b|];
    repeat case_match; simpl; auto;
    unfold _merge_effective_date; repeat case_match; auto.
Qed.

Lemma coalesced_sentinel_free (e a : Stock.t) :
  sentinel_free e → sentinel_free a →
  sentinel_free (Stock.with_date_removed None (_merge_stocks e a)).
Proof.
  intros [_ He] [_ Ha]. split; [done|]. simpl.
  destruct (merge_stocks_date_added e a) as [-> | ->]; done.
Qed.

(** The rebuild returns a ledger for every changeset whose records keep
    clear of the two sentinel dates. *)
Lemma create_components_history_Ok (cs : Changeset.t) :
  Forall sentinel_free
    (Changeset.added cs ++ Changeset.removed cs ++ Changeset.updated cs
     ++ Changeset.unchanged cs ++ Changeset.inactive cs
     ++ Changeset.inactive_updated cs) →
  is_Ok (_create_components_history cs).
Proof.
  rewrite !Forall_app, !Forall_forall. intros (Ha & Hr & Hu & Hn & Hi & Hiu).
  unfold _create_components_history.
  destruct (sorted_Ok Stock.__lt__
              (Changeset.inactive cs ++ Changeset.inactive_updated cs))
    as [previous Hp].
  { intros x y [?|?]%elem_of_app [?|?]%elem_of_app; apply Stock_lt_Ok; auto. }
  rewrite Hp. simpl. apply sorted_Ok.
  assert (∀ x, x ∈ previous → sentinel_free x) as Hprev.
  { intros x Hx. rewrite (sorted_perm _ _ _ Hp) in Hx.
    apply elem_of_app in Hx as [?|?]; auto. }
  assert (∀ x, x ∈ snd (fold_left
                          (coalesce_step (make_added_map (Changeset.added cs)))
                          (rev previous) (∅, [])) → sentinel_free x) as Hem.
  { intros x Hx.
    pose proof (coalesced_origin (make_added_map (Changeset.added cs))
                  (rev previous)) as Ho.
    rewrite Forall_forall in Ho.
    destruct (Ho x Hx) as [Hmet|(e & a & He & Hlook & ->)].
    - by apply Hprev, elem_of_rev_iff.
    - apply coalesced_sentinel_free; [by apply Hprev, elem_of_rev_iff|].
      apply make_added_map_lookup in Hlook as (l1 & l2 & Hl & _).
      apply Ha. rewrite Hl, elem_of_app. right. by left. }
  assert (∀ x, x ∈ List.filter
                     (fun s => negb (bool_decide
                        (Stock.symbol s
                         ∈ fst (fold_left
                                  (coalesce_step
                                     (make_added_map (Changeset.added cs)))
                                  (rev previous) (∅, [])))))
                     (Changeset.added cs)
               ++ List.filter (keeps_removed (Changeset.revision cs))
                    (Changeset.removed cs)
               ++ Changeset.updated cs ++ Changeset.unchanged cs
               ++ snd (fold_left
                         (coalesce_step (make_added_map (Changeset.added cs)))
                         (rev previous) (∅, [])) → sentinel_free x) as Hall.
  { intros x. rewrite !elem_of_app, !elem_of_filter_bool.
    intros [[? _]|[[? _]|[?|[?|?]]]]; auto. }
  intros x y Hx Hy. apply Stock_lt_Ok; by apply Hall.
Qed.

(** * Further properties of the reconciliation engine *)

(** ** Duplicate detection *)

(** [x] stands at two different positions of [items]. *)
Definition occurs_twice (items : list string) (x : string) : Prop :=
  ∃ i j : nat, (i < j)%nat ∧ items !! i = Some x ∧ items !! j = Some x.

(** The pair [(seen, dupes)] after the loop of [_find_duplicates]. *)
Definition find_duplicates_loop (items : list string)
  : gset string * gset string :=
  fold_left
    (fun (st : gset string * gset string) item =>
       if bool_decide (item ∈ fst st) then (fst st, {[item]} ∪ snd st)
       else ({[item]} ∪ fst st, snd st))
    items (∅, ∅).

Lemma occurs_twice_snoc (items : list string) (y x : string) :
  occurs_twice (items ++ [y]) x ↔ occurs_twice items x ∨ (x = y ∧ x ∈ items).
Proof.
  split.
  - intros (i & j & Hij & Hi & Hj).
    assert (j < length (items ++ [y]))%nat as Hlen
      by (apply lookup_lt_is_Some; eauto).
    rewrite length_app in Hlen. simpl in Hlen.
    destruct (decide (j = length items)) as [->|Hne].
    + right. rewrite lookup_app_r, Nat.sub_diag in Hj by lia.
      injection Hj as <-. split; [done|].
      rewrite lookup_app_l in Hi by lia. by eapply list_elem_of_lookup_2.
    + left. exists i, j. rewrite !lookup_app_l in * by lia. done.
  - intros [(i & j & Hij & Hi & Hj)|[-> Hin]].
    + exists i, j. split; [done|].
      split; apply lookup_app_l_Some; done.
    + apply list_elem_of_lookup_1 in Hin as [i Hi].
      exists i, (length items). split; [by eapply lookup_lt_Some|].
      split; [by apply lookup_app_l_Some|].
      by rewrite lookup_app_r, Nat.sub_diag by lia.
Qed.

Lemma find_duplicates_loop_spec (items : list string) :
  (∀ x, x ∈ fst (find_duplicates_loop items) ↔ x ∈ items)
  ∧ (∀ x, x ∈ snd (find_duplicates_loop items) ↔ occurs_twice items x).
Proof.
  induction items as [|y items [IHs IHd]] using rev_ind.
  - split; intros x; simpl.
    + rewrite elem_of_empty, elem_of_nil. done.
    + rewrite elem_of_empty. split; [done|].
      intros (i & j & _ & Hi & _). by rewrite lookup_nil in Hi.
  - unfold find_duplicates_loop in *. rewrite fold_left_app. simpl.
    match goal with
    | |- context [fold_left ?f items ?s] => set (st := fold_left f items s) in *
    end.
    destruct (bool_decide_reflect (y ∈ fst st)) as [Hy|Hy]; simpl; split; intros x.
    + rewrite elem_of_app, list_elem_of_singleton, IHs.
      split; [by left|]. intros [?| ->]; [done|]. by apply IHs.
    + rewrite elem_of_union, elem_of_singleton, IHd, occurs_twice_snoc.
      rewrite IHs in Hy. split.
      * intros [-> |?]; [by right | by left].
      * intros [?|[-> _]]; [by right | by left].
    + rewrite elem_of_union, elem_of_singleton, elem_of_app,
        list_elem_of_singleton, IHs. tauto.
    + rewrite IHd, occurs_twice_snoc. rewrite IHs in Hy.
      split; [by left|]. intros [?|[-> ?]]; done.
Qed.

Lemma find_duplicates_elem (items : list string) (x : string) :
  x ∈ _find_duplicates items ↔ occurs_twice items x.
Proof. apply find_duplicates_loop_spec. Qed.

Lemma find_duplicates_empty (items : list string) :
  _find_duplicates items = ∅ ↔ NoDup items.
Proof.
  pose proof (find_duplicates_elem items) as Hd.
  rewrite NoDup_alt. split.
  - intros He i j x Hi Hj.
    destruct (Nat.lt_total i j) as [Hlt|[?|Hlt]]; [|done|]; exfalso;
      apply (not_elem_of_empty (C:=gset string) x); rewrite <- He; apply Hd.
    + by exists i, j.
    + by exists j, i.
  - intros Hnd. apply leibniz_equiv. intros x. rewrite elem_of_empty, Hd.
    split; [|done]. intros (i & j & Hij & Hi & Hj).
    specialize (Hnd i j x Hi Hj). lia.
Qed.

(** X1.  [_find_duplicates] returns exactly the items that stand at two
    different positions of the list; the result is empty exactly when no
    item is repeated. *)
Theorem find_duplicates_spec (items : list string) :
  (∀ x, x ∈ _find_duplicates items ↔ occurs_twice items x)
  ∧ (_find_duplicates items = ∅ ↔ NoDup items).
Proof.
  split.
  - intros x. apply find_duplicates_elem.
  - apply find_duplicates_empty.
Qed.

(** ** The errors of the Snapshot Differ *)

Lemma optdate_eq_raise (x y : option EffectiveDate.t) (e : exn) :
  optdate_eq x y = Raise e → e = AttributeError.
Proof. destruct x, y; simpl; congruence. Qed.

Lemma Stock_eq_raise (a b : Stock.t) (e : exn) :
  Stock.__eq__ a b = Raise e → e = AttributeError.
Proof.
  unfold Stock.__eq__.
  destruct (negb (String.eqb (Stock.symbol a) (Stock.symbol b))); [done|].
  destruct (negb (String.eqb (Stock.cik a) (Stock.cik b))); [done|].
  destruct (optdate_eq (Stock.date_removed a) (Stock.date_removed b)) as [r|]
    eqn:Hr; simpl; [|intros [= <-]; by eapply optdate_eq_raise].
  destruct (negb r); [done|].
  destruct (optdate_eq (Stock.date_added a) (Stock.date_added b)) as [r'|]
    eqn:Ha; simpl; [|intros [= <-]; by eapply optdate_eq_raise].
  destruct (negb r'); [done|]. by case_match.
Qed.

Lemma Stock_ne_raise (a b : Stock.t) (e : exn) :
  Stock.__ne__ a b = Raise e → e = AttributeError.
Proof.
  unfold Stock.__ne__. destruct (Stock.__eq__ a b) eqn:He; simpl; [done|].
  intros [= <-]. by eapply Stock_eq_raise.
Qed.

Lemma join_unfold _BACKFILLS removals date date_stand_in
    (o l : Stock.t) (old latest : list Stock.t) :
  join _BACKFILLS removals date date_stand_in (o :: old) (l :: latest) =
  if String.ltb (Stock.symbol o) (Stock.symbol l) then
    j ← join _BACKFILLS removals date date_stand_in old (l :: latest);
    Ok (push_removed (make_removed _BACKFILLS removals date_stand_in o) j)
  else if String.ltb (Stock.symbol l) (Stock.symbol o) then
    j ← join _BACKFILLS removals date date_stand_in (o :: old) latest;
    Ok (push_added (make_added _BACKFILLS date date_stand_in l) j)
  else
    changed ← Stock.__ne__ (_merge_stocks o l) o;
    j ← join _BACKFILLS removals date date_stand_in old latest;
    Ok (if changed : bool then push_updated (_merge_stocks o l) j
        else push_unchanged o j).
Proof. reflexivity. Qed.

Lemma join_nil_l _BACKFILLS removals date date_stand_in (latest : list Stock.t) :
  join _BACKFILLS removals date date_stand_in [] latest
  = Ok (mk_join (make_added _BACKFILLS date date_stand_in <$> latest) [] [] []).
Proof.
  induction latest as [|l latest IH]; [done|].
  simpl in *. by rewrite IH.
Qed.

Lemma join_nil_r _BACKFILLS removals date date_stand_in (old : list Stock.t) :
  join _BACKFILLS removals date date_stand_in old []
  = Ok (mk_join [] (make_removed _BACKFILLS removals date_stand_in <$> old) [] []).
Proof.
  induction old as [|o old IH]; [done|].
  simpl in *. by rewrite IH.
Qed.

(** *** Overrides that do not apply *)

(** No entry of the table matches the record: the Override Applier
    returns it as it is. *)
Definition unmatched (_BACKFILLS : gmap string (list Stock.t))
    (stock : Stock.t) : Prop :=
  List.find (backfill_matches stock)
    (default [] (_BACKFILLS !! Stock.symbol stock)) = None.

Lemma backfill_unmatched _BACKFILLS (stock : Stock.t) (omit_removal : bool) :
  unmatched _BACKFILLS stock → _backfill _BACKFILLS stock omit_removal = stock.
Proof. unfold unmatched, _backfill. by intros ->. Qed.

Lemma join_unmatched _BACKFILLS removals date (old latest : list Stock.t) :
  Forall (fun o => unmatched _BACKFILLS (removed_of removals date o)) old →
  Forall (fun l => unmatched _BACKFILLS (added_of date l)) latest →
  join _BACKFILLS removals date (stand_in date) old latest
  = join ∅ removals date (stand_in date) old latest.
Proof.
  assert (∀ o, unmatched _BACKFILLS (removed_of removals date o) →
               make_removed _BACKFILLS removals (stand_in date) o
               = make_removed ∅ removals (stand_in date) o) as Hrem.
  { intros o Ho. unfold make_removed.
    by rewrite backfill_empty, (backfill_unmatched _ _ _ Ho). }
  assert (∀ l, unmatched _BACKFILLS (added_of date l) →
               make_added _BACKFILLS date (stand_in date) l
               = make_added ∅ date (stand_in date) l) as Hadd.
  { intros l Hl. unfold make_added.
    by rewrite backfill_empty, (backfill_unmatched _ _ _ Hl). }
  assert (∀ ls,
            Forall (fun l => unmatched _BACKFILLS (added_of date l)) ls →
            make_added _BACKFILLS date (stand_in date) <$> ls
            = make_added ∅ date (stand_in date) <$> ls) as Hadds.
  { induction 1 as [|l ls Hl _ IHl]; [done|].
    by rewrite !fmap_cons, IHl, (Hadd l Hl). }
  assert (∀ os,
            Forall (fun o => unmatched _BACKFILLS (removed_of removals date o))
              os →
            make_removed _BACKFILLS removals (stand_in date) <$> os
            = make_removed ∅ removals (stand_in date) <$> os) as Hrems.
  { induction 1 as [|o os Ho _ IHo]; [done|].
    by rewrite !fmap_cons, IHo, (Hrem o Ho). }
  intros Hold. revert latest.
  induction Hold as [|o old Ho Hold IHo]; intros latest Hlatest.
  { by rewrite !join_nil_l, (Hadds latest Hlatest). }
  induction Hlatest as [|l latest Hl Hlatest IHl].
  { rewrite !join_nil_r. by rewrite (Hrems (o :: old)) by (by constructor). }
  rewrite !join_unfold.
  rewrite (IHo (l :: latest)) by (by constructor).
  by rewrite IHl, (IHo latest Hlatest), (Hrem o Ho), (Hadd l Hl).
Qed.

(** When no entry of the table matches a record of the snapshot taken as
    an addition or an active record of the ledger taken as a removal, no
    override applies in the diff. *)
Lemma overrides_idle_intro _BACKFILLS (ledger snapshot : list Stock.t)
    (revision : Revision.t) (removals : gmap string (list _RemovalHistory.t)) :
  Forall (fun o => unmatched _BACKFILLS
                     (removed_of removals (Revision.ny_date revision) o))
    (List.filter active ledger) →
  Forall (fun l => unmatched _BACKFILLS (added_of (Revision.ny_date revision) l))
    snapshot →
  overrides_idle _BACKFILLS ledger snapshot revision removals.
Proof.
  intros Hold Hlatest. unfold overrides_idle, _diff_lists.
  rewrite split_history_old.
  change (EffectiveDate.from_date (Revision.ny_date revision) true)
    with (stand_in (Revision.ny_date revision)).
  by rewrite (join_unmatched _ _ _ _ _ Hold Hlatest).
Qed.

Lemma join_raise _BACKFILLS removals date date_stand_in
    (old latest : list Stock.t) (e : exn) :
  join _BACKFILLS removals date date_stand_in old latest = Raise e →
  e = AttributeError.
Proof.
  revert latest. induction old as [|o old IHo]; intros latest.
  { by rewrite join_nil_l. }
  induction latest as [|l latest IHl].
  { by rewrite join_nil_r. }
  rewrite join_unfold. repeat case_match.
  - destruct (join _ _ _ _ old (l :: latest)) eqn:Hj; simpl; [done|].
    intros [= <-]. by eapply IHo.
  - destruct (join _ _ _ _ (o :: old) latest) eqn:Hj; simpl; [done|].
    intros [= <-]. by apply IHl.
  - destruct (Stock.__ne__ (_merge_stocks o l) o) eqn:Hne; simpl.
    + destruct (join _ _ _ _ old latest) eqn:Hj; simpl; [done|].
      intros [= <-]. by eapply IHo.
    + intros [= <-]. by eapply Stock_ne_raise.
Qed.

(** X2.  The differ reports a symbol repeated among the active records of
    the ledger, and otherwise one repeated in the snapshot, with an
    [UpdateError] that carries the revision and lists exactly the repeated
    symbols; with no symbol repeated it raises no [UpdateError]. *)
Theorem diff_lists_duplicate_symbols _BACKFILLS
    (components_history latest : list Stock.t) (revision : Revision.t)
    (removals : gmap string (list _RemovalHistory.t)) :
  let old := List.filter active components_history in
  let result := _diff_lists _BACKFILLS components_history latest revision removals in
  (¬ NoDup (Stock.symbol <$> old) →
   ∃ dupes, result = Raise (UpdateError
                              ("Duplicate symbol(s) in old stocks list: "
                                 +:+ str_join "," dupes) (Some revision))
            ∧ NoDup dupes
            ∧ ∀ s, s ∈ dupes ↔ occurs_twice (Stock.symbol <$> old) s)
  ∧ (NoDup (Stock.symbol <$> old) → ¬ NoDup (Stock.symbol <$> latest) →
     ∃ dupes, result = Raise (UpdateError
                                ("Duplicate symbol(s) in latest stocks list: "
                                   +:+ str_join "," dupes) (Some revision))
              ∧ NoDup dupes
              ∧ ∀ s, s ∈ dupes ↔ occurs_twice (Stock.symbol <$> latest) s)
  ∧ (NoDup (Stock.symbol <$> old) → NoDup (Stock.symbol <$> latest) →
     ∀ msg r, result ≠ Raise (UpdateError msg r)).
Proof.
  intros old result. subst old result. unfold _diff_lists.
  rewrite split_history_old.
  pose proof (find_duplicates_elem
                (Stock.symbol <$> List.filter active components_history)) as Hold.
  pose proof (find_duplicates_empty
                (Stock.symbol <$> List.filter active components_history)) as Hold0.
  pose proof (find_duplicates_elem (Stock.symbol <$> latest)) as Hlat.
  pose proof (find_duplicates_empty (Stock.symbol <$> latest)) as Hlat0.
  split; [|split].
  - intros Hnd. rewrite bool_decide_false by (by rewrite Hold0). simpl.
    eexists. split; [reflexivity|]. split; [apply NoDup_elements|].
    intros s. by rewrite elem_of_elements.
  - intros Hnd Hnl. rewrite bool_decide_true by (by rewrite Hold0). simpl.
    rewrite bool_decide_false by (by rewrite Hlat0). simpl.
    eexists. split; [reflexivity|]. split; [apply NoDup_elements|].
    intros s. by rewrite elem_of_elements.
  - intros Hnd Hnl msg r.
    rewrite bool_decide_true by (by rewrite Hold0). simpl.
    rewrite bool_decide_true by (by rewrite Hlat0). simpl.
    match goal with
    | |- context [join ?b ?r ?d ?s ?o ?l] =>
        destruct (join b r d s o l) eqn:Hj
    end; simpl; [done|].
    apply join_raise in Hj as ->. done.
Qed.

(** ** The merge-join of the Snapshot Differ *)

Lemma join_lengths _BACKFILLS removals date date_stand_in
    (old latest : list Stock.t) (j : join_lists) :
  join _BACKFILLS removals date date_stand_in old latest = Ok j →
  (length (join_added j) + length (join_updated j)
   + length (join_unchanged j) = length latest)%nat
  ∧ (length (join_removed j) + length (join_updated j)
     + length (join_unchanged j) = length old)%nat.
Proof.
  revert latest j. induction old as [|o old IHo]; intros latest j.
  { rewrite join_nil_l. intros [= <-]. simpl. rewrite length_fmap. lia. }
  revert j. induction latest as [|l latest IHl]; intros j.
  { rewrite join_nil_r. intros [= <-]. simpl. rewrite length_fmap. lia. }
  rewrite join_unfold.
  destruct (String.ltb (Stock.symbol o) (Stock.symbol l));
    [|destruct (String.ltb (Stock.symbol l) (Stock.symbol o))]; intros Hj.
  - inv_bind Hj. injection Hj as <-. destruct (IHo _ _ Ha) as [H1 H2].
    simpl in *. lia.
  - inv_bind Hj. injection Hj as <-. destruct (IHl _ Ha) as [H1 H2].
    simpl in *. lia.
  - inv_bind Hj. inv_bind Hj. injection Hj as <-.
    destruct (IHo _ _ Ha0) as [H1 H2]. destruct a; simpl in *; lia.
Qed.

(** X3.  Whatever the order of its inputs, a changeset accounts for every
    record once: a snapshot record is added, updated or unchanged, and an
    active ledger record is removed, updated or unchanged. *)
Theorem diff_lists_accounts_for_every_record _BACKFILLS
    (components_history latest : list Stock.t) (revision : Revision.t)
    (removals : gmap string (list _RemovalHistory.t)) (cs : Changeset.t) :
  _diff_lists _BACKFILLS components_history latest revision removals = Ok cs →
  (length (Changeset.added cs) + length (Changeset.updated cs)
   + length (Changeset.unchanged cs) = length latest)%nat
  ∧ (length (Changeset.removed cs) + length (Changeset.updated cs)
     + length (Changeset.unchanged cs)
     = length (List.filter active components_history))%nat.
Proof.
  intros Hd. apply diff_lists_Ok_inv in Hd as (j & Hj & ->).
  by apply join_lengths in Hj.
Qed.

Lemma diff_lists_accounts_for_every_record_witness :
  let o := Stock.mk (Some (exact_date (ymd 2015 1 1))) None None
             "A" "A Corp" "energy" "0000000001" in
  let l := Stock.mk None None None "B" "B Corp" "energy" "0000000002" in
  let cs := Changeset.mk (Revision.mk (ymd 2021 1 5) "1000")
              [Stock.mk (Some (approx_date (ymd 2021 1 5))) None
                 (Some (ymd 2021 1 5)) "B" "B Corp" "energy" "0000000002"]
              [Stock.with_date_removed (Some (approx_date (ymd 2021 1 5))) o]
              [] [] [] [] in
  (length (Changeset.added cs) + length (Changeset.updated cs)
   + length (Changeset.unchanged cs) = length [l])%nat
  ∧ (length (Changeset.removed cs) + length (Changeset.updated cs)
     + length (Changeset.unchanged cs) = length (List.filter active [o]))%nat.
Proof.
  intros o l cs.
  apply (diff_lists_accounts_for_every_record ∅ [o] [l]
           (Revision.mk (ymd 2021 1 5) "1000") ∅ cs).
  vm_compute. reflexivity.
Defined.

(** ** The merge-join on lists in strict symbol order *)

(** Every record of [l] has a symbol above [s]. *)
Definition all_above (s : string) (l : list Stock.t) : Prop :=
  Forall (fun y => str_lt s (Stock.symbol y)) l.

(** Strictly increasing symbols. *)
Definition strictly_sorted (l : list Stock.t) : Prop :=
  StronglySorted (fun x y => str_lt (Stock.symbol x) (Stock.symbol y)) l.

(** A record of [l] has the symbol of [x]. *)
Definition listed (l : list Stock.t) (x : Stock.t) : bool :=
  bool_decide (Stock.symbol x ∈ Stock.symbol <$> l).

(** A record of [old] and one of [latest] have the same symbol and
    satisfy [P]. *)
Definition matched (old latest : list Stock.t) (P : Stock.t → Stock.t → Prop)
  : Prop :=
  ∃ o l, o ∈ old ∧ l ∈ latest ∧ Stock.symbol o = Stock.symbol l ∧ P o l.

Lemma strictly_sorted_cons (x : Stock.t) (l : list Stock.t) :
  strictly_sorted (x :: l) → strictly_sorted l ∧ all_above (Stock.symbol x) l.
Proof. intros H. by apply StronglySorted_inv in H. Qed.

Lemma all_above_lt (s t : string) (l : list Stock.t) :
  str_lt s t → all_above t l → all_above s l.
Proof.
  intros Hst Ha. eapply Forall_impl; [exact Ha|].
  intros y Hy. simpl in Hy. by eapply str_lt_trans.
Qed.

Lemma all_above_differs (s : string) (l : list Stock.t) (y : Stock.t) :
  all_above s l → y ∈ l → Stock.symbol y ≠ s.
Proof.
  intros Ha Hy Heq. unfold all_above in Ha. rewrite Forall_forall in Ha.
  specialize (Ha y Hy). rewrite Heq in Ha. by apply str_lt_irrefl in Ha.
Qed.

Lemma all_above_not_listed (x : Stock.t) (l : list Stock.t) :
  all_above (Stock.symbol x) l → listed l x = false.
Proof.
  intros Ha. apply bool_decide_eq_false. intros Hin.
  apply list_elem_of_fmap in Hin as (y & Heq & Hy).
  by apply (all_above_differs _ _ _ Ha Hy).
Qed.

Lemma listed_cons_ne (y x : Stock.t) (l : list Stock.t) :
  Stock.symbol x ≠ Stock.symbol y → listed (y :: l) x = listed l x.
Proof.
  intros Hne. unfold listed. apply bool_decide_ext.
  rewrite fmap_cons, elem_of_cons. tauto.
Qed.

Lemma listed_head (y x : Stock.t) (l : list Stock.t) :
  Stock.symbol x = Stock.symbol y → listed (y :: l) x = true.
Proof.
  intros Heq. apply bool_decide_eq_true. rewrite fmap_cons, Heq. by left.
Qed.

Lemma filter_not_listed_cons (y : Stock.t) (l others : list Stock.t) :
  all_above (Stock.symbol y) others →
  List.filter (fun x => negb (listed (y :: l) x)) others
  = List.filter (fun x => negb (listed l x)) others.
Proof.
  intros Ha. apply List.filter_ext_in. intros x Hx. f_equal.
  apply listed_cons_ne. apply list_elem_of_In in Hx.
  by apply (all_above_differs _ _ _ Ha).
Qed.

Lemma matched_skip_old (o : Stock.t) (old latest : list Stock.t) P :
  all_above (Stock.symbol o) latest →
  matched (o :: old) latest P ↔ matched old latest P.
Proof.
  intros Ha. split.
  - intros (o1 & l1 & Ho & Hl & Hs & HP).
    apply elem_of_cons in Ho as [-> |Ho]; [|by exists o1, l1].
    by destruct (all_above_differs _ _ _ Ha Hl).
  - intros (o1 & l1 & Ho & Hl & Hs & HP). exists o1, l1.
    split; [by right | done].
Qed.

Lemma matched_skip_latest (l : Stock.t) (old latest : list Stock.t) P :
  all_above (Stock.symbol l) old →
  matched old (l :: latest) P ↔ matched old latest P.
Proof.
  intros Ha. split.
  - intros (o1 & l1 & Ho & Hl & Hs & HP).
    apply elem_of_cons in Hl as [-> |Hl]; [|by exists o1, l1].
    by destruct (all_above_differs _ _ _ Ha Ho).
  - intros (o1 & l1 & Ho & Hl & Hs & HP). exists o1, l1.
    split; [done|]. split; [by right | done].
Qed.

Lemma matched_heads (o l : Stock.t) (old latest : list Stock.t) P :
  Stock.symbol o = Stock.symbol l →
  all_above (Stock.symbol o) old → all_above (Stock.symbol l) latest →
  matched (o :: old) (l :: latest) P ↔ P o l ∨ matched old latest P.
Proof.
  intros Hs Ho Hl. split.
  - intros (o1 & l1 & Ho1 & Hl1 & Hs1 & HP).
    apply elem_of_cons in Ho1 as [-> |Ho1];
      apply elem_of_cons in Hl1 as [-> |Hl1].
    + by left.
    + destruct (all_above_differs _ _ _ Hl Hl1). congruence.
    + destruct (all_above_differs _ _ _ Ho Ho1). congruence.
    + right. by exists o1, l1.
  - intros [HP|(o1 & l1 & Ho1 & Hl1 & Hs1 & HP)].
    + exists o, l. repeat split; try done; by left.
    + exists o1, l1. repeat split; try done; by right.
Qed.

(** What the merge-join returns on lists in strict symbol order. *)
Definition sorted_join (_BACKFILLS : gmap string (list Stock.t))
    (removals : gmap string (list _RemovalHistory.t)) (date : date)
    (date_stand_in : EffectiveDate.t) (old latest : list Stock.t)
    (j : join_lists) : Prop :=
  join_added j
  = (make_added _BACKFILLS date date_stand_in
       <$> List.filter (fun l => negb (listed old l)) latest)
  ∧ join_removed j
    = (make_removed _BACKFILLS removals date_stand_in
         <$> List.filter (fun o => negb (listed latest o)) old)
  ∧ (∀ x, x ∈ join_updated j ↔
          matched old latest
            (fun o l => Stock.__ne__ (_merge_stocks o l) o = Ok true
                        ∧ x = _merge_stocks o l))
  ∧ (∀ x, x ∈ join_unchanged j ↔
          matched old latest
            (fun o l => Stock.__ne__ (_merge_stocks o l) o = Ok false
                        ∧ x = o)).

Lemma matched_nil_l latest P : ¬ matched [] latest P.
Proof. intros (o & l & Ho & _). by apply elem_of_nil in Ho. Qed.

Lemma matched_nil_r old P : ¬ matched old [] P.
Proof. intros (o & l & _ & Hl & _). by apply elem_of_nil in Hl. Qed.

Lemma filter_not_listed_nil (l : list Stock.t) :
  List.filter (fun x => negb (listed [] x)) l = l.
Proof.
  apply filter_all, Forall_forall. intros x _. unfold listed.
  rewrite bool_decide_false; [done|]. apply not_elem_of_nil.
Qed.

Lemma join_sorted _BACKFILLS removals date date_stand_in
    (old latest : list Stock.t) (j : join_lists) :
  strictly_sorted old → strictly_sorted latest →
  join _BACKFILLS removals date date_stand_in old latest = Ok j →
  sorted_join _BACKFILLS removals date date_stand_in old latest j.
Proof.
  revert latest j. induction old as [|o old IHo]; intros latest j Hso Hsl.
  { rewrite join_nil_l. intros [= <-]. unfold sorted_join.
    cbn [join_added join_removed join_updated join_unchanged].
    split; [|split; [done|split]].
    - by rewrite filter_not_listed_nil.
    - intros x. split; [by intros ?%elem_of_nil | by intros ?%matched_nil_l].
    - intros x. split; [by intros ?%elem_of_nil | by intros ?%matched_nil_l]. }
  revert j. induction latest as [|l latest IHl]; intros j.
  { rewrite join_nil_r. intros [= <-]. unfold sorted_join.
    cbn [join_added join_removed join_updated join_unchanged].
    split; [done|split; [|split]].
    - by rewrite filter_not_listed_nil.
    - intros x. split; [by intros ?%elem_of_nil | by intros ?%matched_nil_r].
    - intros x. split; [by intros ?%elem_of_nil | by intros ?%matched_nil_r]. }
  apply strictly_sorted_cons in Hso as Hso'. destruct Hso' as [Hso' Hao].
  apply strictly_sorted_cons in Hsl as Hsl'. destruct Hsl' as [Hsl' Hal].
  rewrite join_unfold.
  destruct (String.ltb (Stock.symbol o) (Stock.symbol l)) eqn:Hlt.
  - (* the ledger record is not in the snapshot *)
    intros Hj. inv_bind Hj. injection Hj as <-.
    destruct (IHo _ _ Hso' Hsl Ha) as (Hadd & Hrem & Hupd & Hunc).
    assert (all_above (Stock.symbol o) (l :: latest)) as Habove.
    { constructor; [done|]. by eapply all_above_lt. }
    unfold sorted_join.
    cbn [join_added join_removed join_updated join_unchanged push_removed].
    split; [|split; [|split]].
    + rewrite Hadd. f_equal. symmetry. by apply filter_not_listed_cons.
    + rewrite Hrem. cbn [List.filter].
      rewrite (all_above_not_listed o (l :: latest) Habove). done.
    + intros x. rewrite Hupd. symmetry. by apply matched_skip_old.
    + intros x. rewrite Hunc. symmetry. by apply matched_skip_old.
  - destruct (String.ltb (Stock.symbol l) (Stock.symbol o)) eqn:Hgt.
    + (* the snapshot record is not in the ledger *)
      intros Hj. inv_bind Hj. injection Hj as <-.
      destruct (IHl Hsl' _ Ha) as (Hadd & Hrem & Hupd & Hunc).
      assert (all_above (Stock.symbol l) (o :: old)) as Habove.
      { constructor; [done|]. by eapply all_above_lt. }
      unfold sorted_join.
      cbn [join_added join_removed join_updated join_unchanged push_added].
      split; [|split; [|split]].
      * rewrite Hadd. cbn [List.filter].
        rewrite (all_above_not_listed l (o :: old) Habove). done.
      * rewrite Hrem. f_equal. symmetry. by apply filter_not_listed_cons.
      * intros x. rewrite Hupd. symmetry. by apply matched_skip_latest.
      * intros x. rewrite Hunc. symmetry. by apply matched_skip_latest.
    + (* the same symbol on both sides *)
      pose proof (str_ltb_neither _ _ Hlt Hgt) as Hsym.
      intros Hj. inv_bind Hj. inv_bind Hj. injection Hj as <-.
      destruct (IHo _ _ Hso' Hsl' Ha0) as (Hadd & Hrem & Hupd & Hunc).
      unfold sorted_join.
      assert (join_added (if a then push_updated (_merge_stocks o l) a0
                          else push_unchanged o a0) = join_added a0) as ->
        by by destruct a.
      assert (join_removed (if a then push_updated (_merge_stocks o l) a0
                            else push_unchanged o a0) = join_removed a0) as ->
        by by destruct a.
      split; [|split; [|split]].
      * rewrite Hadd. cbn [List.filter]. rewrite (listed_head o l old) by done.
        cbn [negb]. f_equal. symmetry. apply filter_not_listed_cons.
        by rewrite Hsym.
      * rewrite Hrem. cbn [List.filter]. rewrite (listed_head l o latest) by done.
        cbn [negb]. f_equal. symmetry. apply filter_not_listed_cons.
        by rewrite <- Hsym.
      * intros x. rewrite matched_heads by done. rewrite <- Hupd.
        destruct a; cbn [join_updated push_updated push_unchanged].
        -- rewrite elem_of_cons. split.
           ++ intros [-> |?]; [by left | by right].
           ++ intros [[_ ->]|?]; [by left | by right].
        -- split; [by right|]. intros [[? _]|?]; [congruence | done].
      * intros x. rewrite matched_heads by done. rewrite <- Hunc.
        destruct a; cbn [join_unchanged push_updated push_unchanged].
        -- split; [by right|]. intros [[? _]|?]; [congruence | done].
        -- rewrite elem_of_cons. split.
           ++ intros [-> |?]; [by left | by right].
           ++ intros [[_ ->]|?]; [by left | by right].
Qed.

(** X4.  When the active records of the ledger and the snapshot are each
    in strictly increasing symbol order, the differ returns: as added, the
    snapshot records whose symbol no active ledger record has, in order;
    as removed, the active ledger records whose symbol no snapshot record
    has, in order; as updated, the merges that differ from the ledger
    record; as unchanged, the ledger records whose merge does not. *)
Theorem diff_lists_sorted _BACKFILLS (components_history latest : list Stock.t)
    (revision : Revision.t) (removals : gmap string (list _RemovalHistory.t))
    (cs : Changeset.t) :
  strictly_sorted (List.filter active components_history) →
  strictly_sorted latest →
  _diff_lists _BACKFILLS components_history latest revision removals = Ok cs →
  let old := List.filter active components_history in
  let date := Revision.ny_date revision in
  let date_stand_in := EffectiveDate.from_date date true in
  Changeset.added cs
  = (make_added _BACKFILLS date date_stand_in
       <$> List.filter (fun l => negb (listed old l)) latest)
  ∧ Changeset.removed cs
    = (make_removed _BACKFILLS removals date_stand_in
         <$> List.filter (fun o => negb (listed latest o)) old)
  ∧ (∀ x, x ∈ Changeset.updated cs ↔
          matched old latest
            (fun o l => Stock.__ne__ (_merge_stocks o l) o = Ok true
                        ∧ x = _merge_stocks o l))
  ∧ (∀ x, x ∈ Changeset.unchanged cs ↔
          matched old latest
            (fun o l => Stock.__ne__ (_merge_stocks o l) o = Ok false
                        ∧ x = o)).
Proof.
  intros Hso Hsl Hd.
  apply diff_lists_Ok_inv in Hd as (j & Hj & ->).
  by apply join_sorted in Hj.
Qed.

Lemma diff_lists_sorted_witness :
  let stock s := Stock.mk (Some (exact_date (ymd 2015 1 1))) None
                   (Some (ymd 2015 1 1)) s "Corp" "energy" "0000000001" in
  let row s := Stock.mk None None None s "Corp" "energy" "0000000001" in
  let ledger := [stock "A"; stock "B"] in
  let latest := [row "B"; row "C"] in
  let revision := Revision.mk (ymd 2021 1 5) "1000" in
  let old := List.filter active ledger in
  let date_stand_in := EffectiveDate.from_date (ymd 2021 1 5) true in
  let cs := Changeset.mk revision
              [Stock.mk (Some (approx_date (ymd 2021 1 5))) None
                 (Some (ymd 2021 1 5)) "C" "Corp" "energy" "0000000001"]
              [Stock.with_date_removed (Some (approx_date (ymd 2021 1 5)))
                 (stock "A")]
              [] [stock "B"] [] [] in
  Changeset.added cs
  = (make_added ∅ (ymd 2021 1 5) date_stand_in
       <$> List.filter (fun l => negb (listed old l)) latest)
  ∧ Changeset.removed cs
    = (make_removed ∅ ∅ date_stand_in
         <$> List.filter (fun o => negb (listed latest o)) old)
  ∧ (∀ x, x ∈ Changeset.updated cs ↔
          matched old latest
            (fun o l => Stock.__ne__ (_merge_stocks o l) o = Ok true
                        ∧ x = _merge_stocks o l))
  ∧ (∀ x, x ∈ Changeset.unchanged cs ↔
          matched old latest
            (fun o l => Stock.__ne__ (_merge_stocks o l) o = Ok false
                        ∧ x = o)).
Proof.
  intros stock row ledger latest revision old date_stand_in cs.
  apply (diff_lists_sorted ∅ ledger latest revision ∅ cs).
  - repeat constructor.
  - repeat constructor.
  - vm_compute. reflexivity.
Defined.

(** ** The first loop of the differ *)

(** A record without its removal date. *)
Definition without_date_removed (s : Stock.t) : Stock.t :=
  Stock.with_date_removed None s.

Lemma scanned_partition removals (l : list Stock.t) :
  (without_date_removed
     <$> (split_inactive (scanned removals l)
          ++ split_inactive_updated (scanned removals l)))
  ≡ₚ (without_date_removed <$> List.filter (fun e => negb (active e)) l)
  ∧ Forall (fun x => is_Some (Stock.date_removed x))
      (split_inactive (scanned removals l)
       ++ split_inactive_updated (scanned removals l)).
Proof.
  induction l as [|e l [IHp IHs]].
  { split; [done|]. unfold scanned. simpl. constructor. }
  pose proof (split_step_cases removals e l) as H.
  cbn [List.filter]. unfold active at 1.
  destruct (Stock.date_removed e) as [d|] eqn:Hd.
  - rewrite bool_decide_true by eauto. cbn [negb].
    destruct H as [_ [(_ & -> & ->)|(_ & -> & ->)]].
    + split.
      * rewrite (assoc_L (++)), fmap_app, fmap_cons, IHp.
        rewrite <- Permutation_cons_append. simpl.
        by unfold without_date_removed, Stock.with_date_removed.
      * rewrite (assoc_L (++)). apply Forall_app. split; [done|].
        constructor; [|constructor]. simpl. eauto.
    + split.
      * rewrite fmap_cons, <- IHp, !fmap_app. simpl.
        rewrite <- (assoc_L (++)). symmetry. apply Permutation_middle.
      * rewrite Forall_app in *. destruct IHs as [? ?]. split; [|done].
        apply Forall_app. split; [done|]. constructor; [|constructor].
        rewrite Hd. eauto.
  - rewrite bool_decide_false by (by intros [? ?]). cbn [negb].
    destruct H as (_ & -> & ->). done.
Qed.

(** X5.  The first loop of the differ splits the ledger without losing a
    record: [old] holds the active records in ledger order, and the
    inactive records are found, once each and with at most their removal
    date changed, in [inactive] or [inactive_updated]. *)
Theorem split_history_partition removals (components_history : list Stock.t) :
  let sp := split_history removals components_history in
  split_old sp = List.filter active components_history
  ∧ (without_date_removed <$> (split_inactive sp ++ split_inactive_updated sp))
    ≡ₚ (without_date_removed
          <$> List.filter (fun e => negb (active e)) components_history)
  ∧ Forall (fun x => is_Some (Stock.date_removed x))
      (split_inactive sp ++ split_inactive_updated sp).
Proof.
  intros sp. split; [apply split_history_old|].
  destruct (scanned_partition removals components_history) as [Hp Hs].
  subst sp. unfold split_history.
  fold (scanned removals components_history).
  cbn [split_inactive split_inactive_updated]. split.
  - by rewrite <- !Permutation_rev.
  - rewrite Forall_app in *. destruct Hs as [H1 H2].
    split; by apply Forall_rev.
Qed.

(** ** The Removal Resolver and the order of a stint's two dates *)

Lemma get_date_removed_bounds (stock : Stock.t)
    (removals : gmap string (list _RemovalHistory.t))
    (date_stand_in a : EffectiveDate.t) :
  Stock.date_added stock = Some a →
  EffectiveDate.day a
  ≤ EffectiveDate.day (_get_date_removed stock removals date_stand_in).
Proof.
  intros Ha. rewrite get_date_removed_eq, Ha.
  destruct (_find_closest_removal_date _ _) as [c|].
  - destruct (Z.leb_spec (EffectiveDate.day a) (EffectiveDate.day c)); [done|].
    destruct (Z.ltb_spec (EffectiveDate.day date_stand_in) (EffectiveDate.day a));
      simpl; lia.
  - destruct (Z.ltb_spec (EffectiveDate.day date_stand_in) (EffectiveDate.day a));
      simpl; lia.
Qed.

(** X6.  The removal date that the resolver returns for a record is never
    before the record's date_added, and it is a date of a removal event of
    the record's symbol, the stand-in, or the date_added marked
    approximate. *)
Theorem get_date_removed_not_before_added (stock : Stock.t)
    (removals : gmap string (list _RemovalHistory.t))
    (date_stand_in a : EffectiveDate.t) :
  Stock.date_added stock = Some a →
  let r := _get_date_removed stock removals date_stand_in in
  EffectiveDate.day a ≤ EffectiveDate.day r
  ∧ (r ∈ event_dates (symbol_events removals stock)
     ∨ r = date_stand_in
     ∨ r = approx_date (EffectiveDate.day a)).
Proof.
  intros Ha r. split; [by apply get_date_removed_bounds|].
  subst r. rewrite get_date_removed_eq, Ha.
  pose proof (find_closest_removal_date_spec (symbol_events removals stock)
                date_stand_in) as Hc.
  destruct (_find_closest_removal_date _ _) as [c|].
  - apply closest_in_nearest in Hc as [Hc _].
    repeat case_match; auto.
  - case_match; auto.
Qed.

Lemma get_date_removed_not_before_added_witness :
  let stock := Stock.mk (Some (exact_date (ymd 2015 1 1))) None None
                 "X" "X Corp" "energy" "0000000001" in
  let removals : gmap string (list _RemovalHistory.t) :=
    {[ "X" := [_RemovalHistory.mk (Some (exact_date (ymd 2010 5 28))) "X"] ]} in
  let r := _get_date_removed stock removals (approx_date (ymd 2021 1 5)) in
  EffectiveDate.day (exact_date (ymd 2015 1 1)) ≤ EffectiveDate.day r
  ∧ (r ∈ event_dates (symbol_events removals stock)
     ∨ r = approx_date (ymd 2021 1 5)
     ∨ r = approx_date (EffectiveDate.day (exact_date (ymd 2015 1 1)))).
Proof.
  intros stock removals.
  apply (get_date_removed_not_before_added stock removals
           (approx_date (ymd 2021 1 5)) (exact_date (ymd 2015 1 1))).
  reflexivity.
Defined.

(** X7.  One round of reconciliation keeps the two dates of every stint
    in order: when no override applies in the diff, the snapshot has no
    removal dates and no ledger record is removed before it was added, the
    rebuilt ledger has no such record either. *)
Theorem reconciliation_keeps_dates_ordered _BACKFILLS
    (removals : gmap string (list _RemovalHistory.t)) (revision : Revision.t)
    (ledger snapshot ledger' : list Stock.t) (cs : Changeset.t) :
  overrides_idle _BACKFILLS ledger snapshot revision removals →
  all_active snapshot →
  dates_in_order ledger →
  _diff_lists _BACKFILLS ledger snapshot revision removals = Ok cs →
  _create_components_history cs = Ok ledger' →
  dates_in_order ledger'.
Proof.
  intros Hnb Hsnap Hledger Hdiff Hrebuilt e a r He Ha Hr.
  destruct (first_changeset _ _ _ _ _ _ _ Hnb Hdiff Hrebuilt)
    as (_ & _ & Hrem & _ & _ & _ & Hin & Hiu).
  destruct (rebuilt_parts _ _ Hrebuilt) as (previous & Hprev & _ & Hparts).
  cbn zeta in Hparts. rewrite Hparts in He.
  rewrite !elem_of_app, !elem_of_filter_bool in He.
  destruct He as [[He _]|[[He _]|[He|[He|He]]]].
  - pose proof (added_record_active _ _ _ _ _ _ _ Hnb Hsnap Hdiff Hrebuilt e He).
    congruence.
  - rewrite Forall_forall in Hrem. destruct (Hrem e He) as (o & _ & ->).
    simpl in Ha, Hr. injection Hr as <-.
    by apply get_date_removed_bounds.
  - pose proof (updated_record_active _ _ _ _ _ _ _ Hnb Hsnap Hdiff Hrebuilt e He).
    congruence.
  - pose proof (unchanged_record_active _ _ _ _ _ _ _ Hnb Hdiff Hrebuilt e He).
    congruence.
  - pose proof (coalesced_origin (make_added_map (Changeset.added cs))
                  (rev previous)) as Ho.
    rewrite Forall_forall in Ho.
    destruct (Ho e He) as [Hmet|(e' & a' & _ & _ & ->)]; [|discriminate Hr].
    rewrite elem_of_rev_iff, Hprev, Hin, Hiu in Hmet.
    rewrite elem_of_app, !elem_of_rev_iff in Hmet. destruct Hmet as [Hmet|Hmet].
    + apply split_inactive_elem in Hmet as (b & af & d & -> & _).
      apply (Hledger e a r); [|done|done].
      rewrite elem_of_app. right. by left.
    + apply split_inactive_updated_elem in Hmet as (b & e' & af & d & -> & _ & ->).
      simpl in Ha, Hr. injection Hr as <-. by apply get_date_removed_bounds.
Qed.

Lemma reconciliation_keeps_dates_ordered_witness :
  EffectiveDate.day (exact_date (ymd 2005 1 1))
  ≤ EffectiveDate.day (exact_date (ymd 2020 5 28)).
Proof.
  pose (a := Stock.mk (Some (exact_date (ymd 2010 1 1))) None (Some (ymd 2010 1 1))
               "A" "A Corp" "energy" "0000000001").
  pose (x := Stock.mk (Some (exact_date (ymd 2005 1 1)))
               (Some (approx_date (ymd 2020 6 1))) (Some (ymd 2005 1 1))
               "X" "X Corp" "energy" "0000000003").
  pose (x' := Stock.with_date_removed (Some (exact_date (ymd 2020 5 28))) x).
  pose (b := Stock.mk (Some (approx_date (ymd 2021 1 5))) None
               (Some (ymd 2021 1 5)) "B" "B Corp" "energy" "0000000002").
  pose (overrides :=
          {[ "B" := [Stock.mk (Some (exact_date (ymd 1990 1 1)))
                       (Some (exact_date (ymd 2000 1 1))) None
                       "B" "B Old Corp" "energy" "0000000002"] ]}
          : gmap string (list Stock.t)).
  pose (removals :=
          {[ "X" := [_RemovalHistory.mk (Some (exact_date (ymd 2020 5 28))) "X"] ]}
          : gmap string (list _RemovalHistory.t)).
  pose (revision := Revision.mk (ymd 2021 1 5) "1000").
  pose (snapshot := [Stock.mk None None None "A" "A Corp" "energy" "0000000001";
                     Stock.mk None None None "B" "B Corp" "energy" "0000000002"]).
  assert (overrides_idle overrides [a; x] snapshot revision removals) as Hidle
    by (vm_compute; reflexivity).
  assert (all_active snapshot) as Hactive by (repeat constructor).
  assert (dates_in_order [a; x]) as Hdates.
  { intros e da dr He Hda Hdr.
    apply elem_of_cons in He as [-> |He]; [discriminate|].
    apply list_elem_of_singleton in He as ->.
    injection Hda as <-. injection Hdr as <-. vm_compute. discriminate. }
  assert (_diff_lists overrides [a; x] snapshot revision removals
          = Ok (Changeset.mk revision [b] [] [] [a] [] [x'])) as Hdiff
    by (vm_compute; reflexivity).
  assert (_create_components_history
            (Changeset.mk revision [b] [] [] [a] [] [x']) = Ok [a; b; x'])
    as Hrebuilt by (vm_compute; reflexivity).
  apply (reconciliation_keeps_dates_ordered overrides removals revision [a; x]
           snapshot [a; b; x'] _ Hidle Hactive Hdates Hdiff Hrebuilt
           x' (exact_date (ymd 2005 1 1)) (exact_date (ymd 2020 5 28))).
  - apply elem_of_cons. right. apply elem_of_cons. right.
    apply elem_of_cons. left. reflexivity.
  - reflexivity.
  - reflexivity.
Defined.

(** ** The record merge *)

Lemma str_or_empty_l (o : string) : str_or EmptyString o = o.
Proof. reflexivity. Qed.

Lemma str_or_empty_r (l : string) : str_or l EmptyString = l.
Proof. unfold str_or, truthy. by destruct (String.eqb_spec l EmptyString). Qed.

Lemma opt_or_None_r {A} (l : option A) : opt_or l None = l.
Proof. by destruct l. Qed.

(** X8.  The empty record is neutral for [_merge_stocks] on both sides, a
    record merged with itself is unchanged, and merging the same latest
    record a second time changes nothing. *)
Theorem merge_stocks_algebra (o l : Stock.t) :
  _merge_stocks o Stock.empty = o
  ∧ _merge_stocks Stock.empty l = l
  ∧ _merge_stocks o o = o
  ∧ _merge_stocks (_merge_stocks o l) l = _merge_stocks o l.
Proof.
  split; [|split; [|split]].
  - destruct o as [oa or oc os on ox ok]. unfold _merge_stocks; simpl.
    by destruct oa, or, oc.
  - destruct l as [la lr lc ls ln lx lk]. unfold _merge_stocks; simpl.
    rewrite !str_or_empty_r, !opt_or_None_r. reflexivity.
  - destruct o as [oa or oc os on ox ok]. unfold _merge_stocks; simpl.
    destruct oa, or, oc; simpl;
      rewrite ?merge_effective_date_self, ?str_or_self; reflexivity.
  - apply merge_stocks_idem.
Qed.

Lemma merge_effective_date_exact (o l : EffectiveDate.t) :
  EffectiveDate.circa (_merge_effective_date o l)
  = EffectiveDate.circa o && EffectiveDate.circa l.
Proof.
  unfold _merge_effective_date.
  destruct (EffectiveDate.circa l) eqn:Hl, (EffectiveDate.circa o) eqn:Ho; simpl;
    try done.
  by case_match.
Qed.

(** X9.  A merge never replaces a sourced date by an estimate, and it
    keeps the first-observed date of the old record: if the old record's
    date_added (or date_removed) is exact, so is the merged one, and the
    old record's created_at, when it has one, is the merged one. *)
Theorem merge_stocks_keeps_exact_dates (o l : Stock.t) :
  (∀ d, Stock.date_added o = Some d → EffectiveDate.circa d = false →
        ∃ d', Stock.date_added (_merge_stocks o l) = Some d'
              ∧ EffectiveDate.circa d' = false)
  ∧ (∀ d, Stock.date_removed o = Some d → EffectiveDate.circa d = false →
          ∃ d', Stock.date_removed (_merge_stocks o l) = Some d'
                ∧ EffectiveDate.circa d' = false)
  ∧ (∀ c, Stock.created_at o = Some c →
          Stock.created_at (_merge_stocks o l) = Some c).
Proof.
  destruct o as [oa or oc os on ox ok], l as [la lr lc ls ln lx lk].
  unfold _merge_stocks; simpl. split; [|split].
  - intros d -> Hd. destruct la as [la|], or as [or|], lr as [lr|], oc, lc;
      simpl; eexists; (split; [reflexivity|]);
      rewrite ?merge_effective_date_exact, ?Hd; done.
  - intros d -> Hd. destruct oa as [oa|], la as [la|], lr as [lr|], oc, lc;
      simpl; eexists; (split; [reflexivity|]);
      rewrite ?merge_effective_date_exact, ?Hd; done.
  - intros c ->. by destruct oa, la, or, lr, lc.
Qed.

(** ** Equality of records *)

Lemma optdate_eq_true (x y : option EffectiveDate.t) :
  optdate_eq x y = Ok true ↔ x = y.
Proof.
  destruct x as [a|], y as [b|]; simpl; try (split; congruence).
  split.
  - intros [= H%EffectiveDate_eq_spec]. by subst.
  - intros [= ->]. by rewrite EffectiveDate_eq_refl.
Qed.

Lemma EffectiveDate_eq_sym (a b : EffectiveDate.t) :
  EffectiveDate.__eq__ a b = EffectiveDate.__eq__ b a.
Proof.
  unfold EffectiveDate.__eq__. rewrite Z.eqb_sym. f_equal.
  by destruct (EffectiveDate.circa a), (EffectiveDate.circa b).
Qed.

Lemma optdate_eq_sym (x y : option EffectiveDate.t) :
  optdate_eq x y = optdate_eq y x.
Proof.
  destruct x, y; simpl; try done. by rewrite EffectiveDate_eq_sym.
Qed.

(** X10.  [Stock.__eq__] holds exactly for two records that agree on every
    field but created_at, which it ignores; it gives the same answer, or
    the same exception, whichever record is on the left; and it does not
    raise when each date is present on both sides or on neither. *)
Theorem Stock_eq_spec (a b : Stock.t) :
  (Stock.__eq__ a b = Ok true ↔
   Stock.with_created_at None a = Stock.with_created_at None b)
  ∧ Stock.__eq__ a b = Stock.__eq__ b a
  ∧ ((is_Some (Stock.date_added a) ↔ is_Some (Stock.date_added b)) →
     (is_Some (Stock.date_removed a) ↔ is_Some (Stock.date_removed b)) →
     is_Ok (Stock.__eq__ a b)).
Proof.
  split; [|split].
  - destruct a as [aa ar ac asym an ax ak], b as [ba br bc bsym bn bx bk].
    unfold Stock.__eq__, Stock.with_created_at; simpl.
    destruct (String.eqb_spec asym bsym) as [->|Hs]; simpl;
      [|split; [done | intros [=]; done]].
    destruct (String.eqb_spec ak bk) as [->|Hk]; simpl;
      [|split; [done | intros [=]; done]].
    destruct (optdate_eq ar br) as [[|]|] eqn:Hr; simpl;
      [|split; [done | intros [=]; subst;
                       by rewrite (proj2 (optdate_eq_true _ _) eq_refl) in Hr]
       |split; [done | intros [=]; subst;
                       by rewrite (proj2 (optdate_eq_true _ _) eq_refl) in Hr]].
    apply optdate_eq_true in Hr as ->.
    destruct (optdate_eq aa ba) as [[|]|] eqn:Ha; simpl;
      [|split; [done | intros [=]; subst;
                       by rewrite (proj2 (optdate_eq_true _ _) eq_refl) in Ha]
       |split; [done | intros [=]; subst;
                       by rewrite (proj2 (optdate_eq_true _ _) eq_refl) in Ha]].
    apply optdate_eq_true in Ha as ->.
    destruct (String.eqb_spec ax bx) as [->|Hx]; simpl;
      [|split; [done | intros [=]; done]].
    destruct (String.eqb_spec an bn) as [->|Hn];
      [done | split; [done | intros [=]; done]].
  - unfold Stock.__eq__.
    rewrite (String.eqb_sym (Stock.symbol a)), (String.eqb_sym (Stock.cik a)),
      (String.eqb_sym (Stock.sector a)), (String.eqb_sym (Stock.name a)),
      (optdate_eq_sym (Stock.date_removed a)),
      (optdate_eq_sym (Stock.date_added a)).
    reflexivity.
  - intros Ha Hr. unfold Stock.__eq__.
    destruct (negb (String.eqb _ _)); [by eexists|].
    destruct (negb (String.eqb _ _)); [by eexists|].
    assert (∀ x y : option EffectiveDate.t,
              (is_Some x ↔ is_Some y) → is_Ok (optdate_eq x y)) as Hok.
    { intros [x|] [y|] [H1 H2]; simpl; try by eexists.
      - destruct H1 as [? [=]]. eauto.
      - destruct H2 as [? [=]]. eauto. }
    destruct (Hok _ _ Hr) as [r ->]. simpl. destruct r; simpl; [|by eexists].
    destruct (Hok _ _ Ha) as [r ->]. simpl. destruct r; simpl; [|by eexists].
    destruct (negb (String.eqb _ _)); by eexists.
Qed.

(** ** The rebuild on records that keep clear of the sentinels *)

(** X11.  On a changeset whose records keep clear of the two sentinel
    dates, the rebuild returns a ledger; the ledger is sorted by symbol,
    then cik, then the day of date_removed (an absent one counting as
    3000-01-01), nothing being said of the order of records that agree on
    the three; and its records keep clear of the sentinels in turn. *)
Theorem create_components_history_sorted (cs : Changeset.t) :
  Forall sentinel_free
    (Changeset.added cs ++ Changeset.removed cs ++ Changeset.updated cs
     ++ Changeset.unchanged cs ++ Changeset.inactive cs
     ++ Changeset.inactive_updated cs) →
  ∃ ledger, _create_components_history cs = Ok ledger
            ∧ StronglySorted stint_le ledger
            ∧ Forall sentinel_free ledger.
Proof.
  intros Hall. destruct (create_components_history_Ok cs Hall) as [ledger Hl].
  exists ledger. split; [done|].
  destruct (rebuilt_parts _ _ Hl) as (previous & Hprev & Hsorted & Hparts).
  split; [done|]. cbn zeta in Hparts.
  rewrite !Forall_app in Hall.
  destruct Hall as (Ha & Hr & Hu & Hn & Hi & Hiu).
  rewrite Forall_forall in Ha, Hr, Hu, Hn, Hi, Hiu.
  apply Forall_forall. intros x Hx. rewrite Hparts in Hx.
  rewrite !elem_of_app, !elem_of_filter_bool in Hx.
  destruct Hx as [[Hx _]|[[Hx _]|[Hx|[Hx|Hx]]]]; auto.
  assert (∀ y, y ∈ rev previous → sentinel_free y) as Hprev'.
  { intros y Hy. rewrite elem_of_rev_iff, Hprev, elem_of_app in Hy.
    destruct Hy; auto. }
  pose proof (coalesced_origin (make_added_map (Changeset.added cs))
                (rev previous)) as Ho.
  rewrite Forall_forall in Ho.
  destruct (Ho x Hx) as [Hmet|(e & a & He & Hlook & ->)]; [auto|].
  apply coalesced_sentinel_free; [auto|].
  apply make_added_map_lookup in Hlook as (l1 & l2 & Hadd & _).
  apply Ha. rewrite Hadd, elem_of_app. right. by left.
Qed.

Lemma create_components_history_sorted_witness :
  let a := Stock.mk (Some (exact_date (ymd 2010 1 1))) None (Some (ymd 2010 1 1))
             "A" "A Corp" "energy" "0000000001" in
  let x := Stock.mk (Some (exact_date (ymd 2005 1 1)))
             (Some (approx_date (ymd 2020 6 1))) (Some (ymd 2005 1 1))
             "X" "X Corp" "energy" "0000000003" in
  let cs := Changeset.mk (Revision.mk (ymd 2021 1 5) "1000") [] [] [] [a] [x] [] in
  ∃ ledger, _create_components_history cs = Ok ledger
            ∧ StronglySorted stint_le ledger
            ∧ Forall sentinel_free ledger.
Proof.
  intros a x cs. apply (create_components_history_sorted cs).
  repeat constructor; simpl; intros d Hd; try discriminate Hd;
    injection Hd as <-; vm_compute; discriminate.
Defined.

(** ** Symbols *)

Lemma symbol_char_plain (c : ascii) :
  symbol_char c = true → is_space c = false ∧ Ascii.eqb c ":" = false.
Proof.
  destruct c as [[] [] [] [] [] [] [] []]; vm_compute; intros H;
    (discriminate H || (split; reflexivity)).
Qed.

Lemma str_split_plain (s : string) :
  forallb symbol_char (list_ascii_of_string s) = true →
  str_split ":" s = [s].
Proof.
  induction s as [|c s IH]; [done|]. simpl.
  intros [Hc Hs]%andb_true_iff.
  apply symbol_char_plain in Hc as [_ ->]. by rewrite IH.
Qed.

Lemma rstrip_plain (s : string) :
  forallb symbol_char (list_ascii_of_string s) = true → rstrip s = s.
Proof.
  induction s as [|c s IH]; [done|]. simpl.
  intros [Hc Hs]%andb_true_iff. rewrite IH by done.
  apply symbol_char_plain in Hc as [-> _]. by destruct s.
Qed.

Lemma lstrip_plain (s : string) :
  forallb symbol_char (list_ascii_of_string s) = true → lstrip s = s.
Proof.
  destruct s as [|c s]; [done|]. simpl.
  intros [Hc Hs]%andb_true_iff.
  by apply symbol_char_plain in Hc as [-> _].
Qed.

Lemma to_symbol_plain (s : string) :
  matches_RE_SYMBOL s = true →
  _to_symbol s = default s (_SYMBOL_ALIAS !! s).
Proof.
  intros Hm. unfold _to_symbol.
  assert (forallb symbol_char (list_ascii_of_string s) = true) as Hc.
  { unfold matches_RE_SYMBOL in Hm. by apply andb_true_iff in Hm as [_ ?]. }
  rewrite (str_split_plain s Hc). unfold strip.
  by rewrite (lstrip_plain s Hc), (rstrip_plain s Hc), Hm.
Qed.

Lemma symbol_alias_canonical (s v : string) :
  _SYMBOL_ALIAS !! s = Some v →
  matches_RE_SYMBOL v = true ∧ _SYMBOL_ALIAS !! v = None.
Proof.
  intros H.
  assert (forallb
            (fun kv => matches_RE_SYMBOL (snd kv)
                       && bool_decide (_SYMBOL_ALIAS !! snd kv = None))
            (map_to_list _SYMBOL_ALIAS) = true) as Hall
    by (vm_compute; reflexivity).
  rewrite forallb_forall in Hall.
  apply elem_of_map_to_list, list_elem_of_In, Hall in H.
  apply andb_true_iff in H as [Hm Hn]. by apply bool_decide_eq_true in Hn.
Qed.

(** X12.  A symbol cell is converted to the empty string or to a string of
    one to ten of the allowed characters that is not itself an alias, and
    converting the result again returns it unchanged. *)
Theorem to_symbol_normal_form (s : string) :
  (_to_symbol s = EmptyString
   ∨ (matches_RE_SYMBOL (_to_symbol s) = true
      ∧ _SYMBOL_ALIAS !! _to_symbol s = None))
  ∧ _to_symbol (_to_symbol s) = _to_symbol s.
Proof.
  assert (_to_symbol s = EmptyString
          ∨ (matches_RE_SYMBOL (_to_symbol s) = true
             ∧ _SYMBOL_ALIAS !! _to_symbol s = None)) as H.
  { unfold _to_symbol. set (cell := strip _).
    destruct (matches_RE_SYMBOL cell) eqn:Hm; [|by left]. right.
    destruct (_SYMBOL_ALIAS !! cell) as [v|] eqn:Hv; simpl.
    - by apply symbol_alias_canonical in Hv.
    - done. }
  split; [exact H|]. destruct H as [-> |[Hm Hn]]; [done|].
  by rewrite (to_symbol_plain _ Hm), Hn.
Qed.

(** ** Reversed dictionaries *)

Lemma reverse_dict_inner {T} (key : T) (matches : list string)
    (out : gmap string T) (text : string) :
  fold_left (fun out text => <[text := key]> out) matches out !! text
  = if bool_decide (text ∈ matches) then Some key else out !! text.
Proof.
  revert out. induction matches as [|x matches IH]; intros out; cbn [fold_left].
  - by rewrite bool_decide_false by apply not_elem_of_nil.
  - rewrite IH. destruct (bool_decide_reflect (text ∈ matches)) as [Hin|Hin].
    + by rewrite bool_decide_true by (by right).
    + destruct (decide (text = x)) as [->|Hne].
      * rewrite bool_decide_true by (by left). by rewrite lookup_insert_eq.
      * rewrite bool_decide_false; [by rewrite lookup_insert_ne|].
        rewrite elem_of_cons. tauto.
Qed.

Lemma reverse_dict_snoc {T} (mapping : list (T * list string)) (key : T)
    (matches : list string) (text : string) :
  _reverse_dict (mapping ++ [(key, matches)]) !! text
  = if bool_decide (text ∈ matches) then Some key
    else _reverse_dict mapping !! text.
Proof.
  unfold _reverse_dict. rewrite fold_left_app. simpl. apply reverse_dict_inner.
Qed.

(** X13.  In the dictionary that [_reverse_dict] builds, a text is bound
    to the key of the last entry that lists it, and is unbound exactly
    when no entry lists it. *)
Theorem reverse_dict_lookup {T} (mapping : list (T * list string))
    (text : string) :
  (_reverse_dict mapping !! text = None ↔
   ∀ key matches, (key, matches) ∈ mapping → text ∉ matches)
  ∧ (∀ before key matches after,
       mapping = before ++ (key, matches) :: after →
       text ∈ matches →
       (∀ key' matches', (key', matches') ∈ after → text ∉ matches') →
       _reverse_dict mapping !! text = Some key)
  ∧ (∀ key, _reverse_dict mapping !! text = Some key →
            ∃ matches, (key, matches) ∈ mapping ∧ text ∈ matches).
Proof.
  split; [|split].
  - induction mapping as [|[k ms] mapping IH] using rev_ind.
    + split; [|done]. intros _ key matches H. by apply elem_of_nil in H.
    + rewrite reverse_dict_snoc.
      destruct (bool_decide_reflect (text ∈ ms)) as [Hin|Hin].
      * split; [done|]. intros H. destruct (H k ms); [|done].
        rewrite elem_of_app. right. by left.
      * rewrite IH. split.
        -- intros H key matches [Hm|Hm%list_elem_of_singleton]%elem_of_app.
           ++ by eapply H.
           ++ by injection Hm as -> ->.
        -- intros H key matches Hm. apply (H key matches).
           rewrite elem_of_app. by left.
  - intros before key matches after -> Hin.
    induction after as [|[k ms] after IH] using rev_ind; intros Hafter.
    + rewrite reverse_dict_snoc. by rewrite bool_decide_true.
    + rewrite app_comm_cons, (assoc_L (++)), reverse_dict_snoc.
      rewrite bool_decide_false.
      * apply IH. intros key' matches' H. apply (Hafter key' matches').
        rewrite elem_of_app. by left.
      * apply (Hafter k ms). rewrite elem_of_app. right. by left.
  - induction mapping as [|[k ms] mapping IH] using rev_ind.
    + intros key. unfold _reverse_dict. simpl. by rewrite lookup_empty.
    + intros key. rewrite reverse_dict_snoc.
      destruct (bool_decide_reflect (text ∈ ms)) as [Hin|Hin].
      * intros [= <-]. exists ms. split; [|done].
        rewrite elem_of_app. right. by left.
      * intros H. destruct (IH key H) as (matches & Hm & Ht).
        exists matches. split; [|done]. rewrite elem_of_app. by left.
Qed.

(** ** The Override Applier *)

Lemma create_backfill_lookup_snoc (stocks : list Stock.t) (s : Stock.t) :
  _create_backfill_lookup (stocks ++ [s])
  = <[Stock.symbol s :=
        default [] (_create_backfill_lookup stocks !! Stock.symbol s) ++ [s]]>
      (_create_backfill_lookup stocks).
Proof. unfold _create_backfill_lookup. by rewrite fold_left_app. Qed.

Lemma create_backfill_lookup_entries (stocks : list Stock.t) (symbol : string) :
  default [] (_create_backfill_lookup stocks !! symbol)
  = List.filter (fun s => String.eqb (Stock.symbol s) symbol) stocks.
Proof.
  induction stocks as [|s stocks IH] using rev_ind.
  - unfold _create_backfill_lookup. simpl. by rewrite lookup_empty.
  - rewrite create_backfill_lookup_snoc, List.filter_app. simpl.
    destruct (String.eqb_spec (Stock.symbol s) symbol) as [<-|Hne].
    + by rewrite lookup_insert_eq, <- IH.
    + by rewrite lookup_insert_ne, IH, app_nil_r.
Qed.

(** X14.  [_create_backfill_lookup] files under each symbol the records of
    that symbol, in the order of the list, and has no entry for a symbol
    that no record has. *)
Theorem create_backfill_lookup_spec (stocks : list Stock.t) (symbol : string) :
  default [] (_create_backfill_lookup stocks !! symbol)
  = List.filter (fun s => String.eqb (Stock.symbol s) symbol) stocks
  ∧ (_create_backfill_lookup stocks !! symbol = None ↔
     symbol ∉ Stock.symbol <$> stocks).
Proof.
  split; [apply create_backfill_lookup_entries|].
  induction stocks as [|s stocks IH] using rev_ind.
  - unfold _create_backfill_lookup. simpl. rewrite lookup_empty.
    split; [|done]. intros _. apply not_elem_of_nil.
  - rewrite create_backfill_lookup_snoc, fmap_app, elem_of_app. simpl.
    rewrite list_elem_of_singleton.
    destruct (decide (Stock.symbol s = symbol)) as [<-|Hne].
    + rewrite lookup_insert_eq. split; [done|]. intros H. destruct H. by right.
    + rewrite lookup_insert_ne by done. rewrite IH. split.
      * intros H [?|?]; [done | congruence].
      * intros H ?. apply H. by left.
Qed.

(** X15.  Applying the overrides of a table built by
    [_create_backfill_lookup] never changes the symbol of a record; a
    record without date_added is returned as it is; and with
    [omit_removal] the result is the record itself or has no
    date_removed. *)
Theorem backfill_spec (overrides : list Stock.t) (stock : Stock.t)
    (omit_removal : bool) :
  let _BACKFILLS := _create_backfill_lookup overrides in
  Stock.symbol (_backfill _BACKFILLS stock omit_removal) = Stock.symbol stock
  ∧ (Stock.date_added stock = None →
     _backfill _BACKFILLS stock omit_removal = stock)
  ∧ (Stock.symbol stock ∉ Stock.symbol <$> overrides →
     _backfill _BACKFILLS stock omit_removal = stock)
  ∧ (_backfill _BACKFILLS stock true = stock
     ∨ Stock.date_removed (_backfill _BACKFILLS stock true) = None).
Proof.
  intros _BACKFILLS. subst _BACKFILLS. unfold _backfill.
  rewrite create_backfill_lookup_entries.
  split; [|split; [|split]].
  - destruct (List.find _ _) as [b|] eqn:Hf; [|done].
    apply List.find_some in Hf as [Hb _].
    apply List.filter_In in Hb as [_ Hb%String.eqb_eq].
    assert (Stock.symbol (_merge_stocks stock b) = Stock.symbol stock) as Hs
      by (by rewrite merge_stocks_symbol, (str_or_same _ _ (eq_sym Hb))).
    by destruct omit_removal.
  - intros Ha. destruct (List.find _ _) as [b|] eqn:Hf; [|done].
    apply List.find_some in Hf as [_ Hm]. unfold backfill_matches in Hm.
    rewrite Ha in Hm. by repeat case_match.
  - intros Hno. rewrite filter_none; [done|].
    apply Forall_forall. intros x Hx.
    destruct (String.eqb_spec (Stock.symbol x) (Stock.symbol stock)) as [He|];
      [|done].
    destruct Hno. rewrite <- He. apply list_elem_of_fmap. eauto.
  - destruct (List.find _ _) as [b|]; [by right | by left].
Qed.

(** ** White space and tokens *)

(** Every character of [s] satisfies [P]. *)
Fixpoint str_forall (P : ascii → bool) (s : string) : bool :=
  match s with
  | EmptyString => true
  | String c s' => P c && str_forall P s'
  end.

Definition not_space (c : ascii) : bool := negb (is_space c).

Lemma str_forall_app P (a b : string) :
  str_forall P (a +:+ b) = str_forall P a && str_forall P b.
Proof.
  induction a as [|c a IH]; [done|]. simpl. by rewrite IH, andb_assoc.
Qed.

Lemma str_forall_impl (P Q : ascii → bool) (s : string) :
  (∀ c, P c = true → Q c = true) →
  str_forall P s = true → str_forall Q s = true.
Proof.
  intros HPQ. induction s as [|c s IH]; [done|]. simpl.
  intros [Hc Hs]%andb_true_iff. by rewrite (HPQ c Hc), IH.
Qed.

Lemma str_forall_join P (sep : string) (ws : list string) :
  str_forall P sep = true → Forall (fun w => str_forall P w = true) ws →
  str_forall P (str_join sep ws) = true.
Proof.
  intros Hsep. induction 1 as [|w ws Hw Hws IH]; [done|].
  destruct ws as [|w' ws]; [done|].
  change (str_join sep (w :: w' :: ws))
    with (w +:+ sep +:+ str_join sep (w' :: ws)).
  by rewrite !str_forall_app, Hw, Hsep, IH.
Qed.

Lemma whitespace_pieces_nonempty (s : string) : whitespace_pieces s ≠ [].
Proof.
  destruct s as [|c s]; [done|]. simpl.
  destruct (is_space c); [done|]. by destruct (whitespace_pieces s).
Qed.

(** The pieces hold the characters of the string that are not white
    space. *)
Lemma whitespace_pieces_forall (P : ascii → bool) (s : string) :
  str_forall (fun c => is_space c || P c) s = true →
  Forall (fun p => str_forall (fun c => not_space c && P c) p = true)
    (whitespace_pieces s).
Proof.
  induction s as [|c s IH]; simpl.
  - by repeat constructor.
  - intros [Hc Hs]%andb_true_iff. specialize (IH Hs).
    destruct (is_space c) eqn:Hsp; [by constructor|].
    simpl in Hc.
    destruct (whitespace_pieces s) as [|p ps];
      [repeat constructor; simpl; unfold not_space; by rewrite Hsp, Hc|].
    apply Forall_cons in IH as [Hp Hps]. constructor; [|done].
    simpl. unfold not_space at 1. by rewrite Hsp, Hc, Hp.
Qed.

Lemma whitespace_pieces_plain (w : string) :
  str_forall not_space w = true → whitespace_pieces w = [w].
Proof.
  induction w as [|c w IH]; [done|]. simpl.
  intros [Hc Hw]%andb_true_iff. unfold not_space in Hc.
  apply negb_true_iff in Hc. by rewrite Hc, IH.
Qed.

Lemma whitespace_pieces_space (w rest : string) :
  str_forall not_space w = true →
  whitespace_pieces (w +:+ String " " rest) = w :: whitespace_pieces rest.
Proof.
  induction w as [|c w IH]; [done|]. simpl.
  intros [Hc Hw]%andb_true_iff. unfold not_space in Hc.
  apply negb_true_iff in Hc. by rewrite Hc, IH.
Qed.

(** A word: not empty and without white space. *)
Definition is_word (w : string) : Prop :=
  truthy w = true ∧ str_forall not_space w = true.

Lemma str_words_are_words (s : string) : Forall is_word (str_words s).
Proof.
  unfold str_words. apply Forall_forall. intros w Hw.
  apply list_elem_of_In, List.filter_In in Hw as [Hw Ht]. split; [done|].
  pose proof (whitespace_pieces_forall (fun _ => true) s) as H.
  rewrite Forall_forall in H. apply list_elem_of_In in Hw.
  eapply str_forall_impl; [|apply (H ltac:(
    clear; induction s as [|c s IH]; [done|]; simpl;
    by rewrite orb_true_r, IH) w Hw)].
  intros c Hc. by apply andb_true_iff in Hc as [? _].
Qed.

Lemma str_words_join (ws : list string) :
  Forall is_word ws → str_words (str_join " " ws) = ws.
Proof.
  unfold str_words. induction 1 as [|w ws [Ht Hw] Hws IH]; [done|].
  destruct ws as [|w' ws].
  - simpl. rewrite (whitespace_pieces_plain w Hw). simpl. by rewrite Ht.
  - change (str_join " " (w :: w' :: ws))
      with (w +:+ String " " (str_join " " (w' :: ws))).
    rewrite (whitespace_pieces_space w _ Hw). cbn [List.filter].
    by rewrite Ht, IH.
Qed.

Lemma str_words_plain (w : string) :
  str_forall not_space w = true →
  str_words w = if truthy w then [w] else [].
Proof.
  intros Hw. unfold str_words. rewrite (whitespace_pieces_plain w Hw).
  simpl. by destruct (truthy w).
Qed.

(** X16.  [_collapse_whitespace] returns the words of the text joined by
    single spaces: the result has the same words as the text, collapsing
    it again changes nothing, and a text without white space is returned
    as it is. *)
Theorem collapse_whitespace_normal_form (s : string) :
  str_words (_collapse_whitespace s) = str_words s
  ∧ _collapse_whitespace (_collapse_whitespace s) = _collapse_whitespace s
  ∧ (str_forall not_space s = true → _collapse_whitespace s = s).
Proof.
  assert (str_words (_collapse_whitespace s) = str_words s) as Hw
    by apply str_words_join, str_words_are_words.
  split; [exact Hw|]. split.
  - unfold _collapse_whitespace at 1. by rewrite Hw.
  - intros Hs. unfold _collapse_whitespace. rewrite (str_words_plain s Hs).
    unfold truthy. by destruct (String.eqb_spec s EmptyString) as [->|].
Qed.

(** *** Tokens *)

(** A character that [_to_token] leaves as it is. *)
Definition token_char (c : ascii) : bool :=
  not_space c && negb (Ascii.eqb c "-") && negb (Ascii.eqb c ",")
  && Ascii.eqb (lower_char c) c.

(** A character of a word of the text in which [-] and [,] have been
    replaced. *)
Definition word_char (c : ascii) : bool :=
  not_space c && negb (Ascii.eqb c "-") && negb (Ascii.eqb c ",").

Lemma lower_char_token (c : ascii) :
  word_char c = true → token_char (lower_char c) = true.
Proof.
  destruct c as [[] [] [] [] [] [] [] []]; vm_compute; intros H;
    (discriminate H || reflexivity).
Qed.

Lemma str_lower_token (s : string) :
  str_forall word_char s = true → str_forall token_char (str_lower s) = true.
Proof.
  induction s as [|c s IH]; [done|]. simpl.
  intros [Hc Hs]%andb_true_iff. by rewrite (lower_char_token c Hc), IH.
Qed.

Lemma str_lower_fixed (s : string) :
  str_forall token_char s = true → str_lower s = s.
Proof.
  induction s as [|c s IH]; [done|]. simpl.
  intros [Hc Hs]%andb_true_iff. rewrite IH by done. f_equal.
  unfold token_char in Hc. apply andb_true_iff in Hc as [_ Hc].
  by apply Ascii.eqb_eq in Hc.
Qed.

Lemma str_replace_absent (old : ascii) (new s : string) :
  str_forall (fun c => negb (Ascii.eqb c old)) s = true →
  str_replace old new s = s.
Proof.
  induction s as [|c s IH]; [done|]. simpl.
  intros [Hc Hs]%andb_true_iff. apply negb_true_iff in Hc.
  by rewrite Hc, IH.
Qed.

Lemma str_replace_dash (s : string) :
  str_forall (fun c => negb (Ascii.eqb c "-")) (str_replace "-" " " s) = true.
Proof.
  induction s as [|c s IH]; [done|]. simpl.
  destruct (Ascii.eqb c "-") eqn:Hc; simpl; [done|]. by rewrite Hc.
Qed.

Lemma str_replace_comma (s : string) :
  str_forall (fun c => negb (Ascii.eqb c "-")) s = true →
  str_forall (fun c => negb (Ascii.eqb c "-") && negb (Ascii.eqb c ","))
    (str_replace "," EmptyString s) = true.
Proof.
  induction s as [|c s IH]; [done|]. simpl.
  intros [Hc Hs]%andb_true_iff.
  destruct (Ascii.eqb c ",") eqn:Hcomma; simpl; [by apply IH|].
  rewrite Hc, Hcomma. simpl. by apply IH.
Qed.

Lemma to_token_chars (s : string) : str_forall token_char (_to_token s) = true.
Proof.
  unfold _to_token. apply str_lower_token, str_forall_join; [done|].
  set (t := str_replace "," EmptyString (str_replace "-" " " s)).
  assert (str_forall (fun c => negb (Ascii.eqb c "-") && negb (Ascii.eqb c ","))
            t = true) as Ht
    by apply str_replace_comma, str_replace_dash.
  pose proof (whitespace_pieces_forall
                (fun c => negb (Ascii.eqb c "-") && negb (Ascii.eqb c ",")) t) as H.
  unfold str_words. apply Forall_forall. intros w Hw.
  apply list_elem_of_In, List.filter_In in Hw as [Hw _].
  apply list_elem_of_In in Hw.
  assert (str_forall
            (fun c => is_space c
                      || negb (Ascii.eqb c "-") && negb (Ascii.eqb c ",")) t
          = true) as Ht'.
  { eapply str_forall_impl; [|exact Ht]. intros c Hc. simpl in Hc.
    by rewrite Hc, orb_true_r. }
  specialize (H Ht'). rewrite Forall_forall in H.
  eapply str_forall_impl; [|exact (H w Hw)].
  intros c Hc. cbv beta in Hc. unfold word_char. by rewrite andb_assoc in Hc.
Qed.

Lemma to_token_fixed (t : string) :
  str_forall token_char t = true → _to_token t = t.
Proof.
  intros Ht. unfold _to_token.
  rewrite (str_replace_absent "-" " " t), (str_replace_absent "," EmptyString t).
  - rewrite str_words_plain.
    + unfold truthy. destruct (String.eqb_spec t EmptyString) as [->|]; [done|].
      simpl. by apply str_lower_fixed.
    + eapply str_forall_impl; [|exact Ht]. intros c Hc. unfold token_char in Hc.
      by repeat (apply andb_true_iff in Hc as [Hc _]).
  - eapply str_forall_impl; [|exact Ht]. intros c Hc. unfold token_char in Hc.
    apply andb_true_iff in Hc as [Hc _]. by apply andb_true_iff in Hc as [_ ?].
  - eapply str_forall_impl; [|exact Ht]. intros c Hc. unfold token_char in Hc.
    apply andb_true_iff in Hc as [Hc _]. apply andb_true_iff in Hc as [Hc _].
    by apply andb_true_iff in Hc as [_ ?].
Qed.

(** X17.  A token has no white space, no hyphen, no comma and no capital
    letter, and [_to_token] returns a token as it is: converting twice is
    converting once. *)
Theorem to_token_normal_form (s : string) :
  str_forall token_char (_to_token s) = true
  ∧ _to_token (_to_token s) = _to_token s
  ∧ (str_forall token_char s = true → _to_token s = s).
Proof.
  split; [apply to_token_chars|]. split; [|apply to_token_fixed].
  apply to_token_fixed, to_token_chars.
Qed.

(** *** The heading and sector tables *)

Lemma match_sector_keys :
  map_Forall (fun text sector => _to_token text = text) _MATCH_SECTOR.
Proof.
  intros text sector H.
  assert (forallb (fun kv => String.eqb (_to_token (fst kv)) (fst kv))
            (map_to_list _MATCH_SECTOR) = true) as Hall
    by (vm_compute; reflexivity).
  rewrite forallb_forall in Hall.
  apply elem_of_map_to_list, list_elem_of_In, Hall in H.
  by apply String.eqb_eq in H.
Qed.

Lemma match_sector_values (sector : _Sector) :
  _MATCH_SECTOR !! _Sector_value sector = Some sector.
Proof. destruct sector; vm_compute; reflexivity. Qed.

Lemma sector_value_token (sector : _Sector) :
  _to_token (_Sector_value sector) = _Sector_value sector.
Proof. destruct sector; vm_compute; reflexivity. Qed.

(** X18.  [_to_sector] maps every text listed for a sector to the value of
    that sector, and a value of the taxonomy to itself; its result is
    empty or a value of the taxonomy, and converting a converted sector
    changes nothing. *)
Theorem to_sector_spec (s : string) :
  (∀ text sector, _MATCH_SECTOR !! text = Some sector →
                  _to_sector text = _Sector_value sector)
  ∧ (∀ sector, _to_sector (_Sector_value sector) = _Sector_value sector)
  ∧ (_to_sector s = EmptyString ∨ ∃ sector, _to_sector s = _Sector_value sector)
  ∧ _to_sector (_to_sector s) = _to_sector s.
Proof.
  assert (∀ sector, _to_sector (_Sector_value sector) = _Sector_value sector)
    as Hv.
  { intros sector. unfold _to_sector.
    by rewrite sector_value_token, match_sector_values. }
  split; [|split; [|split]].
  - intros text sector Hl. unfold _to_sector.
    by rewrite (match_sector_keys text sector Hl), Hl.
  - exact Hv.
  - unfold _to_sector. destruct (_MATCH_SECTOR !! _to_token s); eauto.
  - destruct (_MATCH_SECTOR !! _to_token s) as [sector|] eqn:Hl.
    + assert (_to_sector s = _Sector_value sector) as ->
        by (unfold _to_sector; by rewrite Hl).
      apply Hv.
    + assert (_to_sector s = EmptyString) as ->
        by (unfold _to_sector; by rewrite Hl).
      vm_compute. reflexivity.
Qed.

(** ** Dates in cells *)

Definition not_star (c : ascii) : bool := negb (Ascii.eqb c "*").

Lemma endswith_star_false (s : string) :
  str_forall not_star s = true → endswith_star s = false.
Proof.
  induction s as [|c s IH]; [done|]. simpl.
  intros [Hc Hs]%andb_true_iff. destruct s as [|c' s].
  - by apply negb_true_iff in Hc.
  - by apply IH.
Qed.

Lemma endswith_star_snoc (s : string) : endswith_star (s +:+ "*") = true.
Proof.
  induction s as [|c s IH]; [done|].
  change (String c s +:+ "*") with (String c (s +:+ "*")).
  cbn [endswith_star]. rewrite IH. by destruct s.
Qed.

Lemma str_init_snoc (s : string) (c : ascii) :
  str_init (s +:+ String c EmptyString) = s.
Proof.
  induction s as [|c' s IH]; [done|].
  change (String c' s +:+ String c EmptyString)
    with (String c' (s +:+ String c EmptyString)).
  cbn [str_init]. rewrite IH. by destruct s.
Qed.

Lemma str_app_nil_r (s : string) : s +:+ EmptyString = s.
Proof.
  induction s as [|c s IH]; [done|].
  change (String c (s +:+ EmptyString) = String c s). by rewrite IH.
Qed.

Lemma pretty_N_go_not_star (x : N) (s : string) :
  str_forall not_star s = true → str_forall not_star (pretty_N_go x s) = true.
Proof.
  revert s. induction (N.lt_wf_0 x) as [x _ IH]; intros s Hs.
  assert (x = 0 ∨ 0 < x)%N as [->|Hx] by lia.
  - by rewrite pretty_N_go_0.
  - rewrite pretty_N_go_step by done. apply IH; [by apply N.div_lt|].
    simpl. rewrite Hs, andb_true_r.
    unfold pretty_N_char. by repeat case_match.
Qed.

Lemma pretty_N_not_star (x : N) : str_forall not_star (pretty x) = true.
Proof.
  unfold pretty, pretty_N. case_decide; [done|].
  by apply pretty_N_go_not_star.
Qed.

Lemma zeros_not_star (k : nat) :
  str_forall not_star (String.concat EmptyString (replicate k "0"%string)) = true.
Proof.
  induction k as [|k IH]; [done|].
  cbn [replicate]. destruct (replicate k "0"%string) as [|z zs]; [done|].
  change (String.concat EmptyString ("0"%string :: z :: zs))
    with ("0" +:+ EmptyString +:+ String.concat EmptyString (z :: zs)).
  by rewrite !str_forall_app, IH.
Qed.

Lemma zero_padded_not_star (width : nat) (n : Z) :
  str_forall not_star (zero_padded width n) = true.
Proof.
  unfold zero_padded.
  by rewrite str_forall_app, pretty_N_not_star, zeros_not_star.
Qed.

Lemma strftime_not_star (d : date) : str_forall not_star (strftime d) = true.
Proof.
  unfold strftime. destruct (ord2ymd d) as [[y m] dd].
  by rewrite !str_forall_app, !zero_padded_not_star.
Qed.

Lemma to_effective_date_starred (_to_date : string → result (option date))
    (d : date) :
  _to_effective_date _to_date (strftime d +:+ "*")
  = match _to_date (strftime d) with
    | Ok date => Ok (approx_date <$> date)
    | Raise e => Raise e
    end.
Proof.
  unfold _to_effective_date.
  rewrite endswith_star_snoc, str_init_snoc.
  by destruct (_to_date (strftime d)) as [[?|]|].
Qed.

Lemma to_effective_date_plain (_to_date : string → result (option date))
    (d : date) :
  _to_effective_date _to_date (strftime d)
  = match _to_date (strftime d) with
    | Ok date => Ok (exact_date <$> date)
    | Raise e => Raise e
    end.
Proof.
  unfold _to_effective_date.
  rewrite (endswith_star_false _ (strftime_not_star d)).
  by destruct (_to_date (strftime d)) as [[?|]|].
Qed.

Lemma to_effective_date_str (_to_date : string → result (option date))
    (e : EffectiveDate.t) :
  _to_date (strftime (EffectiveDate.day e)) = Ok (Some (EffectiveDate.day e)) →
  _to_effective_date _to_date (EffectiveDate__str__ e) = Ok (Some e).
Proof.
  intros Hd. destruct e as [d [|]]; unfold EffectiveDate__str__; simpl in *.
  - by rewrite to_effective_date_starred, Hd.
  - by rewrite str_app_nil_r, to_effective_date_plain, Hd.
Qed.

(** X19.  The text of a day followed by a star is read as that day marked
    approximate, the text of a day alone as that day exact, whenever
    [_to_date] reads the text of the day; so the text that
    [EffectiveDate.__str__] writes is read back as the date it was written
    from. *)
Theorem effective_date_round_trip (_to_date : string → result (option date))
    (e : EffectiveDate.t) :
  _to_date (strftime (EffectiveDate.day e)) = Ok (Some (EffectiveDate.day e)) →
  _to_effective_date _to_date (strftime (EffectiveDate.day e) +:+ "*")
  = Ok (Some (approx_date (EffectiveDate.day e)))
  ∧ _to_effective_date _to_date (strftime (EffectiveDate.day e))
    = Ok (Some (exact_date (EffectiveDate.day e)))
  ∧ _to_effective_date _to_date (EffectiveDate__str__ e) = Ok (Some e).
Proof.
  intros Hd. split; [|split].
  - by rewrite to_effective_date_starred, Hd.
  - by rewrite to_effective_date_plain, Hd.
  - by apply to_effective_date_str.
Qed.

Lemma effective_date_round_trip_witness :
  let e := approx_date (ymd 2020 5 28) in
  let _to_date := fun _ : string => Ok (Some (ymd 2020 5 28)) in
  _to_effective_date _to_date (strftime (EffectiveDate.day e) +:+ "*")
  = Ok (Some (approx_date (EffectiveDate.day e)))
  ∧ _to_effective_date _to_date (strftime (EffectiveDate.day e))
    = Ok (Some (exact_date (EffectiveDate.day e)))
  ∧ _to_effective_date _to_date (EffectiveDate__str__ e) = Ok (Some e).
Proof.
  intros e _to_date. apply (effective_date_round_trip _to_date e).
  reflexivity.
Defined.

(** ** Reading back the ledger file *)

Section LedgerFile.
Variable _to_cik : string → string.
Variable _to_date : string → result (option date).

(** Every field of the record is in the form its converter returns, and
    [_to_date] reads the days of its dates back. *)
Definition reads_back (s : Stock.t) : Prop :=
  truthy (Stock.symbol s) = true
  ∧ _to_symbol (Stock.symbol s) = Stock.symbol s
  ∧ _collapse_whitespace (Stock.name s) = Stock.name s
  ∧ _to_sector (Stock.sector s) = Stock.sector s
  ∧ _to_cik (Stock.cik s) = Stock.cik s
  ∧ (∀ d, Stock.date_added s = Some d →
          _to_date (strftime (EffectiveDate.day d))
          = Ok (Some (EffectiveDate.day d)))
  ∧ (∀ d, Stock.date_removed s = Some d →
          _to_date (strftime (EffectiveDate.day d))
          = Ok (Some (EffectiveDate.day d)))
  ∧ (∀ c, Stock.created_at s = Some c → _to_date (strftime c) = Ok (Some c)).

Definition ledger_headings : list (option _StockField) :=
  [Some SYMBOL; Some CIK; Some NAME; Some SECTOR; Some DATE_ADDED;
   Some DATE_REMOVED; Some CREATED_AT].

Lemma ledger_row_read (s : Stock.t) :
  _to_date EmptyString = Ok None → reads_back s →
  row_stock _collapse_whitespace _to_sector _to_cik
    (_to_effective_date _to_date) _to_date ledger_headings
    (Stock_to_list s true) = Ok s.
Proof.
  intros He (_ & Hsym & Hname & Hsec & Hcik & Ha & Hr & Hc).
  unfold row_stock, Stock_to_list, Stock_to_dict, ledger_headings.
  cbn [fmap list_fmap app snd row_to_stock lookup list_lookup set_cell
       mbind result_bind].
  rewrite Hsym, Hname, Hsec, Hcik.
  assert (∀ d : option EffectiveDate.t,
            (∀ e, d = Some e →
                  _to_date (strftime (EffectiveDate.day e))
                  = Ok (Some (EffectiveDate.day e))) →
            _to_effective_date _to_date
              (from_option EffectiveDate__str__ EmptyString d) = Ok d) as Hdate.
  { intros [e|] H; simpl.
    - apply to_effective_date_str. by apply H.
    - unfold _to_effective_date. simpl. by rewrite He. }
  rewrite (Hdate _ Ha), (Hdate _ Hr).
  cbn [mbind result_bind].
  assert (_to_date (from_option date__str__ EmptyString (Stock.created_at s))
          = Ok (Stock.created_at s)) as ->.
  { destruct (Stock.created_at s) as [c|]; simpl; [by apply Hc | done]. }
  by destruct s.
Qed.

(** No two records of the list agree on symbol, cik and day of removal. *)
Definition stints_distinct (l : list Stock.t) : Prop :=
  ∀ x y, x ∈ l → y ∈ l → stint_le x y → stint_le y x → x = y.

(** X20.  The ledger file is read back: when every field of every record
    is in the form its converter returns, with a symbol, no date falls on
    the sentinel that stands for its absence, and [_to_date] reads the
    days of the dates back and an empty cell as no date, reading the rows
    that [write_components_history] writes raises nothing and gives the
    records, sorted by symbol, cik and day of removal; it gives the very
    list written when that list is so sorted and no two of its records
    agree on the three. *)
Theorem ledger_file_round_trip (components_history : list Stock.t) :
  _to_date EmptyString = Ok None →
  Forall reads_back components_history →
  Forall sentinel_free components_history →
  ∃ read,
    _csv_to_stocks _to_token _collapse_whitespace _to_sector _to_cik
      (_to_effective_date _to_date) _to_date
      (write_components_history components_history) None
    = Ok read
    ∧ read ≡ₚ components_history
    ∧ StronglySorted stint_le read
    ∧ (StronglySorted stint_le components_history →
       stints_distinct components_history →
       read = components_history).
Proof.
  intros He Hall Hfree.
  assert (_csv_to_stocks _to_token _collapse_whitespace _to_sector _to_cik
            (_to_effective_date _to_date) _to_date
            (write_components_history components_history) None
          = sorted Stock.__lt__ components_history) as ->.
  { unfold write_components_history, write_replace_csv, _csv_to_stocks.
    assert (((fun heading => _MATCH_STOCK_FIELD !! _to_token heading)
               <$> (_StockField_value
                      <$> List.filter
                            (fun f => true || negb (bool_decide
                               (f ∈ [DATE_ADDED; DATE_REMOVED; CREATED_AT])))
                            _StockField_members))
            = ledger_headings) as -> by (vm_compute; reflexivity).
    assert (negb (bool_decide (found_fields ledger_headings ∩ required_fields
                               = required_fields)) = false) as ->
      by (vm_compute; reflexivity).
    assert (rows_parsed _collapse_whitespace _to_sector _to_cik
              (_to_effective_date _to_date) _to_date ledger_headings
              ((fun stock => Stock_to_list stock true) <$> components_history)
              components_history) as Hrows.
    { unfold rows_parsed. apply Forall2_fmap_l, Forall_Forall2_diag.
      eapply Forall_impl; [exact Hall|]. intros s Hs. by apply ledger_row_read. }
    rewrite (rows_to_stocks_parsed _ _ _ _ _ _ _ _ [] 0%nat Hrows).
    simpl. rewrite filter_all, length_fmap.
    - by rewrite Nat.ltb_irrefl.
    - eapply Forall_impl; [exact Hall|]. by intros s [Hs _]. }
  destruct (sorted_Ok Stock.__lt__ components_history) as [read Hread].
  { rewrite Forall_forall in Hfree. intros x y Hx Hy.
    apply Stock_lt_Ok; by apply Hfree. }
  exists read. split; [done|].
  pose proof (sorted_perm _ _ _ Hread) as Hperm.
  pose proof (sorted_stocks_StronglySorted _ _ Hread) as Hsorted.
  split; [done|]. split; [done|].
  intros Hwritten Hdistinct.
  apply (StronglySorted_unique_strong stint_le); [|done..].
  intros x y Hx Hy Hxy Hyx. apply Hdistinct; [by rewrite <- Hperm|done..].
Qed.

End LedgerFile.

Lemma ledger_file_round_trip_witness :
  let _to_cik := fun s : string => s in
  let _to_date := fun s : string =>
    if String.eqb s EmptyString then Ok None else Ok (Some (ymd 2010 1 1)) in
  let a := Stock.mk (Some (exact_date (ymd 2010 1 1))) None (Some (ymd 2010 1 1))
             "A" "A Corp" "energy" "0000000001" in
  ∃ read,
    _csv_to_stocks _to_token _collapse_whitespace _to_sector _to_cik
      (_to_effective_date _to_date) _to_date
      (write_components_history [a]) None
    = Ok read
    ∧ read ≡ₚ [a]
    ∧ StronglySorted stint_le read
    ∧ (StronglySorted stint_le [a] → stints_distinct [a] → read = [a]).
Proof.
  intros _to_cik _to_date a.
  apply (ledger_file_round_trip _to_cik _to_date [a]).
  - reflexivity.
  - apply Forall_cons. split; [|apply Forall_nil]. unfold reads_back.
    split_and!.
    1-5: vm_compute; reflexivity.
    all: try exact I.
    all: intros d Hd; vm_compute in Hd; try discriminate Hd;
      injection Hd as <-; vm_compute; reflexivity.
  - apply Forall_cons. split; [|by apply Forall_nil].
    split; intros d Hd; vm_compute in Hd; try discriminate Hd;
      injection Hd as <-; vm_compute; discriminate.
Defined.

(** ** The heap of removal events *)

Lemma insert_head_perm {A} (l : list A) (j : nat) (p x : A) :
  l !! j = Some p → p :: <[j := x]> l ≡ₚ x :: l.
Proof.
  revert j. induction l as [|a l IH]; intros [|j] Hj; try done; simpl in *.
  - injection Hj as ->. apply Permutation_swap.
  - rewrite (Permutation_swap a p), (IH j Hj). apply Permutation_swap.
Qed.

Lemma insert_exchange_perm {A} (l : list A) (i : nat) (p x : A) :
  (i < length l)%nat → x :: <[i := p]> l ≡ₚ p :: <[i := x]> l.
Proof.
  revert i. induction l as [|a l IH]; intros [|i] Hi; simpl in *; try lia.
  - apply Permutation_swap.
  - rewrite (Permutation_swap a x), (IH i) by lia. apply Permutation_swap.
Qed.

Lemma insert_swap_perm {A} (h : list A) (i j : nat) (p x : A) :
  i ≠ j → (i < length h)%nat → h !! j = Some p →
  <[j := x]> (<[i := p]> h) ≡ₚ <[i := x]> h.
Proof.
  revert i j. induction h as [|a h IH]; intros [|i] [|j] Hne Hi Hj;
    simpl in *; try done; try lia.
  - by apply insert_head_perm.
  - injection Hj as ->. apply insert_exchange_perm. lia.
  - f_equiv. apply IH; [congruence | lia | done].
Qed.

Section HeapFacts.
Context {A : Type} (key : A → Z).

(** The order of a max-heap on [key]: an item is less than another when
    its key is greater. *)
Definition key_gt (x y : A) : bool := key y <? key x.

(** The first item of the heap has the greatest key. *)
Definition top_first (heap : list A) : Prop :=
  ∀ r x, heap !! 0%nat = Some r → x ∈ heap → key x ≤ key r.

(** The same with a hole at [pos], where [newitem] is to go. *)
Definition top_first_but (newitem : A) (heap : list A) (pos : nat) : Prop :=
  match pos with
  | O => ∀ i x, i ≠ O → heap !! i = Some x → key x ≤ key newitem
  | S _ => ∃ r, heap !! 0%nat = Some r
                ∧ ∀ i x, i ≠ pos → heap !! i = Some x → key x ≤ key r
  end.

Lemma siftdown_perm (fuel : nat) (heap : list A) (newitem : A) (pos : nat) :
  (pos < length heap)%nat →
  _siftdown key_gt fuel heap newitem pos ≡ₚ <[pos := newitem]> heap.
Proof.
  revert heap pos. induction fuel as [|fuel IH]; intros heap pos Hpos; [done|].
  destruct pos as [|pos']; [done|]. cbn [_siftdown].
  assert (Nat.div2 pos' < S pos')%nat as Hparent
    by (pose proof (Nat.div2_decr pos' pos'); lia).
  destruct (heap !! Nat.div2 pos') as [parent|] eqn:Hp; [|done].
  destruct (key_gt newitem parent); [|done].
  rewrite IH by (rewrite length_insert; lia).
  apply insert_swap_perm; [lia | done | done].
Qed.

Lemma siftdown_top_first (fuel : nat) (heap : list A) (newitem : A) (pos : nat) :
  (pos ≤ fuel)%nat → (pos < length heap)%nat →
  top_first_but newitem heap pos →
  top_first (_siftdown key_gt fuel heap newitem pos).
Proof.
  revert heap pos. induction fuel as [|fuel IH]; intros heap pos Hfuel Hpos Htop.
  { assert (pos = O) as -> by lia. simpl in *. intros r x Hr Hx.
    rewrite list_lookup_insert_eq in Hr by done. injection Hr as <-.
    apply list_elem_of_lookup in Hx as [i Hx].
    destruct (decide (i = O)) as [->|Hi].
    - rewrite list_lookup_insert_eq in Hx by done. injection Hx as <-. lia.
    - rewrite list_lookup_insert_ne in Hx by done. by eapply Htop. }
  destruct pos as [|pos'].
  { simpl in *. intros r x Hr Hx.
    rewrite list_lookup_insert_eq in Hr by done. injection Hr as <-.
    apply list_elem_of_lookup in Hx as [i Hx].
    destruct (decide (i = O)) as [->|Hi].
    - rewrite list_lookup_insert_eq in Hx by done. injection Hx as <-. lia.
    - rewrite list_lookup_insert_ne in Hx by done. by eapply Htop. }
  cbn [_siftdown].
  assert (Nat.div2 pos' < S pos')%nat as Hparent
    by (pose proof (Nat.div2_decr pos' pos'); lia).
  destruct Htop as (r & Hr & Htop).
  destruct (lookup_lt_is_Some_2 heap (Nat.div2 pos') ltac:(lia)) as [parent Hp].
  rewrite Hp. unfold key_gt at 1.
  destruct (Z.ltb_spec (key parent) (key newitem)) as [Hlt|Hge].
  - apply IH; [lia | rewrite length_insert; lia|].
    unfold top_first_but. destruct (Nat.div2 pos') as [|pp] eqn:Hpp.
    + intros i x Hi Hx. rewrite Hr in Hp. injection Hp as ->.
      destruct (decide (i = S pos')) as [->|Hne].
      * rewrite list_lookup_insert_eq in Hx by done. injection Hx as <-. lia.
      * rewrite list_lookup_insert_ne in Hx by done.
        specialize (Htop i x Hne Hx). lia.
    + exists r. split; [by rewrite list_lookup_insert_ne|].
      intros i x Hi Hx. destruct (decide (i = S pos')) as [->|Hne].
      * rewrite list_lookup_insert_eq in Hx by done. injection Hx as <-.
        apply (Htop (S pp)); [lia | done].
      * rewrite list_lookup_insert_ne in Hx by done. by apply (Htop i).
  - intros r' x Hr' Hx. rewrite list_lookup_insert_ne in Hr' by done.
    rewrite Hr in Hr'. injection Hr' as <-.
    apply list_elem_of_lookup in Hx as [i Hx].
    destruct (decide (i = S pos')) as [->|Hne].
    + rewrite list_lookup_insert_eq in Hx by done. injection Hx as <-.
      assert (key parent ≤ key r) by (apply (Htop (Nat.div2 pos')); [lia|done]).
      lia.
    + rewrite list_lookup_insert_ne in Hx by done. by apply (Htop i).
Qed.

Lemma heappush_perm (heap : list A) (item : A) :
  heappush key_gt heap item ≡ₚ item :: heap.
Proof.
  unfold heappush. rewrite siftdown_perm by (rewrite length_app; simpl; lia).
  rewrite insert_app_r_alt, Nat.sub_diag by done. simpl.
  by rewrite <- Permutation_cons_append.
Qed.

Lemma heappush_top_first (heap : list A) (item : A) :
  top_first heap → top_first (heappush key_gt heap item).
Proof.
  intros Htop. unfold heappush.
  apply siftdown_top_first; [done | rewrite length_app; simpl; lia|].
  unfold top_first_but. destruct heap as [|r heap]; simpl.
  - intros [|i] x Hi Hx; [done|]. by destruct i.
  - exists r. split; [done|]. intros i x Hi Hx.
    apply (Htop r x); [done|].
    change (r :: heap ++ [item]) with ((r :: heap) ++ [item]) in Hx.
    apply lookup_app_Some in Hx as [Hx|[Hlen Hx]].
    + by eapply list_elem_of_lookup_2.
    + simpl in *. destruct (i - S (length heap))%nat eqn:Hd; [lia|].
      by destruct n.
Qed.

End HeapFacts.

(** The key of a removal event in its heap. *)
Definition removal_key (h : _RemovalHistory.t) : Z :=
  from_option EffectiveDate.day _DATE_MAX (_RemovalHistory.date_removed h).

(** X21.  [heapq.heappush] with the order of [_RemovalHistory] adds the
    event to the list without losing or repeating one, and keeps a most
    recent event in the first place. *)
Theorem heappush_removal_history (heap : list _RemovalHistory.t)
    (item : _RemovalHistory.t) :
  heappush _RemovalHistory__lt__ heap item ≡ₚ item :: heap
  ∧ (top_first removal_key heap →
     top_first removal_key (heappush _RemovalHistory__lt__ heap item)).
Proof.
  split.
  - apply (heappush_perm removal_key).
  - apply (heappush_top_first removal_key).
Qed.

(** ** The table of removal events *)

Section RemovalTableFacts.
Variable _to_date : string → result (option date).

(** The entry that a row is read as. *)
Definition row_removal (field_headings : list (option _RemovalHistoryField.t))
    (row : list string) : result _RemovalHistory.t :=
  row_to_removal _to_date field_headings 0 row
    (_RemovalHistory.mk None EmptyString).

(** The complete entries of a symbol. *)
Definition events_of (symbol : string) (entries : list _RemovalHistory.t)
  : list _RemovalHistory.t :=
  List.filter
    (fun e => _RemovalHistory.complete e
              && String.eqb (_RemovalHistory.symbol e) symbol)
    entries.

(** What the loop over the rows keeps of a lookup. *)
Definition filed (entries : list _RemovalHistory.t)
    (lookup : gmap string (list _RemovalHistory.t)) : Prop :=
  ∀ symbol,
    default [] (lookup !! symbol) ≡ₚ events_of symbol entries
    ∧ top_first removal_key (default [] (lookup !! symbol))
    ∧ (lookup !! symbol = None ↔ events_of symbol entries = []).

Lemma filed_empty : filed [] ∅.
Proof.
  intros symbol. rewrite lookup_empty. simpl. split; [done|]. split; [|done].
  intros r x Hr. by rewrite lookup_nil in Hr.
Qed.

Lemma filed_push (entries : list _RemovalHistory.t)
    (lookup : gmap string (list _RemovalHistory.t)) (entry : _RemovalHistory.t) :
  filed entries lookup →
  filed (entries ++ [entry]) (push_removal lookup entry).
Proof.
  intros Hf symbol. destruct (Hf symbol) as (Hperm & Htop & Hnone).
  unfold push_removal, events_of in *. rewrite List.filter_app. simpl.
  destruct (_RemovalHistory.complete entry) eqn:Hc; simpl.
  - destruct (String.eqb_spec (_RemovalHistory.symbol entry) symbol) as [<-|Hne].
    + rewrite lookup_insert_eq. simpl.
      split; [|split].
      * change _RemovalHistory__lt__ with (key_gt removal_key).
        by rewrite heappush_perm, Hperm, <- Permutation_cons_append.
      * by apply (heappush_top_first removal_key).
      * split; [done|]. intros H. by apply app_eq_nil in H as [_ ?].
    + rewrite lookup_insert_ne by done. by rewrite app_nil_r.
  - by rewrite app_nil_r.
Qed.

Lemma rows_to_removals_filed (field_headings : list (option _RemovalHistoryField.t))
    (rows : list (list string)) (entries read : list _RemovalHistory.t)
    (lookup : gmap string (list _RemovalHistory.t)) :
  Forall2 (fun row e => row_removal field_headings row = Ok e) rows entries →
  filed read lookup →
  ∃ lookup', rows_to_removals _to_date field_headings rows lookup = Ok lookup'
             ∧ filed (read ++ entries) lookup'.
Proof.
  intros Hrows. revert read lookup.
  induction Hrows as [|row e rows entries Hrow _ IH]; intros read lookup Hf.
  - exists lookup. by rewrite app_nil_r.
  - cbn [rows_to_removals]. unfold row_removal in Hrow. rewrite Hrow. simpl.
    destruct (IH (read ++ [e]) (push_removal lookup e)) as (lookup' & Hl & Hf').
    { by apply filed_push. }
    exists lookup'. split; [done|]. by rewrite <- (assoc_L (++)) in Hf'.
Qed.

(** The first row that is not converted ends the loop with its
    exception. *)
Lemma rows_to_removals_not_read
    (field_headings : list (option _RemovalHistoryField.t))
    (before : list (list string)) (row : list string)
    (after : list (list string)) (entries : list _RemovalHistory.t)
    (lookup : gmap string (list _RemovalHistory.t)) (e : exn) :
  Forall2 (fun row e => row_removal field_headings row = Ok e) before entries →
  row_removal field_headings row = Raise e →
  rows_to_removals _to_date field_headings (before ++ row :: after) lookup
  = Raise e.
Proof.
  intros Hrows Hrow. revert lookup.
  induction Hrows as [|r x rows entries Hr _ IH]; intros lookup; simpl.
  - unfold row_removal in Hrow. by rewrite Hrow.
  - unfold row_removal in Hr. rewrite Hr. simpl. apply IH.
Qed.

(** A row is converted when it is no wider than the headings and the
    converter of dates returns on its cells. *)
Lemma row_to_removal_Ok (field_headings : list (option _RemovalHistoryField.t))
    (row : list string) (idx : nat) (entry : _RemovalHistory.t) :
  (idx + length row ≤ length field_headings)%nat →
  Forall (fun value => is_Ok (_to_effective_date _to_date value)) row →
  is_Ok (row_to_removal _to_date field_headings idx row entry).
Proof.
  intros Hlen Hrow. revert idx entry Hlen.
  induction Hrow as [|value row [d Hd] _ IH]; intros idx entry Hlen.
  - by eexists.
  - simpl in *.
    destruct (lookup_lt_is_Some_2 field_headings idx ltac:(lia)) as [h ->].
    assert (is_Ok (set_removal_cell _to_date h value entry)) as [entry' ->].
    { destruct h as [[]|]; simpl; rewrite ?Hd; by eexists. }
    simpl. apply IH. lia.
Qed.

(** X22.  A table of fewer than two rows gives an empty lookup.
    Otherwise, when a heading of the symbol or of the date of removal is
    missing in the two header rows, an [UpdateError] with the revision is
    raised.  When both are there and every later row is converted, the
    table is read: the lookup holds under each symbol the complete entries
    of that symbol, each once, a most recent one first, and has no entry
    for a symbol without complete entries; and the first row that is not
    converted, being wider than the header or holding a date on which the
    converter raises, ends the reading with its exception. *)
Theorem table_to_removal_history_spec (rows : list (list string))
    (revision : Revision.t) :
  ((length rows < 2)%nat → _table_to_removal_history _to_date rows revision = Ok ∅)
  ∧ (∀ level_one level_two rows',
       rows = level_one :: level_two :: rows' →
       let field_headings := zip_with removal_heading level_one level_two in
       let found : gset string :=
         list_to_set (_RemovalHistoryField.value <$> omap id field_headings) in
       (found ∩ required_removal_fields ≠ required_removal_fields →
        ∃ msg, _table_to_removal_history _to_date rows revision
               = Raise (UpdateError msg (Some revision)))
       ∧ (found ∩ required_removal_fields = required_removal_fields →
          (∀ entries,
             Forall2 (fun row e => row_removal field_headings row = Ok e)
               rows' entries →
             ∃ lookup,
               _table_to_removal_history _to_date rows revision = Ok lookup
               ∧ filed entries lookup)
          ∧ (∀ before row after entries e,
               rows' = before ++ row :: after →
               Forall2 (fun row e => row_removal field_headings row = Ok e)
                 before entries →
               row_removal field_headings row = Raise e →
               _table_to_removal_history _to_date rows revision = Raise e))).
Proof.
  split.
  - destruct rows as [|r0 [|r1 rows']]; simpl; [done | done | lia].
  - intros level_one level_two rows' -> field_headings found. split.
    + intros Hmiss. unfold _table_to_removal_history.
      fold field_headings. fold found.
      rewrite bool_decide_false by done. simpl. by eexists.
    + intros Hfound. unfold _table_to_removal_history.
      fold field_headings. fold found.
      rewrite bool_decide_true by done. simpl. split.
      * intros entries Hrows.
        destruct (rows_to_removals_filed field_headings rows' entries [] ∅
                    Hrows filed_empty) as (lookup & Hl & Hf).
        by exists lookup.
      * intros before row after entries e -> Hbefore Hrow.
        by eapply rows_to_removals_not_read.
Qed.

End RemovalTableFacts.

(** ** The fuel of [_siftdown] *)

(** The result of [_siftdown] does not depend on the fuel, once there is
    as much of it as the position to start from. *)
Lemma siftdown_fuel {A} (lt : A → A → bool) (fuel fuel' : nat) (heap : list A)
    (newitem : A) (pos : nat) :
  (pos ≤ fuel)%nat → (pos ≤ fuel')%nat →
  _siftdown lt fuel heap newitem pos = _siftdown lt fuel' heap newitem pos.
Proof.
  revert fuel' heap pos. induction fuel as [|fuel IH]; intros fuel' heap pos H1 H2.
  { assert (pos = O) as -> by lia. by destruct fuel'. }
  destruct pos as [|pos']; [by destruct fuel'|].
  destruct fuel' as [|fuel']; [lia|]. cbn [_siftdown].
  destruct (heap !! Nat.div2 pos') as [parent|]; [|done].
  destruct (lt newitem parent); [|done].
  pose proof (Nat.div2_decr pos' pos'). apply IH; lia.
Qed.

(** ** The members that the rebuilt ledger lists *)

(** X23.  After one round of reconciliation the current members are those
    of the snapshot: when no override applies in the diff and the snapshot
    is in strict symbol order without removal dates, the records that
    [list_components] returns for the rebuilt ledger and no date carry
    the symbols of the snapshot, each once. *)
Theorem rebuilt_ledger_lists_snapshot _BACKFILLS
    (removals : gmap string (list _RemovalHistory.t)) (revision : Revision.t)
    (ledger snapshot ledger' : list Stock.t) (cs : Changeset.t) :
  overrides_idle _BACKFILLS ledger snapshot revision removals →
  in_symbol_order snapshot →
  all_active snapshot →
  _diff_lists _BACKFILLS ledger snapshot revision removals = Ok cs →
  _create_components_history cs = Ok ledger' →
  Stock.symbol <$> list_components ledger' None ≡ₚ Stock.symbol <$> snapshot.
Proof.
  intros Hidle Hsorted Hactive Hdiff Hrebuilt.
  exact (rebuilt_active_symbols _ _ _ _ _ _ _ Hidle Hsorted Hactive Hdiff Hrebuilt).
Qed.

Lemma rebuilt_ledger_lists_snapshot_witness :
  let a := Stock.mk (Some (exact_date (ymd 2010 1 1))) None (Some (ymd 2010 1 1))
             "A" "A Corp" "energy" "0000000001" in
  let x := Stock.mk (Some (exact_date (ymd 2005 1 1)))
             (Some (approx_date (ymd 2020 6 1))) (Some (ymd 2005 1 1))
             "X" "X Corp" "energy" "0000000003" in
  let snapshot := [Stock.mk None None None "A" "A Corp" "energy" "0000000001";
                   Stock.mk None None None "B" "B Corp" "energy" "0000000002"] in
  let ledger' :=
    [a;
     Stock.mk (Some (approx_date (ymd 2021 1 5))) None (Some (ymd 2021 1 5))
       "B" "B Corp" "energy" "0000000002";
     Stock.with_date_removed (Some (exact_date (ymd 2020 5 28))) x] in
  Stock.symbol <$> list_components ledger' None ≡ₚ Stock.symbol <$> snapshot.
Proof.
  intros a x snapshot ledger'.
  pose (overrides :=
          {[ "B" := [Stock.mk (Some (exact_date (ymd 1990 1 1)))
                       (Some (exact_date (ymd 2000 1 1))) None
                       "B" "B Old Corp" "energy" "0000000002"] ]}
          : gmap string (list Stock.t)).
  pose (removals :=
          {[ "X" := [_RemovalHistory.mk (Some (exact_date (ymd 2020 5 28))) "X"] ]}
          : gmap string (list _RemovalHistory.t)).
  pose (revision := Revision.mk (ymd 2021 1 5) "1000").
  pose (cs := Changeset.mk revision
                [Stock.mk (Some (approx_date (ymd 2021 1 5))) None
                   (Some (ymd 2021 1 5)) "B" "B Corp" "energy" "0000000002"]
                [] [] [a] []
                [Stock.with_date_removed (Some (exact_date (ymd 2020 5 28))) x]).
  assert (overrides_idle overrides [a; x] snapshot revision removals) as Hidle
    by (vm_compute; reflexivity).
  assert (in_symbol_order snapshot) as Hsorted by (repeat constructor).
  assert (all_active snapshot) as Hactive by (repeat constructor).
  assert (_diff_lists overrides [a; x] snapshot revision removals = Ok cs)
    as Hdiff by (vm_compute; reflexivity).
  assert (_create_components_history cs = Ok ledger') as Hrebuilt
    by (vm_compute; reflexivity).
  exact (rebuilt_ledger_lists_snapshot overrides removals revision [a; x]
           snapshot ledger' cs Hidle Hsorted Hactive Hdiff Hrebuilt).
Defined.

(** ** The exceptions of one snapshot *)

Lemma pydate_eq_raise_attribute (x y : pydate) (e : exn) :
  pydate_eq x y = Raise e → e = AttributeError.
Proof. destruct x, y; simpl; repeat case_match; congruence. Qed.

Lemma Stock_lt_raise (a b : Stock.t) (e : exn) :
  Stock.__lt__ a b = Raise e → e = AttributeError.
Proof.
  unfold Stock.__lt__.
  destruct (negb (String.eqb (Stock.symbol a) (Stock.symbol b))); [done|].
  destruct (negb (String.eqb (Stock.cik a) (Stock.cik b))); [done|].
  destruct (pydate_eq (Stock.key_removed a) (Stock.key_removed b)) as [r|]
    eqn:Hr; simpl; [|intros [= <-]; by eapply pydate_eq_raise_attribute].
  destruct (negb r); [done|].
  destruct (pydate_eq (Stock.key_added a) (Stock.key_added b)) as [r'|]
    eqn:Ha; simpl; [|intros [= <-]; by eapply pydate_eq_raise_attribute].
  destruct (negb r'); [done|]. by case_match.
Qed.

Section SortRaises.
Context {A : Type} (lt : A → A → result bool) (P : exn → Prop).
Hypothesis lt_raise : ∀ x y e, lt x y = Raise e → P e.

Lemma sort_insert_raise (x : A) (l : list A) (e : exn) :
  sort_insert lt x l = Raise e → P e.
Proof.
  induction l as [|y l IH]; [done|]. simpl.
  destruct (lt x y) as [[|]|e'] eqn:Hlt; simpl; [done| |].
  - destruct (sort_insert lt x l); simpl; [done|]. intros [= <-]. by apply IH.
  - intros [= <-]. by eapply lt_raise.
Qed.

Lemma sort_into_raise (acc l : list A) (e : exn) :
  sort_into lt acc l = Raise e → P e.
Proof.
  revert acc. induction l as [|x l IH]; intros acc; [done|]. simpl.
  destruct (sort_insert lt x acc) as [acc'|e'] eqn:Hi; simpl.
  - apply IH.
  - intros [= <-]. by eapply sort_insert_raise.
Qed.
End SortRaises.

Lemma sorted_stocks_raise (l : list Stock.t) (e : exn) :
  sorted Stock.__lt__ l = Raise e → e = AttributeError.
Proof. apply (sort_into_raise Stock.__lt__ _ Stock_lt_raise). Qed.

Section SnapshotErrors.
Variable _BACKFILLS : gmap string (list Stock.t).
Variable _to_cik : string → string.
Variable _to_date : string → result (option date).

(** An exception of the interpreter: not the program's own. *)
Definition foreign (e : exn) : Prop := ∀ msg r, e ≠ UpdateError msg r.

(** The converter of dates raises no [UpdateError]: what it lets out comes
    from [dt.date]. *)
Hypothesis to_date_foreign : ∀ s e, _to_date s = Raise e → foreign e.

(** An exception that, when it is the program's own, carries the revision
    of the snapshot. *)
Definition carries (revision : Revision.t) (e : exn) : Prop :=
  ∀ msg r, e = UpdateError msg r → r = Some revision.

Lemma foreign_carries (revision : Revision.t) (e : exn) :
  foreign e → carries revision e.
Proof. intros He msg r ->. by destruct (He msg r). Qed.

Lemma AttributeError_foreign : foreign AttributeError.
Proof. by intros msg r. Qed.

Lemma IndexError_foreign : foreign IndexError.
Proof. by intros msg r. Qed.

Lemma UpdateError_carries (revision : Revision.t) (msg : string) :
  carries revision (UpdateError msg (Some revision)).
Proof. by intros msg' r [= _ <-]. Qed.

Lemma to_effective_date_foreign (s : string) (e : exn) :
  _to_effective_date _to_date s = Raise e → foreign e.
Proof.
  unfold _to_effective_date.
  destruct (_to_date _) as [d|e'] eqn:Hd; simpl; [done|].
  intros [= <-]. by eapply to_date_foreign.
Qed.

Lemma set_cell_foreign heading value stock e :
  set_cell _collapse_whitespace _to_sector _to_cik
    (_to_effective_date _to_date) _to_date heading value stock = Raise e →
  foreign e.
Proof.
  destruct heading as [[]|]; simpl; try done.
  - destruct (_to_effective_date _ _) eqn:Hd; simpl; [done|].
    intros [= <-]. by eapply to_effective_date_foreign.
  - destruct (_to_effective_date _ _) eqn:Hd; simpl; [done|].
    intros [= <-]. by eapply to_effective_date_foreign.
  - destruct (_to_date _) eqn:Hd; simpl; [done|].
    intros [= <-]. by eapply to_date_foreign.
Qed.

Lemma row_to_stock_foreign field_headings idx row stock e :
  row_to_stock _collapse_whitespace _to_sector _to_cik
    (_to_effective_date _to_date) _to_date field_headings idx row stock
  = Raise e → foreign e.
Proof.
  revert idx stock. induction row as [|value row IH]; intros idx stock; [done|].
  simpl. destruct (field_headings !! idx) as [h|];
    [|intros [= <-]; apply IndexError_foreign].
  destruct (set_cell _ _ _ _ _ h value stock) as [stock'|e'] eqn:Hc; simpl.
  - apply IH.
  - intros [= <-]. by eapply set_cell_foreign.
Qed.

Lemma rows_to_stocks_foreign field_headings rows stocks row_count e :
  rows_to_stocks _collapse_whitespace _to_sector _to_cik
    (_to_effective_date _to_date) _to_date field_headings rows stocks
    row_count = Raise e → foreign e.
Proof.
  revert stocks row_count. induction rows as [|row rows IH];
    intros stocks row_count; [done|].
  simpl. destruct (row_to_stock _ _ _ _ _ _ _ _ _) as [s|e'] eqn:Hr; simpl.
  - apply IH.
  - intros [= <-]. by eapply row_to_stock_foreign.
Qed.

Lemma csv_to_stocks_carries (rows : list (list string)) (revision : Revision.t)
    (e : exn) :
  _csv_to_stocks _to_token _collapse_whitespace _to_sector _to_cik
    (_to_effective_date _to_date) _to_date rows (Some revision) = Raise e →
  carries revision e.
Proof.
  unfold _csv_to_stocks. destruct rows as [|header rows]; [done|].
  destruct (negb (bool_decide _)); [intros [= <-]; apply UpdateError_carries|].
  destruct (rows_to_stocks _ _ _ _ _ _ _ _ _) as [[stocks n]|e'] eqn:Hr; simpl.
  - destruct (length stocks <? n)%nat;
      [intros [= <-]; apply UpdateError_carries|].
    intros ->%sorted_stocks_raise.
    apply foreign_carries, AttributeError_foreign.
  - intros [= <-]. by eapply foreign_carries, rows_to_stocks_foreign.
Qed.

Lemma row_to_removal_foreign field_headings idx row entry e :
  row_to_removal _to_date field_headings idx row entry = Raise e → foreign e.
Proof.
  revert idx entry. induction row as [|value row IH]; intros idx entry; [done|].
  simpl. destruct (field_headings !! idx) as [h|];
    [|intros [= <-]; apply IndexError_foreign].
  destruct (set_removal_cell _to_date h value entry) as [entry'|e'] eqn:Hc;
    simpl.
  - apply IH.
  - intros [= <-]. destruct h as [[]|]; simpl in Hc; try done.
    destruct (_to_effective_date _ _) eqn:Hd; simpl in Hc; [done|].
    injection Hc as <-. by eapply to_effective_date_foreign.
Qed.

Lemma rows_to_removals_foreign field_headings rows lookup e :
  rows_to_removals _to_date field_headings rows lookup = Raise e → foreign e.
Proof.
  revert lookup. induction rows as [|row rows IH]; intros lookup; [done|].
  simpl. destruct (row_to_removal _ _ _ _ _) as [s|e'] eqn:Hr; simpl.
  - apply IH.
  - intros [= <-]. by eapply row_to_removal_foreign.
Qed.

Lemma table_to_removal_history_carries (rows : list (list string))
    (revision : Revision.t) (e : exn) :
  _table_to_removal_history _to_date rows revision = Raise e →
  carries revision e.
Proof.
  unfold _table_to_removal_history.
  destruct rows as [|r0 [|r1 rows]]; [done | done|].
  destruct (negb (bool_decide _)); [intros [= <-]; apply UpdateError_carries|].
  intros He. by eapply foreign_carries, rows_to_removals_foreign.
Qed.

Lemma diff_lists_carries components_history latest revision removals (e : exn) :
  _diff_lists _BACKFILLS components_history latest revision removals = Raise e →
  carries revision e.
Proof.
  unfold _diff_lists.
  destruct (negb (bool_decide _)); [intros [= <-]; apply UpdateError_carries|].
  destruct (negb (bool_decide _)); [intros [= <-]; apply UpdateError_carries|].
  destruct (join _ _ _ _ _ _) as [j|e'] eqn:Hj; simpl; [done|].
  intros [= <-]. apply join_raise in Hj as ->.
  apply foreign_carries, AttributeError_foreign.
Qed.

Lemma update_components_history_carries (components_history : list Stock.t)
    (components_table removals_table : list (list string))
    (revision : Revision.t) (e : exn) :
  _update_components_history _BACKFILLS _to_cik _to_date components_history
    components_table removals_table revision = Raise e →
  carries revision e.
Proof.
  unfold _update_components_history.
  destruct (_csv_to_stocks _ _ _ _ _ _ _ _) as [latest|e1] eqn:H1; simpl;
    [|intros [= <-]; by eapply csv_to_stocks_carries].
  destruct (_table_to_removal_history _ _ _) as [removals|e2] eqn:H2; simpl;
    [|intros [= <-]; by eapply table_to_removal_history_carries].
  apply diff_lists_carries.
Qed.

(** X24.  An [UpdateError] that [_update_components_history] lets out
    carries the revision of the snapshot, whichever of the parse of the
    components table, the reading of the removal table and the diff raised
    it: the program's own error is never raised there without it. *)
Theorem update_components_history_raise (components_history : list Stock.t)
    (components_table removals_table : list (list string))
    (revision : Revision.t) (msg : string) (r : option Revision.t) :
  _update_components_history _BACKFILLS _to_cik _to_date components_history
    components_table removals_table revision = Raise (UpdateError msg r) →
  r = Some revision.
Proof.
  intros He%update_components_history_carries. by eapply He.
Qed.

Lemma read_last_line_snoc (lines : list string) (message : string) :
  read_last_line (lines ++ [message]) = message.
Proof. unfold read_last_line. by rewrite last_snoc. Qed.

Lemma log_update_error_last (st : driver_state) (message : string) :
  read_last_line (changelog (log_update_error st message)) = message.
Proof.
  unfold log_update_error.
  destruct (String.eqb_spec (read_last_line (changelog st)) message) as [He|Hne];
    simpl; [done | apply read_last_line_snoc].
Qed.

(** X25.  When the reconciliation of a snapshot raises an [UpdateError],
    the driver goes on with the ledger and its file as they are; the
    message of the error, which starts with the revision of the snapshot,
    is then the last line of the log: it is appended to the log unless it
    was its last line already. *)
Theorem process_revision_update_error (today : date) (st : driver_state)
    (components_table removals_table : list (list string))
    (revision : Revision.t) (msg : string) (r : option Revision.t) :
  _update_components_history _BACKFILLS _to_cik _to_date (components_history st)
    components_table removals_table revision = Raise (UpdateError msg r) →
  let message := Revision__repr__ revision +:+ " ERROR: " +:+ msg in
  ∃ st',
    process_revision _BACKFILLS _to_cik _to_date today st
      components_table removals_table revision = Ok st'
    ∧ components_history st' = components_history st
    ∧ components_history_file st' = components_history_file st
    ∧ read_last_line (changelog st') = message
    ∧ changelog st'
      = (if String.eqb (read_last_line (changelog st)) message
         then changelog st else changelog st ++ [message]).
Proof.
  intros Hraise message.
  assert (r = Some revision) as ->.
  { apply update_components_history_carries in Hraise. by eapply Hraise. }
  assert (UpdateError__str__ today msg (Some revision) = message) as Hmsg
    by reflexivity.
  exists (log_update_error st message).
  split; [|split; [|split; [|split]]].
  - unfold process_revision. by rewrite Hraise, Hmsg.
  - unfold log_update_error. by case_match.
  - unfold log_update_error. by case_match.
  - apply log_update_error_last.
  - unfold log_update_error.
    by destruct (String.eqb (read_last_line (changelog st)) message).
Qed.

End SnapshotErrors.

Lemma update_components_history_raise_witness :
  let revision := Revision.mk (ymd 2021 1 5) "1000" in
  Some revision = Some revision.
Proof.
  intros revision.
  apply (update_components_history_raise ∅ (fun s => s) (fun _ => Ok None)
           ltac:(intros s e He; discriminate He)
           [] [["Ticker"]%string] [] revision
           "Symbol, name or sector headings missing. Found: symbol"
           (Some revision)).
  vm_compute. reflexivity.
Defined.

Lemma process_revision_update_error_witness :
  let st := mk_driver [] [] [] in
  let revision := Revision.mk (ymd 2021 1 5) "1000" in
  let message :=
    Revision__repr__ revision +:+ " ERROR: "
    +:+ "Symbol, name or sector headings missing. Found: symbol" in
  ∃ st',
    process_revision ∅ (fun s => s) (fun _ => Ok None) (ymd 2021 1 6) st
      [["Ticker"]%string] [] revision = Ok st'
    ∧ components_history st' = components_history st
    ∧ components_history_file st' = components_history_file st
    ∧ read_last_line (changelog st') = message
    ∧ changelog st'
      = (if String.eqb (read_last_line (changelog st)) message
         then changelog st else changelog st ++ [message]).
Proof.
  intros st revision message.
  apply (process_revision_update_error ∅ (fun s => s) (fun _ => Ok None)
           ltac:(intros s e He; discriminate He)
           (ymd 2021 1 6) st [["Ticker"]%string] [] revision
           "Symbol, name or sector headings missing. Found: symbol" (Some revision)).
  vm_compute. reflexivity.
Defined.

(** ** The query at two dates *)

(** The day a record counts as removed on, and the days it counts as added
    and as first observed on. *)
Definition removed_on (c : Stock.t) : date :=
  from_option EffectiveDate.to_date _DATE_MAX (Stock.date_removed c).
Definition added_on (c : Stock.t) : date :=
  from_option EffectiveDate.to_date _DATE_MIN (Stock.date_added c).
Definition observed_on (c : Stock.t) : date :=
  from_option id _DATE_MIN (Stock.created_at c).

Lemma list_components_elem (l : list Stock.t) (d : date) (c : Stock.t) :
  c ∈ list_components l (Some d) ↔
  c ∈ l ∧ added_on c ≤ d ∧ d < removed_on c ∧ observed_on c ≤ d.
Proof.
  unfold list_components, added_on, removed_on, observed_on.
  rewrite elem_of_filter_bool, !andb_true_iff, !Z.leb_le, Z.ltb_lt. tauto.
Qed.

(** X26.  Between two query dates the answer of [list_components] changes
    by the records removed, added or first observed in between: a record
    listed at the earlier date is listed at the later one unless it is
    removed by then, and a record listed at the later date is listed at the
    earlier one unless it was added or first observed after it. *)
Theorem list_components_between (l : list Stock.t) (earlier later : date)
    (c : Stock.t) :
  earlier ≤ later →
  (c ∈ list_components l (Some earlier) →
   (c ∈ list_components l (Some later) ↔ later < removed_on c))
  ∧ (c ∈ list_components l (Some later) →
     (c ∈ list_components l (Some earlier) ↔
      added_on c ≤ earlier ∧ observed_on c ≤ earlier)).
Proof.
  intros Hle. rewrite !list_components_elem. split.
  - intros (Hc & Ha & Hr & Ho). split; [tauto|]. intros ?. repeat split; [done|lia..].
  - intros (Hc & Ha & Hr & Ho). split; [tauto|]. intros [? ?].
    repeat split; [done|lia..].
Qed.

Lemma list_components_between_witness :
  let c := Stock.mk (Some (exact_date (ymd 2020 1 1)))
             (Some (exact_date (ymd 2021 1 5))) (Some (ymd 2020 1 1))
             "X" "X Corp" "energy" "0000000001" in
  let now := ymd 2021 1 5 in
  (c ∈ list_components [c] (Some (now - 2)) →
   (c ∈ list_components [c] (Some now) ↔ now < removed_on c))
  ∧ (c ∈ list_components [c] (Some now) →
     (c ∈ list_components [c] (Some (now - 2)) ↔
      added_on c ≤ now - 2 ∧ observed_on c ≤ now - 2)).
Proof.
  intros c now. apply (list_components_between [c] (now - 2) now c).
  vm_compute. discriminate.
Defined.

(** ** The central index key *)

Definition is_zero (c : ascii) : bool := Ascii.eqb c "0".

Definition is_sign (c : ascii) : bool := Ascii.eqb c "+" || Ascii.eqb c "-".

(** The number that a run of digits after [acc] stands for. *)
Fixpoint digits_value (acc : Z) (s : string) : Z :=
  match s with
  | EmptyString => acc
  | String c s' => digits_value (10 * acc + digit_value c) s'
  end.

Definition digit_checked (c : ascii) : bool :=
  implb (is_digit c)
    (negb (is_sign c) && negb (Ascii.eqb c "_")
     && not_space c && (0 <=? digit_value c) && (digit_value c <=? 9)
     && Bool.eqb (digit_value c =? 0) (is_zero c))
  && implb (is_sign c) (not_space c && negb (Ascii.eqb c "_") && negb (is_digit c)).

Lemma digit_checked_all (c : ascii) : digit_checked c = true.
Proof. destruct c as [[] [] [] [] [] [] [] []]; vm_compute; reflexivity. Qed.

Lemma digit_facts (c : ascii) :
  is_digit c = true →
  is_sign c = false ∧ Ascii.eqb c "_" = false
  ∧ not_space c = true ∧ 0 ≤ digit_value c ≤ 9
  ∧ (digit_value c =? 0) = is_zero c.
Proof.
  intros Hd. pose proof (digit_checked_all c) as H. unfold digit_checked in H.
  rewrite Hd in H. simpl in H. apply andb_true_iff in H as [H _].
  repeat (apply andb_true_iff in H as [H ?]).
  repeat match goal with
         | H : negb _ = true |- _ => apply negb_true_iff in H
         end.
  split_and!; try done; try lia.
  by apply Bool.eqb_prop.
Qed.

Lemma sign_facts (c : ascii) :
  is_sign c = true → not_space c = true.
Proof.
  intros Hs. pose proof (digit_checked_all c) as H. unfold digit_checked in H.
  apply andb_true_iff in H as [_ H]. rewrite Hs in H. simpl in H.
  by repeat (apply andb_true_iff in H as [H ?]).
Qed.

(** [int] on a text, by its first character. *)
Lemma int_signed (c : ascii) (body : string) :
  is_sign c = true →
  int (String c body)
  = match int_digits body false 0 0 with
    | Some (value, digits) =>
        if (4300 <? digits)%nat then None
        else Some ((if Ascii.eqb c "+" then 1 else -1) * value)
    | None => None
    end.
Proof.
  unfold is_sign, int. intros Hc.
  destruct (Ascii.eqb c "+"); [done|]. simpl in Hc. by rewrite Hc.
Qed.

Lemma int_unsigned (s : string) :
  match s with String c _ => is_sign c = false | EmptyString => True end →
  int s
  = match int_digits s false 0 0 with
    | Some (value, digits) =>
        if (4300 <? digits)%nat then None else Some value
    | None => None
    end.
Proof.
  unfold is_sign, int. destruct s as [|c body]; intros Hc.
  - done.
  - apply orb_false_iff in Hc as [-> ->].
    destruct (int_digits _ _ _ _) as [[v m]|]; [|done].
    destruct (4300 <? m)%nat; [done|]. f_equal. lia.
Qed.

Lemma int_digits_count (s : string) (b : bool) (acc : Z) (n k : nat) :
  int_digits s b acc (n + k)
  = (fun r => (r.1, (r.2 + k)%nat)) <$> int_digits s b acc n.
Proof.
  revert b acc n. induction s as [|c s IH]; intros b acc n; simpl.
  - by destruct b.
  - destruct (Ascii.eqb c "_"); [destruct b; [apply IH | done]|].
    destruct (is_digit c); [|done]. apply (IH true _ (S n)).
Qed.

Lemma int_digits_after_digit (s : string) (acc : Z) (n : nat) r :
  int_digits s false acc n = Some r → int_digits s true acc n = Some r.
Proof.
  destruct s as [|c s]; simpl; [done|]. by destruct (Ascii.eqb c "_").
Qed.

Lemma int_digits_zeros (k : nat) (s : string) (b : bool) (n : nat) :
  int_digits (zeros k +:+ s) b 0 n
  = int_digits s (match k with O => b | S _ => true end) 0 (n + k).
Proof.
  revert b n. induction k as [|k IH]; intros b n.
  - simpl. by rewrite Nat.add_0_r.
  - change (zeros (S k) +:+ s) with (String "0" (zeros k +:+ s)).
    cbn [int_digits].
    change (Ascii.eqb "0" "_") with false. change (is_digit "0") with true.
    cbn iota. change (10 * 0 + digit_value "0") with 0.
    rewrite IH. replace (S n + k)%nat with (n + S k)%nat by lia.
    by destruct k.
Qed.

Lemma int_digits_length (s : string) (b : bool) (acc : Z) (n : nat) v m :
  int_digits s b acc n = Some (v, m) → (m ≤ n + String.length s)%nat.
Proof.
  revert b acc n. induction s as [|c s IH]; intros b acc n; simpl.
  - destruct b; [|done]. intros [= _ <-]. lia.
  - destruct (Ascii.eqb c "_").
    + destruct b; [|done]. intros H%IH. lia.
    + destruct (is_digit c); [|done]. intros H%IH. lia.
Qed.

(** Zeros in front of the digits keep the number. *)
Lemma int_digits_filled (k : nat) (s : string) v m :
  int_digits s false 0 0 = Some (v, m) →
  int_digits (zeros k +:+ s) false 0 0 = Some (v, (m + k)%nat).
Proof.
  intros Hd. rewrite int_digits_zeros. destruct k as [|k].
  - by rewrite !Nat.add_0_r, Hd.
  - by rewrite (int_digits_count s true 0 0 (S k)),
      (int_digits_after_digit _ _ _ _ Hd).
Qed.

Lemma zeros_length (k : nat) : String.length (zeros k) = k.
Proof. induction k as [|k IH]; simpl; by rewrite ?IH. Qed.

Lemma str_length_app (a b : string) :
  String.length (a +:+ b) = (String.length a + String.length b)%nat.
Proof. induction a as [|c a IH]; simpl; by rewrite ?IH. Qed.

Lemma zeros_forall (P : ascii → bool) (k : nat) :
  P "0"%char = true → str_forall P (zeros k) = true.
Proof. intros HP. induction k as [|k IH]; simpl; by rewrite ?HP, ?IH. Qed.

Lemma zfill_signed (width : nat) (c : ascii) (rest : string) :
  is_sign c = true →
  zfill width (String c rest)
  = String c (zeros (width - S (String.length rest)) +:+ rest).
Proof. unfold zfill, is_sign. by intros ->. Qed.

Lemma zfill_unsigned (width : nat) (s : string) :
  match s with String c _ => is_sign c = false | EmptyString => True end →
  zfill width s = zeros (width - String.length s) +:+ s.
Proof.
  unfold zfill, is_sign. destruct s as [|c rest]; intros Hc.
  - induction (width - String.length EmptyString)%nat as [|k IH]; [done|].
    change (zeros (S k) +:+ EmptyString) with (String "0" (zeros k +:+ EmptyString)).
    by rewrite <- IH.
  - by rewrite Hc.
Qed.

Lemma zfill_long (width : nat) (s : string) :
  (width ≤ String.length s)%nat → zfill width s = s.
Proof.
  intros Hw. unfold zfill. replace (width - String.length s)%nat with O by lia.
  destruct s as [|c s]; [done|]. simpl. by destruct (_ || _).
Qed.

Lemma zfill_length (width : nat) (s : string) :
  (width ≤ String.length (zfill width s))%nat.
Proof.
  unfold zfill. destruct s as [|c s].
  - rewrite zeros_length. simpl. lia.
  - destruct (_ || _); simpl; rewrite ?str_length_app, zeros_length; simpl; lia.
Qed.

Lemma zfill_not_space (width : nat) (s : string) :
  str_forall not_space s = true → str_forall not_space (zfill width s) = true.
Proof.
  intros Hs. unfold zfill. destruct s as [|c s].
  - by apply zeros_forall.
  - simpl in Hs. apply andb_true_iff in Hs as [Hc Hs].
    destruct (_ || _); simpl;
      rewrite ?str_forall_app, ?(zeros_forall not_space), ?Hc, ?Hs; try done.
    simpl. by rewrite Hc, Hs.
Qed.

(** Filling with zeros keeps the number. *)
Lemma int_zfill (s : string) (num : Z) :
  int s = Some num → int (zfill 10 s) = Some num.
Proof.
  intros Hint.
  destruct (decide (10 ≤ String.length s)%nat) as [Hlong|Hshort];
    [by rewrite zfill_long|].
  destruct s as [|c body]; [done|]. cbn [String.length] in Hshort.
  destruct (is_sign c) eqn:Hsign.
  - rewrite zfill_signed by done. rewrite int_signed in * by done.
    destruct (int_digits body false 0 0) as [[v m]|] eqn:Hd; [|done].
    pose proof (int_digits_length _ _ _ _ _ _ Hd) as Hm.
    rewrite (int_digits_filled _ _ _ _ Hd).
    destruct (4300 <? m)%nat; [done|].
    replace (4300 <? m + (10 - S (String.length body)))%nat with false; [done|].
    symmetry. apply Nat.ltb_ge. lia.
  - rewrite zfill_unsigned by done.
    rewrite int_unsigned in Hint by done.
    destruct (int_digits (String c body) false 0 0) as [[v m]|] eqn:Hd; [|done].
    pose proof (int_digits_length _ _ _ _ _ _ Hd) as Hm.
    cbn [String.length] in *.
    rewrite int_unsigned.
    + rewrite (int_digits_filled _ _ _ _ Hd).
      destruct (4300 <? m)%nat; [done|].
      replace (4300 <? m + (10 - S (String.length body)))%nat with false;
        [done|].
      symmetry. apply Nat.ltb_ge. lia.
    + destruct (10 - S (String.length body))%nat; [done|].
      reflexivity.
Qed.

Lemma str_join_words_plain (w : string) :
  str_forall not_space w = true → str_join EmptyString (str_words w) = w.
Proof.
  intros Hw. rewrite (str_words_plain w Hw). unfold truthy.
  by destruct (String.eqb_spec w EmptyString) as [->|].
Qed.

Lemma str_join_words_not_space (s : string) :
  str_forall not_space (str_join EmptyString (str_words s)) = true.
Proof.
  apply str_forall_join; [done|].
  eapply Forall_impl; [apply str_words_are_words|]. by intros w [_ ?].
Qed.

Lemma to_cik_plain (w : string) :
  str_forall not_space w = true →
  _to_cik w = match int w with
              | Some num =>
                  if (0 <? num) && (num <? 10000000000) then zfill 10 w
                  else EmptyString
              | None => EmptyString
              end.
Proof. intros Hw. unfold _to_cik. by rewrite (str_join_words_plain w Hw). Qed.

(** X28. The key that [_to_cik] returns is either the empty text or a text
    without white space, of ten characters at least, that [int] reads as
    the number of the input without its white space, a number strictly
    between 0 and 10^10; and [_to_cik] leaves its own result as it is. *)
Theorem to_cik_normal_form (s : string) :
  (_to_cik s = EmptyString
   ∨ ∃ num,
       int (str_join EmptyString (str_words s)) = Some num
       ∧ int (_to_cik s) = Some num
       ∧ 0 < num < 10000000000
       ∧ (10 ≤ String.length (_to_cik s))%nat
       ∧ str_forall not_space (_to_cik s) = true)
  ∧ _to_cik (_to_cik s) = _to_cik s.
Proof.
  assert (_to_cik s = EmptyString
   ∨ ∃ num,
       int (str_join EmptyString (str_words s)) = Some num
       ∧ int (_to_cik s) = Some num
       ∧ 0 < num < 10000000000
       ∧ (10 ≤ String.length (_to_cik s))%nat
       ∧ str_forall not_space (_to_cik s) = true) as H.
  { unfold _to_cik.
    pose proof (str_join_words_not_space s) as Hsp.
    destruct (int (str_join EmptyString (str_words s))) as [num|] eqn:Hint;
      [|by left].
    destruct (_ && _) eqn:Hrange; [|by left].
    right. exists num. apply andb_true_iff in Hrange as [?%Z.ltb_lt ?%Z.ltb_lt].
    split_and!; try done.
    - by apply int_zfill.
    - apply zfill_length.
    - by apply zfill_not_space. }
  split; [exact H|].
  destruct H as [->|(num & _ & Hint & [Hlo Hhi] & Hlen & Hsp)]; [done|].
  rewrite (to_cik_plain _ Hsp), Hint.
  apply Z.ltb_lt in Hlo, Hhi. rewrite Hlo, Hhi. simpl.
  by apply zfill_long.
Qed.

Lemma int_digits_digits (s : string) (b : bool) (acc : Z) (n : nat) :
  str_forall is_digit s = true → truthy s || b = true →
  int_digits s b acc n = Some (digits_value acc s, (n + String.length s)%nat).
Proof.
  revert b acc n. induction s as [|c s IH]; intros b acc n Hs Hb.
  - simpl in *. subst. by rewrite Nat.add_0_r.
  - simpl in Hs. apply andb_true_iff in Hs as [Hc Hs].
    destruct (digit_facts c Hc) as (_ & Hu & _).
    simpl. rewrite Hu, Hc, (IH true); [|done|by rewrite orb_true_r].
    do 2 f_equal. lia.
Qed.

(** A run of digits, not empty and of 4300 digits at most, is read as
    its number. *)
Lemma int_digits_text (s : string) :
  str_forall is_digit s = true → truthy s = true →
  (String.length s ≤ 4300)%nat →
  int s = Some (digits_value 0 s).
Proof.
  intros Hd Ht Hlen. rewrite int_unsigned.
  - rewrite (int_digits_digits s false 0 0 Hd) by (by rewrite Ht).
    replace (4300 <? 0 + String.length s)%nat with false; [done|].
    symmetry. apply Nat.ltb_ge. lia.
  - destruct s as [|c body]; [done|]. simpl in Hd.
    apply andb_true_iff in Hd as [Hc _]. by destruct (digit_facts c Hc).
Qed.

Lemma digits_value_bounds (s : string) (acc : Z) :
  str_forall is_digit s = true → 0 ≤ acc →
  acc * 10 ^ Z.of_nat (String.length s) ≤ digits_value acc s
  ∧ digits_value acc s < (acc + 1) * 10 ^ Z.of_nat (String.length s).
Proof.
  revert acc. induction s as [|c s IH]; intros acc Hs Hacc.
  - simpl. lia.
  - simpl in Hs. apply andb_true_iff in Hs as [Hc Hs].
    destruct (digit_facts c Hc) as (_ & _ & _ & Hd & _).
    cbn [digits_value String.length].
    destruct (IH (10 * acc + digit_value c) Hs ltac:(lia)) as [Hlo Hhi].
    rewrite Nat2Z.inj_succ, Z.pow_succ_r by lia.
    assert (0 < 10 ^ Z.of_nat (String.length s)) by (apply Z.pow_pos_nonneg; lia).
    nia.
Qed.

Lemma digits_value_positive (s : string) (acc : Z) :
  str_forall is_digit s = true → 0 ≤ acc →
  (0 <? digits_value acc s) = negb ((acc =? 0) && str_forall is_zero s).
Proof.
  revert acc. induction s as [|c s IH]; intros acc Hs Hacc.
  - simpl. rewrite andb_true_r. destruct (Z.eqb_spec acc 0), (Z.ltb_spec 0 acc);
      simpl; lia.
  - simpl in Hs. apply andb_true_iff in Hs as [Hc Hs].
    destruct (digit_facts c Hc) as (_ & _ & _ & Hd & Hz).
    cbn [digits_value str_forall]. rewrite IH by (try done; lia).
    f_equal. rewrite <- Hz, andb_assoc. f_equal.
    destruct (Z.eqb_spec (10 * acc + digit_value c) 0), (Z.eqb_spec acc 0),
      (Z.eqb_spec (digit_value c) 0); simpl; lia.
Qed.

(** X29. When the characters of the cell other than white space are one
    to ten digits, the key is empty if they are all zeros, and otherwise
    the digits after as many zeros as make ten characters: ten digits. *)
Theorem to_cik_digits (s : string) :
  let digits := str_join EmptyString (str_words s) in
  str_forall is_digit digits = true →
  (1 ≤ String.length digits ≤ 10)%nat →
  _to_cik s
  = (if str_forall is_zero digits then EmptyString
     else zeros (10 - String.length digits) +:+ digits)
  ∧ (str_forall is_zero digits = false →
     String.length (_to_cik s) = 10%nat
     ∧ str_forall is_digit (_to_cik s) = true).
Proof.
  intros digits Hd Hlen.
  assert (_to_cik s
          = if str_forall is_zero digits then EmptyString
            else zeros (10 - String.length digits) +:+ digits) as Heq.
  { unfold _to_cik. fold digits.
    assert (truthy digits = true) as Ht
      by (destruct digits; [simpl in Hlen; lia | done]).
    rewrite (int_digits_text digits Hd Ht) by lia.
    rewrite (digits_value_positive digits 0 Hd) by lia.
    destruct (digits_value_bounds digits 0 Hd ltac:(lia)) as [_ Hhi].
    assert (digits_value 0 digits < 10000000000) as Hlt.
    { eapply Z.lt_le_trans; [exact Hhi|].
      change 10000000000 with (10 ^ 10). rewrite Z.mul_1_l.
      apply Z.pow_le_mono_r; lia. }
    apply Z.ltb_lt in Hlt. rewrite Hlt. simpl.
    destruct (str_forall is_zero digits); [done|]. simpl.
    apply zfill_unsigned.
    destruct digits as [|c body]; [done|]. simpl in Hd.
    apply andb_true_iff in Hd as [Hc _]. by destruct (digit_facts c Hc). }
  split; [exact Heq|].
  intros Hz. rewrite Heq, Hz. split.
  - rewrite str_length_app, zeros_length. lia.
  - rewrite str_forall_app, Hd, zeros_forall; done.
Qed.

Lemma to_cik_digits_witness :
  _to_cik " 320 193 "
  = (if str_forall is_zero "320193" then EmptyString
     else zeros (10 - String.length "320193") +:+ "320193")
  ∧ (str_forall is_zero "320193" = false →
     String.length (_to_cik " 320 193 ") = 10%nat
     ∧ str_forall is_digit (_to_cik " 320 193 ") = true).
Proof.
  apply (to_cik_digits " 320 193 "); [reflexivity | vm_compute; lia].
Defined.

(** X30. The key is not always ten digits: the sign of the cell and an
    underscore between its digits stay in the key. *)
Theorem to_cik_not_only_digits :
  _to_cik "+5" = "+000000005"%string
  ∧ _to_cik "1_0" = "00000001_0"%string
  ∧ _to_cik " 00000000320193" = "00000000320193"%string
  ∧ _to_cik "-5" = EmptyString
  ∧ _to_cik "0" = EmptyString
  ∧ _to_cik "10000000000" = EmptyString
  ∧ _to_cik "12a" = EmptyString.
Proof. vm_compute. repeat split. Qed.
